(** * Applyomatic: the review loop, the CV drafting transforms and the
      model gateway of [src/main.js], embedded and verified.

    Conventions of the embedding.
    - JavaScript numbers that the program uses as integers (scores, list
      indices, day counts) are [Z]. Where what the operator types or the
      configuration holds can take a number to 2^53 or beyond (the numbers
      of a range to delete, the date of the next attempt, the wait before
      it), the arithmetic is that of doubles: the exact result rounded by
      [JS.roundToDouble]. The length of a list is that of an array, below
      2^32.
    - JavaScript strings are [string], of ASCII characters; white space is
      the ASCII white space recognised by [Ascii.is_space].
    - Plain objects with string-valued properties (a suggestion, a past
      role) are [gmap string string]: the spread [{...o}] is the map itself,
      [delete o.k] is [delete], [o.k = v] is [insert], and reading an absent
      property gives [None] (JavaScript's [undefined]).
    - Every [await rl.question(..)] consumes the next answer of the
      operator; the answers of a session are a [list string]. *)

From Stdlib Require Import ZArith Lia Ascii String DecimalString DecimalPos.
From stdpp Require Import gmap strings list sorting.

Local Open Scope string_scope.
Local Open Scope Z_scope.
Local Open Scope list_scope.

(** ** JavaScript built-ins used by the program *)

Module JS.

(** [cons_head c ps] puts the character [c] in front of the first piece. *)
Definition cons_head (c : ascii) (ps : list string) : list string :=
  match ps with
  | p :: ps' => String c p :: ps'
  | [] => [String c ""]
  end.

(** [String.prototype.trimStart] *)
Fixpoint trimStart (s : string) : string :=
  match s with
  | String c s' => if Ascii.is_space c then trimStart s' else s
  | "" => ""
  end.

(** [String.prototype.trim] *)
Definition trim (s : string) : string :=
  String.rev (trimStart (String.rev (trimStart s))).

(** [s.includes(c)] for a one-character needle. *)
Fixpoint includes (c : ascii) (s : string) : bool :=
  match s with
  | String c' s' => if decide (c' = c) then true else includes c s'
  | "" => false
  end.

(** [s.split(c)] for a one-character separator. *)
Fixpoint splitChar (d : ascii) (s : string) : list string :=
  match s with
  | String c s' =>
      if decide (c = d) then "" :: splitChar d s' else cons_head c (splitChar d s')
  | "" => [""]
  end.

(** Does a run of white space begin at the head of [s]? *)
Definition startsWithSpace (s : string) : bool :=
  match s with String c _ => Ascii.is_space c | "" => false end.

(** [s.split(/\s+/)]: a maximal run of white space separates two pieces;
    a run at either end of [s] leaves an empty piece there. *)
Fixpoint splitSpaces (s : string) : list string :=
  match s with
  | String c s' =>
      if Ascii.is_space c
      then (if startsWithSpace s' then splitSpaces s' else "" :: splitSpaces s')
      else cons_head c (splitSpaces s')
  | "" => [""]
  end.

(** [s.split(/\s+/, limit)] *)
Definition splitSpacesLimit (limit : nat) (s : string) : list string :=
  take limit (splitSpaces s).

(** Does [/\s*,/] match at the head of [s]? *)
Definition startsSeparator (s : string) : bool :=
  match trimStart s with String "," _ => true | _ => false end.

(** After a separator the white space that follows the comma belongs to the
    separator, not to the next piece. *)
Definition trim_head (ps : list string) : list string :=
  match ps with
  | p :: ps' => trimStart p :: ps'
  | [] => []
  end.

(** [s.split(/\s*,\s*/)]: the separator is a comma with the white space
    around it. White space that no comma follows stays in its piece. *)
Fixpoint splitCommas (s : string) : list string :=
  match s with
  | String c s' =>
      if decide (c = ","%char) then "" :: trim_head (splitCommas s')
      else if Ascii.is_space c && startsSeparator s' then splitCommas s'
      else cons_head c (splitCommas s')
  | "" => [""]
  end.

(** The value of the longest prefix of decimal digits of [s], after [acc]. *)
Fixpoint digitsValue (acc : Z) (s : string) : Z :=
  match s with
  | String c s' =>
      match Ascii.is_nat c with
      | Some d => digitsValue (10 * acc + Z.of_nat d) s'
      | None => acc
      end
  | "" => acc
  end.

Definition startsWithDigit (s : string) : bool :=
  match s with
  | String c _ => bool_decide (is_Some (Ascii.is_nat c))
  | "" => false
  end.

(** [parseInt(s, 10)]: leading white space is skipped, one sign is read,
    then the longest run of digits; [None] is [NaN]. *)
Definition parseInt (s : string) : option Z :=
  let s1 := trimStart s in
  let '(sign, s2) :=
    match s1 with
    | String "-" r => (-1, r)
    | String "+" r => (1, r)
    | _ => (1, s1)
    end in
  if startsWithDigit s2 then Some (sign * digitsValue 0 s2) else None.

(** [Array.prototype.sort(cmp)]. The language requires the sort to be
    stable; [cmp a b <= 0] keeps [a] before [b]. *)
Fixpoint sortInsert {A} (cmp : A → A → Z) (x : A) (l : list A) : list A :=
  match l with
  | y :: l' => if decide (cmp x y ≤ 0) then x :: l else y :: sortInsert cmp x l'
  | [] => [x]
  end.

Fixpoint sort {A} (cmp : A → A → Z) (l : list A) : list A :=
  match l with
  | x :: l' => sortInsert cmp x (sort cmp l')
  | [] => []
  end.

(** [Set.prototype.add] on a set kept in insertion order. *)
Definition setAdd (x : Z) (set : list Z) : list Z :=
  if decide (x ∈ set) then set else set ++ [x].

(** The double nearest to the integer [v], ties going to the even
    significand, as the integer it is; [None] is [Infinity] or
    [-Infinity]. An integer below 2^53 in magnitude is its own double. *)
Definition roundToDouble (v : Z) : option Z :=
  let m := Z.abs v in
  if m <? 2 ^ 53 then Some v
  else
    let e := Z.log2 m - 52 in
    let q := m `div` 2 ^ e in
    let r := m `mod` 2 ^ e in
    let half := 2 ^ (e - 1) in
    let q' :=
      if r <? half then q
      else if half <? r then q + 1
      else if Z.even q then q else q + 1 in
    let d := q' * 2 ^ e in
    if d <? 2 ^ 1024 then Some (Z.sgn v * d) else None.

(** [a || b] on an optional number: [undefined] and [0] are falsy. *)
Definition orDefault (a : option Z) (b : Z) : Z :=
  match a with
  | Some v => if decide (v = 0) then b else v
  | None => b
  end.

End JS.

(** ** Data model *)

(** A suggestion is the object [{type, location, suggestion}] the
    Suggestion Engine returns; a past role is [{from, to, jobTitle,
    description?}] of the candidate profile. *)
Abbreviation Suggestion := (gmap string string).
Abbreviation Role := (gmap string string).

(** What the program writes to the console. *)
Inductive output : Type :=
| PrintSuggestions (shown : list Suggestion)
| Log (msg : string)
| LogEditing (number : Z) (current : option string)
| CloseReadline.

(** ** Interactive helpers *)

(** The loop [for (let i = start; i <= end; i += 1)] of [parseIndexList]
    when [end] is below 2^53, where every [i] is exact. *)
Definition addRange (max start end_ : Z) (set : list Z) : list Z :=
  foldl (λ set i, if (1 <=? i) && (i <=? max) then JS.setAdd (i - 1) set else set)
        set (seqZ start (end_ - start + 1)).

(** The same loop turn by turn on doubles, [i += 1] being the sum rounded
    to the nearest double; [fuel] bounds the number of turns and [None] is
    a loop that has not ended within them. [i - 1] is exact for an
    [i <= max], [max] being the length of an array. *)
Fixpoint forLoop (fuel : nat) (max i end_ : Z) (set : list Z) : option (list Z) :=
  match fuel with
  | O => None
  | S fuel' =>
      if i <=? end_ then
        let set' :=
          if (1 <=? i) && (i <=? max) then JS.setAdd (i - 1) set else set in
        match JS.roundToDouble (i + 1) with
        | Some i' => forLoop fuel' max i' end_ set'
        | None => Some set'
        end
      else Some set
  end.

(** What the loop comes to on the doubles [start <= end]; [None] when it
    never ends. From 2^53 on, [i += 1] rounds back to [i] and the loop
    stays at an [i <= end] for ever, with one exception: an [i] in
    [2^53, 2^54) whose significand is odd is halfway between two doubles
    and goes to the next one, so a loop with [start = end] at such a double
    runs its body once and ends. That this is what [forLoop] does is
    proved below ([forRange_forLoop]). *)
Definition forRange (max start end_ : Z) (set : list Z) : option (list Z) :=
  if end_ <? 2 ^ 53 then Some (addRange max start end_ set)
  else if bool_decide (start = end_) && (end_ <? 2 ^ 54) && Z.odd (end_ `div` 2)
  then Some (if (1 <=? start) && (start <=? max) then JS.setAdd (start - 1) set else set)
  else None.

(** One turn of [for (const part of inputStr.split(..))]; [None] when it
    never ends. [parseInt] gives the double of the number written, and
    [Number.isInteger] is false of [NaN] and of [Infinity]. For a single
    number the test against [max], an array length, has the same result
    on the double as on the number written ([single_number_test]). *)
Definition addPart (max : Z) (set : list Z) (part : string) : option (list Z) :=
  if decide (part = "") then Some set
  else if JS.includes "-" part then
    match JS.parseInt <$> JS.splitChar "-" part with
    | Some a :: Some b :: _ =>
        match JS.roundToDouble a, JS.roundToDouble b with
        | Some a', Some b' => forRange max (Z.min a' b') (Z.max a' b') set
        | _, _ => Some set
        end
    | _ => Some set
    end
  else
    match JS.parseInt part with
    | Some n => Some (if (1 <=? n) && (n <=? max) then JS.setAdd (n - 1) set else set)
    | None => Some set
    end.

(** [parseIndexList]; [None] when it never returns. *)
Definition parseIndexList (inputStr : string) (max : Z) : option (list Z) :=
  JS.sort (λ a b, a - b)
    <$> foldl (λ set part, set ≫= λ added, addPart max added part)
              (Some []) (JS.splitCommas inputStr).

(** [list.filter((_, i) => p(i))], the index counted from [i]. *)
Fixpoint filterIndex {A} (p : Z → bool) (i : Z) (l : list A) : list A :=
  match l with
  | x :: l' => if p i then x :: filterIndex p (i + 1) l' else filterIndex p (i + 1) l'
  | [] => []
  end.

(** [idxs.includes(i)] *)
Definition includesIndex (idxs : list Z) (i : Z) : bool := bool_decide (i ∈ idxs).

(** ** The review loop

    The live array [list] of the source is [lst] here.

    [reviewSuggestionsInteractively] is suspended at one of two questions:
    the command prompt of the loop, or the replacement text of an edit.
    [Returned] is the value of its [return]; [Looping] is the loop of
    [parseIndexList] that never ends, after which no answer is read. *)
Inductive state : Type :=
| Reviewing (lst : list Suggestion)
| Editing (lst : list Suggestion) (idx : nat) (item : Suggestion)
| Returned (approved : list Suggestion)
| Looping (lst : list Suggestion).

Definition commandsHelp : string :=
  "Commands: d <idx[,..]|a> delete | e <idx> edit | c continue | q quit".

(** The head of the loop: print the live list, then ask for a command. *)
Definition prompt (out : list output) (lst : list Suggestion) : state * list output :=
  (Reviewing lst, out ++ [PrintSuggestions lst; Log commandsHelp]).

(** The [return] inside [try], followed by [finally { rl.close() }]. *)
Definition finish (approved : list Suggestion) : state * list output :=
  (Returned approved, [CloseReadline]).

(** [const [cmd, restRaw] = line.split(/\s+/, 2); const rest = restRaw || '']
    (an absent [cmd] would match no command, as the empty string does). *)
Definition commandOf (line : string) : string * string :=
  let parts := JS.splitSpacesLimit 2 line in
  (default "" (parts !! 0%nat), default "" (parts !! 1%nat)).

(** One turn of the loop on the operator's answer to the command prompt. *)
Definition command (lst : list Suggestion) (answer : string) : state * list output :=
  let line := JS.trim answer in
  if decide (line = "") then prompt [] lst
  else
    let '(cmd, rest) := commandOf line in
    if decide (cmd = "q") then finish []
    else if decide (cmd = "c") then finish lst
    else if decide (cmd = "d") then
      if decide (rest = "a") then prompt [] []
      else
        match parseIndexList rest (Z.of_nat (length lst)) with
        | Some idxs =>
            if decide (idxs = []) then prompt [Log "No valid indices."] lst
            else prompt [] (filterIndex (λ i, negb (includesIndex idxs i)) 0 lst)
        | None => (Looping lst, [])
        end
    else if decide (cmd = "e") then
      match (λ n, n - 1) <$> JS.parseInt rest with
      | Some idx =>
          if (idx <? 0) || (idx >=? Z.of_nat (length lst))
          then prompt [Log "Out of range."] lst
          else
            let item := default ∅ (lst !! Z.to_nat idx) in
            (Editing lst (Z.to_nat idx) item,
             [LogEditing (idx + 1) (item !! "suggestion")])
      | None => prompt [Log "Out of range."] lst
      end
    else prompt [Log "Unknown command."] lst.

(** The rest of the [e] branch, on the operator's replacement text. *)
Definition replace (lst : list Suggestion) (idx : nat) (item : Suggestion)
    (answer : string) : state * list output :=
  let newSug := JS.trim answer in
  let item' := if decide (newSug = "") then item else <["suggestion" := newSug]> item in
  prompt [] (<[idx := item']> lst).

Definition step (st : state) (answer : string) : state * list output :=
  match st with
  | Reviewing lst => command lst answer
  | Editing lst idx item => replace lst idx item answer
  | Returned approved => (Returned approved, [])
  | Looping lst => (Looping lst, [])
  end.

(** The loop run on the answers the operator gives, one per question. *)
Fixpoint run (st : state) (answers : list string) : state * list output :=
  match answers with
  | answer :: answers' =>
      let '(st', out) := step st answer in
      let '(st'', out') := run st' answers' in
      (st'', out ++ out')
  | [] => (st, [])
  end.

(** [let list = suggestions.map((s) => ({ ...s }))], then the loop. *)
Definition reviewSuggestionsInteractively (suggestions : list Suggestion)
    (answers : list string) : state * list output :=
  let '(st, out) := prompt [] ((λ s, s) <$> suggestions) in
  let '(st', out') := run st answers in
  (st', out ++ out').

(** The value [reviewSuggestionsInteractively] resolves to, if it does. *)
Definition approvedList (suggestions : list Suggestion) (answers : list string)
    : option (list Suggestion) :=
  match fst (reviewSuggestionsInteractively suggestions answers) with
  | Returned approved => Some approved
  | _ => None
  end.

(** ** JSON values, a reader of JSON texts and JSON Schema

    [JSON.parse] is a built-in of the runtime and a parameter of the
    gateway below. The module [Json] is a reader for the texts of the
    samples: it reads the JSON texts whose strings have no [\u] escape,
    and keeps a number as the decimal it was written as, [JNumber m e]
    being [m * 10^e], where [JSON.parse] has the double nearest to it. *)
#[warnings="-register-all"]
Inductive json : Type :=
| JNull
| JBool (b : bool)
| JNumber (mantissa exp10 : Z)
| JString (s : string)
| JArray (items : list json)
| JObject (props : list (string * json)).

Module Json.

Definition quote : ascii := "034"%char.
Definition backslash : ascii := "092"%char.

(** JSON white space: space, tab, line feed, carriage return. *)
Definition isWs (c : ascii) : bool :=
  match c with
  | " " | "009" | "010" | "013" => true
  | _ => false
  end%char.

Fixpoint skipWs (s : string) : string :=
  match s with
  | String c s' => if isWs c then skipWs s' else s
  | "" => ""
  end.

(** [dropPrefix p s] is the rest of [s] after the prefix [p]. *)
Fixpoint dropPrefix (p s : string) : option string :=
  match p, s with
  | "", _ => Some s
  | String a p', String b s' => if decide (a = b) then dropPrefix p' s' else None
  | _, "" => None
  end.

(** The character an escape [\c] stands for; [\uXXXX] is not read. *)
Definition unescape (c : ascii) : option ascii :=
  match c with
  | "034" => Some "034"
  | "092" => Some "092"
  | "/" => Some "/"
  | "b" => Some "008"
  | "f" => Some "012"
  | "n" => Some "010"
  | "r" => Some "013"
  | "t" => Some "009"
  | _ => None
  end%char.

(** The characters of a string literal, after its opening quote. *)
Fixpoint parseChars (s : string) : option (string * string) :=
  match s with
  | String c s' =>
      if decide (c = quote) then Some ("", s')
      else if decide (c = backslash) then
        match s' with
        | String e s'' =>
            match unescape e, parseChars s'' with
            | Some ch, Some (str, rest) => Some (String ch str, rest)
            | _, _ => None
            end
        | "" => None
        end
      else if (N_of_ascii c <? 32)%N then None
      else match parseChars s' with
           | Some (str, rest) => Some (String c str, rest)
           | None => None
           end
  | "" => None
  end.

(** The longest prefix of digits: its value after [acc], how many digits,
    and the rest. *)
Fixpoint spanDigits (acc : Z) (count : nat) (s : string) : Z * nat * string :=
  match s with
  | String c s' =>
      match Ascii.is_nat c with
      | Some d => spanDigits (10 * acc + Z.of_nat d) (S count) s'
      | None => (acc, count, s)
      end
  | "" => (acc, count, s)
  end.

Definition parseSign (s : string) : Z * string :=
  match s with
  | String "-" r => (-1, r)
  | _ => (1, s)
  end.

Definition parseExpSign (s : string) : Z * string :=
  match s with
  | String "-" r => (-1, r)
  | String "+" r => (1, r)
  | _ => (1, s)
  end.

(** [-? int frac? exp?]; an integer part does not start with a zero
    unless it is zero. *)
Definition parseNumber (s : string) : option (json * string) :=
  let '(sign, s1) := parseSign s in
  let '(int, n, s2) := spanDigits 0 0 s1 in
  if decide (n = 0%nat) then None
  else if bool_decide (1 < n)%nat && bool_decide (dropPrefix "0" s1 ≠ None) then None
  else
    let '(mant, fracDigits, s3) :=
      match s2 with
      | String "." r =>
          let '(m, k, r') := spanDigits int 0 r in
          (m, Some k, r')
      | _ => (int, None, s2)
      end in
    if decide (fracDigits = Some 0%nat) then None
    else
      let scale := - Z.of_nat (default 0%nat fracDigits) in
      match s3 with
      | String c r =>
          if decide (c = "e"%char ∨ c = "E"%char) then
            let '(esign, r1) := parseExpSign r in
            let '(e, k, r2) := spanDigits 0 0 r1 in
            if decide (k = 0%nat) then None
            else Some (JNumber (sign * mant) (scale + esign * e), r2)
          else Some (JNumber (sign * mant) scale, s3)
      | "" => Some (JNumber (sign * mant) scale, s3)
      end.

(** [addMember key v ms] is the object with the member [key: v] written in
    front of the members [ms]: when the key is written again later, the
    later value is the one the object holds. *)
Definition addMember (key : string) (v : json) (ms : list (string * json))
    : list (string * json) :=
  match list_find (λ kv, kv.1 = key) ms with
  | Some (_, (_, v')) => (key, v') :: filter (λ kv, kv.1 ≠ key) ms
  | None => (key, v) :: ms
  end.

(** Values, the elements of an array after [[] and the members of an
    object after [{]. Two nested calls always read a character between
    them, so [parse] below gives enough [fuel]. *)
Fixpoint parseValue (fuel : nat) (s : string) : option (json * string) :=
  match fuel with
  | O => None
  | S fuel' =>
      match skipWs s with
      | String "{" r =>
          match skipWs r with
          | String "}" r' => Some (JObject [], r')
          | _ => match parseMembers fuel' r with
                 | Some (ms, r') => Some (JObject ms, r')
                 | None => None
                 end
          end
      | String "[" r =>
          match skipWs r with
          | String "]" r' => Some (JArray [], r')
          | _ => match parseElements fuel' r with
                 | Some (vs, r') => Some (JArray vs, r')
                 | None => None
                 end
          end
      | String "034" r =>
          match parseChars r with
          | Some (str, r') => Some (JString str, r')
          | None => None
          end
      | String "t" _ as s1 => (λ r, (JBool true, r)) <$> dropPrefix "true" s1
      | String "f" _ as s1 => (λ r, (JBool false, r)) <$> dropPrefix "false" s1
      | String "n" _ as s1 => (λ r, (JNull, r)) <$> dropPrefix "null" s1
      | s1 => parseNumber s1
      end
  end
with parseElements (fuel : nat) (s : string) : option (list json * string) :=
  match fuel with
  | O => None
  | S fuel' =>
      match parseValue fuel' s with
      | Some (v, r) =>
          match skipWs r with
          | String "," r' =>
              match parseElements fuel' r' with
              | Some (vs, r'') => Some (v :: vs, r'')
              | None => None
              end
          | String "]" r' => Some ([v], r')
          | _ => None
          end
      | None => None
      end
  end
with parseMembers (fuel : nat) (s : string) : option (list (string * json) * string) :=
  match fuel with
  | O => None
  | S fuel' =>
      match skipWs s with
      | String "034" r =>
          match parseChars r with
          | Some (key, r1) =>
              match skipWs r1 with
              | String ":" r2 =>
                  match parseValue fuel' r2 with
                  | Some (v, r3) =>
                      match skipWs r3 with
                      | String "," r4 =>
                          match parseMembers fuel' r4 with
                          | Some (ms, r5) => Some (addMember key v ms, r5)
                          | None => None
                          end
                      | String "}" r4 => Some ([(key, v)], r4)
                      | _ => None
                      end
                  | None => None
                  end
              | _ => None
              end
          | None => None
          end
      | _ => None
      end
  end.

(** The value of the text; [None] for a text that is not JSON, and for
    one with a [\u] escape. *)
Definition parse (text : string) : option json :=
  match parseValue (2 * String.length text + 2) text with
  | Some (v, rest) => if decide (skipWs rest = "") then Some v else None
  | None => None
  end.

End Json.

(** The JSON Schema shapes the program declares. An object shape is
    closed ([additionalProperties: false]). *)
#[warnings="-register-all"]
Inductive schema : Type :=
| SString (enum : option (list string))
| SInteger (minimum maximum : option Z)
| SNumber (minimum maximum : option Z)
| SBoolean
| SArray (items : schema)
| SObject (properties : list (string * schema)) (required : list string).

Module Schema.

Definition isInteger (m e : Z) : bool :=
  if 0 <=? e then true else m mod 10 ^ (- e) =? 0.

(** [bound <= m * 10^e] and [m * 10^e <= bound] *)
Definition geBound (m e bound : Z) : bool :=
  if 0 <=? e then bound <=? m * 10 ^ e else bound * 10 ^ (- e) <=? m.

Definition leBound (m e bound : Z) : bool :=
  if 0 <=? e then m * 10 ^ e <=? bound else m <=? bound * 10 ^ (- e).

Definition inRange (minimum maximum : option Z) (m e : Z) : bool :=
  from_option (geBound m e) true minimum && from_option (leBound m e) true maximum.

Fixpoint validates (sch : schema) (v : json) {struct sch} : bool :=
  match sch, v with
  | SString enum, JString s =>
      match enum with
      | Some allowed => bool_decide (s ∈ allowed)
      | None => true
      end
  | SInteger minimum maximum, JNumber m e => isInteger m e && inRange minimum maximum m e
  | SNumber minimum maximum, JNumber m e => inRange minimum maximum m e
  | SBoolean, JBool _ => true
  | SArray items, JArray vs => forallb (validates items) vs
  | SObject properties required, JObject props =>
      forallb (λ k, bool_decide (k ∈ props.*1)) required
      && forallb
           (λ kv,
              (fix property (ps : list (string * schema)) : bool :=
                 match ps with
                 | (k, s) :: ps' => if decide (k = kv.1) then validates s kv.2 else property ps'
                 | [] => false
                 end) properties)
           props
  | _, _ => false
  end.

End Schema.

(** ** Model Gateway *)

Inductive error : Type :=
| SyntaxError
| RangeError
| TransportError (msg : string).

Inductive result (A : Type) : Type :=
| Ok (a : A)
| Err (e : error).
Arguments Ok {A} a.
Arguments Err {A} e.

(** The request [sendToLLM] builds, with [text.format.schema] when a
    schema was given. *)
Record request : Type := {
  instructions : option string;
  input : list (string * string);
  text_format : option schema;
  temperature : option Z;
}.

(** What [sendToLLM] returns: [res.output_text] as it is, or parsed. *)
Inductive reply : Type :=
| Text (output_text : string)
| Structured (value : json).

Section Gateway.

(** [client.responses.create]: the [output_text] of the response, or the
    error the call throws. *)
Variable responses_create : request → result string.

(** [JSON.parse]: the value of a JSON text; [None] is the [SyntaxError] it
    throws. *)
Variable JSON_parse : string → option json.

(** [instructions || undefined]: the empty string is falsy. *)
Definition orUndefined (s : option string) : option string :=
  match s with
  | Some "" => None
  | _ => s
  end.

(** The constant [model] and [tools] of the request and the [DEBUG]
    logging are left out. *)
Definition sendToLLM (instructions : option string) (input : list (string * string))
    (schema : option schema) (temperature : option Z) : result reply :=
  let options :=
    {| instructions := orUndefined instructions; input := input;
       text_format := schema; temperature := temperature |} in
  match responses_create options with
  | Ok output_text =>
      match schema with
      | Some _ =>
          match JSON_parse output_text with
          | Some value => Ok (Structured value)
          | None => Err SyntaxError
          end
      | None => Ok (Text output_text)
      end
  | Err e => Err e
  end.

End Gateway.

(** The schema of the Relevance Scorer's reply. *)
Definition scoreSchema : schema :=
  SObject [("score", SInteger (Some 1) (Some 10)); ("rationale", SString None)]
          ["score"; "rationale"].

(** ** Orchestrator *)

(** [Math.floor(Math.random() * (max - min + 1)) + min].
    [Math.random()] is the double [random / 2^53] for an integer
    [0 <= random < 2^53]; the product and its floor are taken exactly,
    where the program rounds the product to a double before the floor. *)
Definition randInt (random min max : Z) : Z :=
  (random * (max - min + 1)) `div` 2 ^ 53 + min.

(** The run configuration [job.config.json]. *)
Record JobCfg : Type := {
  minReapplyDays : option Z;
  maxReapplyDays : option Z;
  maxAttempts : option Z;
  daemon : bool;
}.

(** [const days = randInt(jobCfg.minReapplyDays || 30,
    jobCfg.maxReapplyDays || 90)] in [runOnce]. *)
Definition reapplyDays (jobCfg : JobCfg) (random : Z) : Z :=
  randInt random (JS.orDefault (minReapplyDays jobCfg) 30)
                 (JS.orDefault (maxReapplyDays jobCfg) 90).

(** The candidate profile [cv.base.json] and the tailored CV. *)
Record CvBaseData : Type := {
  personalDetails : json;
  qualifications : json;
  skills : option (list string);
  achievements : option (list string);
  pastJobRoles : option (list Role);
}.

Record CV : Type := {
  cv_personalDetails : json;
  cv_qualifications : json;
  cv_skills : list string;
  cv_achievements : list string;
  cv_pastJobRoles : list Role;
}.

(** [{ skill, score, rationale }] and [{ achievement, score, rationale }] *)
Record ScoredItem : Type := {
  item : string;
  score : Z;
  rationale : string;
}.

Definition byScoreDesc (a b : ScoredItem) : Z := score b - score a.

(** The calls of [draftCV] and [polishCV] to the Document Composer, the
    Suggestion Engine, the review loop and the Edit Applier. *)
Inductive call : Type :=
| ComposeCV (cv : CV)
| SuggestImprovements (cvMarkdown : string)
| Review (suggestions : list Suggestion)
| ApplyEdits (cvMarkdown : string) (approved : list Suggestion).

Section Orchestrator.

(** [String.prototype.localeCompare] *)
Variable localeCompare : string → string → Z.

(** The Relevance Scorer: the reply to the [n]-th scoring call of the run,
    which asks about the given skill, achievement or role. *)
Variable assessSkillRelevanceToNewJob : nat → string → Z * string.
Variable assessRoleRelevanceToNewJob : nat → Role → Z * string.

(** The Document Composer, the Suggestion Engine (the [suggestions]
    property of its reply) and the Edit Applier. *)
Variable composeCVMarkdown : CV → string.
Variable suggestCVImprovements : string → option (list Suggestion).
Variable applyCVEdits : string → list Suggestion → string.

Definition byStartDateDesc (a b : Role) : Z :=
  localeCompare (default "" (b !! "from")) (default "" (a !! "from")).

(** [for (const skill of ..) { .. push({ skill, score, rationale }) }],
    the first call being the [n]-th of the run. *)
Fixpoint withRelevance (n : nat) (items : list string) : list ScoredItem :=
  match items with
  | text :: items' =>
      let '(score, rationale) := assessSkillRelevanceToNewJob n text in
      {| item := text; score := score; rationale := rationale |}
        :: withRelevance (S n) items'
  | [] => []
  end.

(** [sort(byScoreDesc)], [slice(0, 10)] *)
Definition topTen (scored : list ScoredItem) : list ScoredItem :=
  take 10 (JS.sort byScoreDesc scored).

(** [const includeRole = { ...role }; if (score < 80) delete
    includeRole.description] *)
Definition includeRole (role : Role) (score : Z) : Role :=
  if score <? 80 then delete "description" role else role.

Fixpoint rolesToInclude (n : nat) (roles : list Role) : list Role :=
  match roles with
  | role :: roles' =>
      let '(score, _) := assessRoleRelevanceToNewJob n role in
      includeRole role score :: rolesToInclude (S n) roles'
  | [] => []
  end.

(** The object [cv] that [draftCV] hands to [composeCVMarkdown]. *)
Definition tailoredCV (cvBaseData : CvBaseData) : CV :=
  let theSkills := default [] (skills cvBaseData) in
  let theAchievements := default [] (achievements cvBaseData) in
  let theRoles := default [] (pastJobRoles cvBaseData) in
  {| cv_personalDetails := personalDetails cvBaseData;
     cv_qualifications := qualifications cvBaseData;
     cv_skills := item <$> topTen (withRelevance 0 theSkills);
     cv_achievements :=
       item <$> topTen (withRelevance (length theSkills) theAchievements);
     cv_pastJobRoles :=
       JS.sort byStartDateDesc
         (rolesToInclude (length theSkills + length theAchievements) theRoles) |}.

(** [polishCV]: the Markdown it resolves to ([None] while the operator has
    not ended the review) and the calls it made. *)
Definition polishCV (cvMarkdown : string) (answers : list string)
    : option string * list call :=
  match suggestCVImprovements cvMarkdown with
  | Some suggestions =>
      if decide (length suggestions = 0%nat) then
        (Some cvMarkdown, [SuggestImprovements cvMarkdown])
      else
        match approvedList suggestions answers with
        | Some approved =>
            if decide (length approved = 0%nat) then
              (Some cvMarkdown, [SuggestImprovements cvMarkdown; Review suggestions])
            else
              (Some (applyCVEdits cvMarkdown approved),
               [SuggestImprovements cvMarkdown; Review suggestions;
                ApplyEdits cvMarkdown approved])
        | None => (None, [SuggestImprovements cvMarkdown; Review suggestions])
        end
  | None => (Some cvMarkdown, [SuggestImprovements cvMarkdown])
  end.

Definition draftCV (cvBaseData : CvBaseData) (answers : list string)
    : option string * list call :=
  let cv := tailoredCV cvBaseData in
  let cv_markdown := composeCVMarkdown cv in
  let '(polished, calls) := polishCV cv_markdown answers in
  (polished, ComposeCV cv :: calls).

End Orchestrator.

(** ** One attempt *)

(** What [runOnce] returns, [{ gotJob, nextRun, jobDescription }];
    [nextRun] is in milliseconds since the epoch, [None] is [null]. *)
Record Attempt : Type := {
  gotJob : bool;
  nextRun : option Z;
  jobDescription : string;
}.

(** [a * b] on doubles that are integers: the product rounded to the
    nearest double; [None] is an infinity. *)
Definition timesDouble (a : option Z) (b : Z) : option Z :=
  a ≫= λ a, JS.roundToDouble (a * b).

(** The time value of [new Date(now + days * 24 * 60 * 60 * 1000)]; [None]
    is the Invalid Date of a sum that is not finite or is beyond
    8.64e15 ms on either side of the epoch. *)
Definition dateAfterDays (now days : Z) : option Z :=
  ms ← timesDouble (timesDouble (timesDouble (timesDouble (Some days) 24) 60) 60) 1000;
  time ← JS.roundToDouble (now + ms);
  if Z.abs time <=? 8640000000000000 then Some time else None.

(** What [runOnce] does, in order. *)
Inductive action : Type :=
| ReadNotes
| ReadCvBase
| FetchJobDescription (job : string)
| ApplicationStillOpen (job : string)
| DraftCV (calls : list call)
| DraftCoveringLetter (job_description : string)
| PrintLetterAndCV (covering_letter cv : string).

Section RunOnce.

Variable localeCompare : string → string → Z.
Variable assessSkillRelevanceToNewJob : nat → string → Z * string.
Variable assessRoleRelevanceToNewJob : nat → Role → Z * string.
Variable composeCVMarkdown : CV → string.
Variable suggestCVImprovements : string → option (list Suggestion).
Variable applyCVEdits : string → list Suggestion → string.

(** The [job_description] of [fetchJobDescription]'s reply, the [open] of
    [applicationStillOpen]'s, the [covering_letter] of
    [draftCoveringLetter]'s. *)
Variable fetchJobDescription : string → string.
Variable applicationStillOpen : string → bool.
Variable draftCoveringLetter : CvBaseData → string → string → string.

(** [runOnce], given what the two files hold, the operator's answers,
    [Date.now()] and the random number: what it resolves to, or the error
    [nextRun.toISOString()] throws on an Invalid Date; [None] while the
    review has not ended. *)
Definition runOnce (job coveringLetterThoughts : string) (cvBaseData : CvBaseData)
    (jobCfg : JobCfg) (answers : list string) (now random : Z)
    : option (result Attempt) * list action :=
  let job_description := fetchJobDescription job in
  let before :=
    [ReadNotes; ReadCvBase; FetchJobDescription job; ApplicationStillOpen job] in
  if negb (applicationStillOpen job) then
    (Some (Ok {| gotJob := false; nextRun := None;
                 jobDescription := job_description |}),
     before)
  else
    match draftCV localeCompare assessSkillRelevanceToNewJob
                  assessRoleRelevanceToNewJob composeCVMarkdown
                  suggestCVImprovements applyCVEdits cvBaseData answers with
    | (Some cv, calls) =>
        let covering_letter :=
          draftCoveringLetter cvBaseData coveringLetterThoughts job_description in
        let gotJob := false in
        let after :=
          before ++ [DraftCV calls; DraftCoveringLetter job_description;
                     PrintLetterAndCV covering_letter cv] in
        if negb gotJob then
          let days := reapplyDays jobCfg random in
          match dateAfterDays now days with
          | Some next =>
              (Some (Ok {| gotJob := gotJob; nextRun := Some next;
                           jobDescription := job_description |}), after)
          | None => (Some (Err RangeError), after)
          end
        else
          (Some (Ok {| gotJob := gotJob; nextRun := None;
                       jobDescription := job_description |}), after)
    | (None, calls) => (None, before ++ [DraftCV calls])
    end.

End RunOnce.

(** ** The attempts of a run *)

(** The flags of the command line that [main] reads. *)
Record Argv : Type := {
  argv_job : option string;
  argv_once : bool;
  argv_daemon : bool;
}.

(** What the process does: an attempt, the call [setTimeout(loop, delay)],
    [process.exit(code)], or the end of [main] with nothing pending. *)
Inductive event : Type :=
| Attempted (attempt : Z)
| SetTimeout (delay : Z)
| Exited (code : Z)
| Ended.

(** How long the timer of [setTimeout(loop, delay)] runs, in ms: a delay
    below 1 or above 2^31 - 1 is set to 1. *)
Definition timerDuration (delay : Z) : Z :=
  if (1 <=? delay) && (delay <=? 2147483647) then delay else 1.

(** [a || b] on optional strings: [undefined] and the empty string are
    falsy. *)
Definition orString (a b : option string) : option string :=
  match a with
  | Some "" | None => b
  | Some _ => a
  end.

Section Main.

(** What the [attempt]-th call of [runOnce] resolves to, or the error it
    throws; and [Date.now()] when the wait after that attempt is
    computed. *)
Variable runOnceResult : Z → result Attempt.
Variable clock : Z → Z.

Variable argv : Argv.
Variable maxAttempts_ : Z.

(** The closure [loop] of [main], called at most [fuel] times; [attempt]
    is the counter before the call. The difference of the two times is
    rounded to a double, which a difference of two time values always
    has. *)
Fixpoint loop (fuel : nat) (attempt : Z) : list event :=
  match fuel with
  | O => []
  | S fuel' =>
      let attempt := attempt + 1 in
      Attempted attempt ::
      match runOnceResult attempt with
      | Ok res =>
          if gotJob res then [Exited 0]
          else if (attempt >=? maxAttempts_) || argv_once argv
                  || negb (argv_daemon argv)
          then [Exited 0]
          else
            let waitMs :=
              match nextRun res with
              | Some next =>
                  default (next - clock attempt)
                          (JS.roundToDouble (next - clock attempt))
              | None => 45 * 24 * 3600 * 1000
              end in
            let safeMs := Z.max waitMs 1000 in
            SetTimeout safeMs :: loop fuel' attempt
      | Err _ => [Exited 1]
      end
  end.

End Main.

(** [main], with the API key of the environment, the command line and
    [job.config.json] (its [job] apart from the fields of [JobCfg]); an
    error thrown anywhere ends in [process.exit(1)]. *)
Definition main (runOnceResult : Z → result Attempt) (clock : Z → Z)
    (apiKey : option string) (argv : Argv) (jobCfg : JobCfg)
    (cfgJob : option string) (fuel : nat) : list event :=
  match orString apiKey None with
  | None => [Exited 1]
  | Some _ =>
      match orString (argv_job argv) cfgJob with
      | None | Some "" => [Exited 1]
      | Some _ =>
          let maxAttempts := default 3 (maxAttempts jobCfg) in
          if argv_daemon argv || daemon jobCfg
          then loop runOnceResult clock argv maxAttempts fuel 0
          else
            Attempted 1 ::
            match runOnceResult 1 with
            | Ok _ => [Ended]
            | Err _ => [Exited 1]
            end
      end
  end.

(** ** Printing the suggestions *)

(** [String(n)] for an integer. *)
Definition numberToString (n : Z) : string := NilZero.string_of_int (Z.to_int n).

Definition newline : string := String "010" "".

(** [`${s.k}`]: an absent property prints as [undefined]. *)
Definition property (s : Suggestion) (k : string) : string :=
  default "undefined" (s !! k).

(** The line [printSuggestions] logs for the suggestion at index [i]. *)
Definition suggestionLine (i : nat) (s : Suggestion) : string :=
  let loc :=
    match s !! "location" with
    | Some l => if decide (l = "") then "" else " @ " +:+ l
    | None => ""
    end in
  numberToString (Z.of_nat i + 1) +:+ ". [" +:+ property s "type" +:+ "]" +:+ loc
    +:+ newline +:+ "   " +:+ property s "suggestion" +:+ newline.

(** The lines [printSuggestions] logs. *)
Definition printSuggestions (suggestions : list Suggestion) : list string :=
  (newline +:+ "Suggested edits:") :: imap suggestionLine suggestions.

(** A string of decimal digits. *)
Fixpoint allDigits (s : string) : bool :=
  match s with
  | String c s' => bool_decide (is_Some (Ascii.is_nat c)) && allDigits s'
  | "" => true
  end.

(** ** Notions the statements below use *)

(** The 1-based number [k] is named by one entry of a [d] argument: the
    entry is the number itself, or a range [a-b] that contains it. *)
Definition names (part : string) (k : Z) : Prop :=
  part ≠ "" ∧
  if JS.includes "-" part then
    ∃ a b others a' b',
      JS.parseInt <$> JS.splitChar "-" part = Some a :: Some b :: others
      ∧ JS.roundToDouble a = Some a' ∧ JS.roundToDouble b = Some b'
      ∧ Z.min a' b' ≤ k ≤ Z.max a' b'
  else JS.parseInt part = Some k.

(** The scoring call that rates the [i]-th past role: the calls for the
    skills and the achievements come first. *)
Definition roleCall (cvBaseData : CvBaseData) (i : nat) : nat :=
  (length (default [] (skills cvBaseData))
   + length (default [] (achievements cvBaseData)) + i)%nat.

(** The bound in force for a configured value: the value itself, or the
    fallback when the value is absent or zero. *)
Definition effective (configured : option Z) (fallback bound : Z) : Prop :=
  (configured = Some bound ∧ bound ≠ 0)
  ∨ ((configured = None ∨ configured = Some 0) ∧ bound = fallback).

(** An answer at the command prompt that is the command [cmd] with the
    argument [rest]. *)
Definition isCommand (answer cmd rest : string) : Prop :=
  JS.trim answer ≠ "" ∧ commandOf (JS.trim answer) = (cmd, rest).

(** [session lst answers lst']: from the command prompt with the live
    list [lst], the answers are delete and edit commands, each edit of a
    valid index followed by its replacement text, and they leave the loop at
    the command prompt with the live list [lst']. *)
Inductive session : list Suggestion → list string → list Suggestion → Prop :=
| session_done lst : session lst [] lst
| session_command lst answer rest out lst1 answers lst' :
    isCommand answer "d" rest ∨ isCommand answer "e" rest →
    step (Reviewing lst) answer = (Reviewing lst1, out) →
    session lst1 answers lst' →
    session lst (answer :: answers) lst'
| session_edit lst answer rest out lst0 idx item text out' lst1 answers lst' :
    isCommand answer "e" rest →
    step (Reviewing lst) answer = (Editing lst0 idx item, out) →
    step (Editing lst0 idx item) text = (Reviewing lst1, out') →
    session lst1 answers lst' →
    session lst (answer :: text :: answers) lst'.

(** An integer that is a double. *)
Definition isDouble (v : Z) : Prop := JS.roundToDouble v = Some v.

(** No range among the entries of a [d] argument reaches 2^53. *)
Definition smallRanges (inputStr : string) : Prop :=
  ∀ part a b others,
    part ∈ JS.splitCommas inputStr →
    JS.parseInt <$> JS.splitChar "-" part = Some a :: Some b :: others →
    - 2 ^ 53 < a < 2 ^ 53 ∧ - 2 ^ 53 < b < 2 ^ 53.

(** An entry of a [d] argument as the operator writes it: a number, or a
    range of two numbers. *)
Inductive entry : Type :=
| Single (n : Z)
| Range (a b : Z).

Definition entryText (e : entry) : string :=
  match e with
  | Single n => numberToString n
  | Range a b => numberToString a +:+ "-" +:+ numberToString b
  end.

(** The pieces with a comma between each two. *)
Fixpoint joinCommas (pieces : list string) : string :=
  match pieces with
  | [] => ""
  | [piece] => piece
  | piece :: pieces' => piece +:+ "," +:+ joinCommas pieces'
  end.

(** The argument that lists the entries [es]. *)
Definition entriesText (es : list entry) : string := joinCommas (entryText <$> es).

(** The numbers of an entry are written without a sign and are below
    2^53. *)
Definition wellFormed (e : entry) : Prop :=
  match e with
  | Single n => 0 ≤ n < 2 ^ 53
  | Range a b => 0 ≤ a < 2 ^ 53 ∧ 0 ≤ b < 2 ^ 53
  end.

(** The entry [e] is the number [k] or a range, written in either order,
    that contains it. *)
Definition covers (e : entry) (k : Z) : bool :=
  match e with
  | Single n => k =? n
  | Range a b => (Z.min a b <=? k) && (k <=? Z.max a b)
  end.

(** One of the entries covers [k]. *)
Definition selected (es : list entry) (k : Z) : bool :=
  existsb (λ e, covers e k) es.

(** A string without white space. *)
Fixpoint noSpace (s : string) : bool :=
  match s with
  | String c s' => negb (Ascii.is_space c) && noSpace s'
  | "" => true
  end.

(** A string without white space and without a comma. *)
Fixpoint plain (s : string) : bool :=
  match s with
  | String c s' => negb (Ascii.is_space c) && bool_decide (c ≠ ","%char) && plain s'
  | "" => true
  end.

(** Two suggestions that differ at most in their [suggestion] text. *)
Definition sameButText (a b : Suggestion) : Prop :=
  ∀ k, k ≠ "suggestion" → a !! k = b !! k.

(** [derived original lst]: [lst] is [original] with some elements left
    out and, in the others, at most the [suggestion] text changed; the
    order of the elements is kept. *)
Definition derived (original lst : list Suggestion) : Prop :=
  ∃ kept, kept `sublist_of` original ∧ Forall2 sameButText lst kept.

(** The invariant of the review loop with respect to the suggestions it
    was given: its list is derived from them, and a pending edit holds the
    element it is about to rewrite. *)
Definition stateDerived (original : list Suggestion) (st : state) : Prop :=
  match st with
  | Reviewing lst => derived original lst
  | Editing lst idx item => derived original lst ∧ lst !! idx = Some item
  | Returned approved => derived original approved
  | Looping lst => derived original lst
  end.

(** The attempts of a run and the delays it hands to [setTimeout], in
    order. *)
Definition attemptsOf (trace : list event) : list Z :=
  omap (λ e, match e with Attempted k => Some k | _ => None end) trace.

Definition sleepsOf (trace : list event) : list Z :=
  omap (λ e, match e with SetTimeout ms => Some ms | _ => None end) trace.

(** The event that ends the process. *)
Definition isFinal (e : event) : Prop := e = Ended ∨ e = Exited 0 ∨ e = Exited 1.

(** What the [e] branch makes of a suggestion and the operator's
    replacement text. *)
Definition retexted (s : Suggestion) (text : string) : Suggestion :=
  if decide (JS.trim text = "") then s else <["suggestion" := JS.trim text]> s.

(** ** Sample data *)

Module Sample.

Definition suggestion (type location text : string) : Suggestion :=
  {[ "type" := type; "location" := location; "suggestion" := text ]}.

Definition suggestions : list Suggestion :=
  [ suggestion "typo" "Summary" "Fix the spelling of 'managment'";
    suggestion "tone" "Skills" "Prefer active verbs";
    suggestion "other" "Heading" "Add a LinkedIn link" ].

Definition roles : list Role :=
  [ {[ "from" := "2021-06"; "to" := "2025-07";
       "jobTitle" := "Principal Product Manager, Public Sector";
       "description" := "Led multidisciplinary teams" ]};
    {[ "from" := "2018-01"; "to" := "2021-05";
       "jobTitle" := "Head of Data Products";
       "description" := "Built data platforms" ]} ].

Definition cvBaseData : CvBaseData :=
  {| personalDetails := JObject [("name", JString "YOUR NAME")];
     qualifications := JArray [];
     skills := Some ["Python for analysis and ETL"; "Node.js back-end services"];
     achievements := Some ["Mentored 3 junior developers"];
     pastJobRoles := Some roles |}.

(** A review session: delete the second suggestion (and a ninth that does
    not exist), then rewrite the first; and the live list it leaves. *)
Definition answers : list string := ["d 2,9"; "e 1"; "  Fix typos "].

Definition reviewed : list Suggestion :=
  [ suggestion "typo" "Summary" "Fix typos";
    suggestion "other" "Heading" "Add a LinkedIn link" ].

(** A collation that orders strings by their bytes. *)
Definition localeCompare (a b : string) : Z :=
  match String.compare a b with
  | Lt => -1
  | Eq => 0
  | Gt => 1
  end.

(** A scorer that rates every skill 7 and every role 5. *)
Definition assessSkill (n : nat) (text : string) : Z * string := (7, "relevant").
Definition assessRole (n : nat) (role : Role) : Z * string := (5, "somewhat relevant").

Definition composeCVMarkdown (cv : CV) : string := "# YOUR NAME".
Definition suggestCVImprovements (cvMarkdown : string) : option (list Suggestion) :=
  Some suggestions.
Definition noImprovements (cvMarkdown : string) : option (list Suggestion) := Some [].
Definition applyCVEdits (cvMarkdown : string) (approved : list Suggestion) : string :=
  "# YOUR NAME (edited)".

(** A reply of the service that is JSON but breaks [scoreSchema]: the
    score is 80. *)
Definition badScoreText : string :=
  "{" +:+ String Json.quote "score" +:+ String Json.quote ": 80, "
      +:+ String Json.quote "rationale" +:+ String Json.quote ": "
      +:+ String Json.quote "strong match" +:+ String Json.quote "}".

Definition badScore : json :=
  JObject [("score", JNumber 80 0); ("rationale", JString "strong match")].

Definition service (req : request) : result string := Ok badScoreText.

Definition jobCfg : JobCfg :=
  {| minReapplyDays := Some 14; maxReapplyDays := None;
     maxAttempts := Some 3; daemon := false |}.

Definition fetchJobDescription (job : string) : string := "Lead the data team.".
Definition applicationStillOpen (job : string) : bool := true.
Definition draftCoveringLetter (cvBaseData : CvBaseData) (notes job_description : string)
    : string := "Dear hiring manager".

(** Every attempt ends without the job, the next one due in 30 days. *)
Definition runOnceResult (attempt : Z) : result Attempt :=
  Ok {| gotJob := false; nextRun := Some (attempt * 1000 + 2592000000);
        jobDescription := "Lead the data team." |}.
Definition clock (attempt : Z) : Z := attempt * 1000.

(** The second attempt fails. *)
Definition runOnceFailing (attempt : Z) : result Attempt :=
  if decide (attempt = 2) then Err (TransportError "timeout") else runOnceResult attempt.
Definition argvDaemon : Argv :=
  {| argv_job := Some "Head of Data"; argv_once := false; argv_daemon := true |}.

End Sample.

(** * Properties *)

(** ** [Array.prototype.sort] *)

Section Sort.

Context {A : Type} (cmp : A → A → Z).

Lemma sortInsert_perm (x : A) (l : list A) : JS.sortInsert cmp x l ≡ₚ x :: l.
Proof.
  induction l as [|y l IH]; simpl; [done|].
  case_decide; [done|]. rewrite IH. apply Permutation_swap.
Qed.

Lemma sort_perm (l : list A) : JS.sort cmp l ≡ₚ l.
Proof.
  induction l as [|x l IH]; simpl; [done|].
  by rewrite sortInsert_perm, IH.
Qed.

Lemma sort_length (l : list A) : length (JS.sort cmp l) = length l.
Proof. by rewrite sort_perm. Qed.

Lemma elem_of_sort (x : A) (l : list A) : x ∈ JS.sort cmp l ↔ x ∈ l.
Proof. by rewrite sort_perm. Qed.

(** Inserting [x] moves it past none of the elements it ties with or
    beats, so a class of elements that [x] never follows keeps its order. *)
Lemma filter_sortInsert_in (P : A → Prop) `{!∀ y, Decision (P y)} x l :
  P x → (∀ y, P y → cmp x y ≤ 0) →
  filter P (JS.sortInsert cmp x l) = x :: filter P l.
Proof.
  intros Hx Hle. induction l as [|y l IH]; simpl.
  - by rewrite filter_cons_True.
  - case_decide as Hc.
    + by rewrite filter_cons_True.
    + rewrite (filter_cons_False _ y), (filter_cons_False _ y);
        [done| |]; intros Hy; apply Hc, Hle, Hy.
Qed.

Lemma filter_sortInsert_out (P : A → Prop) `{!∀ y, Decision (P y)} x l :
  ¬ P x → filter P (JS.sortInsert cmp x l) = filter P l.
Proof.
  intros Hx. induction l as [|y l IH]; simpl.
  - by rewrite filter_cons_False.
  - case_decide.
    + by rewrite filter_cons_False.
    + rewrite !(filter_cons _ y), IH. done.
Qed.

Hypothesis cmp_total : ∀ x y, cmp x y ≤ 0 ∨ cmp y x ≤ 0.
Hypothesis cmp_trans : ∀ x y z, cmp x y ≤ 0 → cmp y z ≤ 0 → cmp x z ≤ 0.

Lemma sortInsert_sorted x l :
  StronglySorted (λ a b, cmp a b ≤ 0) l →
  StronglySorted (λ a b, cmp a b ≤ 0) (JS.sortInsert cmp x l).
Proof.
  induction 1 as [|y l Hs IH Hy]; simpl.
  - repeat constructor.
  - case_decide as Hc.
    + constructor; [by constructor|].
      constructor; [done|]. eapply Forall_impl; [exact Hy|].
      intros z Hz. by eapply cmp_trans.
    + constructor; [done|].
      rewrite sortInsert_perm. constructor; [|done].
      destruct (cmp_total x y); [done|lia].
Qed.

Lemma sort_sorted l : StronglySorted (λ a b, cmp a b ≤ 0) (JS.sort cmp l).
Proof.
  induction l; simpl; [constructor|]. by apply sortInsert_sorted.
Qed.

End Sort.

(** ** Top-ten selection of skills and achievements *)

Lemma byScoreDesc_le (a b : ScoredItem) : byScoreDesc a b ≤ 0 ↔ score b ≤ score a.
Proof. unfold byScoreDesc. lia. Qed.

Lemma StronglySorted_weaken {A} (R1 R2 : A → A → Prop) (l : list A) :
  (∀ a b, R1 a b → R2 a b) → StronglySorted R1 l → StronglySorted R2 l.
Proof.
  intros HR. induction 1 as [|x l _ IH Hx]; constructor; [done|].
  eapply Forall_impl; [exact Hx|]. intros y. apply HR.
Qed.

Lemma sort_byScoreDesc_sorted (scored : list ScoredItem) :
  StronglySorted (λ a b, score b ≤ score a) (JS.sort byScoreDesc scored).
Proof.
  eapply StronglySorted_weaken; [|apply sort_sorted].
  - intros a b. apply byScoreDesc_le.
  - intros a b. unfold byScoreDesc. lia.
  - intros a b c. unfold byScoreDesc. lia.
Qed.

(** Items of one score come out of the sort in the order they went in. *)
Lemma sort_byScoreDesc_stable (v : Z) (scored : list ScoredItem) :
  filter (λ x, score x = v) (JS.sort byScoreDesc scored)
  = filter (λ x, score x = v) scored.
Proof.
  induction scored as [|x l IH]; simpl; [done|].
  destruct (decide (score x = v)) as [Hx|Hx].
  - rewrite filter_sortInsert_in, filter_cons_True, IH; [done..|].
    intros y Hy. unfold byScoreDesc. lia.
  - by rewrite filter_sortInsert_out, filter_cons_False, IH.
Qed.

Lemma StronglySorted_take {A} (R : A → A → Prop) (n : nat) (l : list A) :
  StronglySorted R l → StronglySorted R (take n l).
Proof.
  intros Hs. revert n. induction Hs as [|x l Hs IH Hx]; intros [|n]; simpl;
    try constructor; [apply IH|].
  eapply Forall_forall. intros y Hy. eapply Forall_forall; [exact Hx|].
  by eapply subseteq_take.
Qed.

Lemma StronglySorted_take_drop {A} (R : A → A → Prop) (n : nat) (l : list A) a b :
  StronglySorted R l → a ∈ take n l → b ∈ drop n l → R a b.
Proof.
  intros Hs. rewrite <-(take_drop n l) in Hs.
  eapply StronglySorted_app_1_elem_of; eauto.
Qed.

Lemma filter_take_prefix {A} (P : A → Prop) `{!∀ y, Decision (P y)} n (l : list A) :
  filter P (take n l) `prefix_of` filter P l.
Proof.
  rewrite <-(take_drop n l) at 2. rewrite filter_app. by apply prefix_app_r.
Qed.

(** C3. Of the scored skills (and likewise the scored achievements)
    [draftCV] keeps the first ten of a sort by score: at most ten items,
    all taken from the scored list, in descending order of score, none of
    them scoring less than an item left out, and among items of one score
    the order of the input is kept. The [skills] and [achievements] of the
    CV are the texts of these selections. *)
Theorem topTen_stable_selection :
  (∀ scored : list ScoredItem,
     length (topTen scored) = (10 `min` length scored)%nat
     ∧ topTen scored ⊆+ scored
     ∧ StronglySorted (λ a b, score b ≤ score a) (topTen scored)
     ∧ (∀ a b, a ∈ topTen scored → b ∈ drop 10 (JS.sort byScoreDesc scored) →
               score b ≤ score a)
     ∧ (∀ v, filter (λ x, score x = v) (topTen scored)
             `prefix_of` filter (λ x, score x = v) scored))
  ∧ (∀ localeCompare assessSkill assessRole cvBaseData,
       cv_skills (tailoredCV localeCompare assessSkill assessRole cvBaseData)
       = item <$> topTen (withRelevance assessSkill 0 (default [] (skills cvBaseData)))
       ∧ ∃ n,
         cv_achievements (tailoredCV localeCompare assessSkill assessRole cvBaseData)
         = item <$> topTen (withRelevance assessSkill n
                              (default [] (achievements cvBaseData)))).
Proof.
  split.
  - intros scored. unfold topTen. repeat split.
    + by rewrite length_take, sort_length.
    + etrans; [apply sublist_submseteq, sublist_take|].
      by rewrite sort_perm.
    + apply StronglySorted_take, sort_byScoreDesc_sorted.
    + intros a b Ha Hb.
      exact (StronglySorted_take_drop _ _ _ _ _ (sort_byScoreDesc_sorted scored) Ha Hb).
    + intros v. rewrite <-(sort_byScoreDesc_stable v scored).
      apply filter_take_prefix.
  - intros. split; [done|]. by eexists.
Qed.

(** ** Past roles *)

Section Roles.

Context (localeCompare : string → string → Z).
Context (assessSkill : nat → string → Z * string).
Context (assessRole : nat → Role → Z * string).
Context (composeCVMarkdown : CV → string).
Context (suggestCVImprovements : string → option (list Suggestion)).
Context (applyCVEdits : string → list Suggestion → string).

Lemma rolesToInclude_lookup (n i : nat) (roles : list Role) (role : Role) :
  roles !! i = Some role →
  rolesToInclude assessRole n roles !! i
  = Some (includeRole role (assessRole (n + i)%nat role).1).
Proof.
  revert n i. induction roles as [|r roles IH]; intros n [|i] Hi; simplify_eq/=.
  - rewrite Nat.add_0_r. by destruct (assessRole n role).
  - destruct (assessRole n r). simpl. rewrite (IH (S n) i Hi).
    by replace (S n + i)%nat with (n + S i)%nat by lia.
Qed.

Lemma rolesToInclude_length (n : nat) (roles : list Role) :
  length (rolesToInclude assessRole n roles) = length roles.
Proof.
  revert n. induction roles as [|r roles IH]; intros n; simpl; [done|].
  destruct (assessRole n r). simpl. by rewrite IH.
Qed.

Lemma includeRole_other (role : Role) (s : Z) (k : string) :
  k ≠ "description" → includeRole role s !! k = role !! k.
Proof.
  intros Hk. unfold includeRole. destruct (s <? 80); [|done].
  by rewrite lookup_delete_ne.
Qed.

Lemma includeRole_low (role : Role) (s : Z) :
  s < 80 → includeRole role s = delete "description" role.
Proof. intros Hs. unfold includeRole. by rewrite (proj2 (Z.ltb_lt _ _) Hs). Qed.

Lemma includeRole_high (role : Role) (s : Z) : ¬ s < 80 → includeRole role s = role.
Proof.
  intros Hs. unfold includeRole. destruct (Z.ltb_spec s 80); [lia|done].
Qed.

Lemma draftCV_composes (cvBaseData : CvBaseData) (answers : list string) :
  ∃ polished calls,
    draftCV localeCompare assessSkill assessRole composeCVMarkdown
            suggestCVImprovements applyCVEdits cvBaseData answers
    = (polished,
       ComposeCV (tailoredCV localeCompare assessSkill assessRole cvBaseData) :: calls).
Proof.
  unfold draftCV. destruct (polishCV _ _ _ _) as [polished calls]. by eexists _, _.
Qed.

Lemma included_role_in_cv (cvBaseData : CvBaseData) roles i role :
  pastJobRoles cvBaseData = Some roles → roles !! i = Some role →
  let cv := tailoredCV localeCompare assessSkill assessRole cvBaseData in
  includeRole role (assessRole (roleCall cvBaseData i) role).1 ∈ cv_pastJobRoles cv
  ∧ length (cv_pastJobRoles cv) = length roles.
Proof.
  intros Hroles Hi. simpl. rewrite Hroles. simpl. split.
  - apply elem_of_sort. eapply list_elem_of_lookup_2.
    by apply rolesToInclude_lookup.
  - by rewrite sort_length, rolesToInclude_length.
Qed.

(** C2. A past role whose score is below the threshold 80 reaches the
    Document Composer without its [description]; a role whose score is not
    below it keeps the description as it was; every other field of the role
    is kept in both cases. The CV that [draftCV] composes lists exactly the
    roles so treated, one per role of the profile. *)
Theorem role_description_redaction (cvBaseData : CvBaseData) (answers : list string)
    (roles : list Role) (i : nat) (role : Role) (s : Z) (why : string) :
  pastJobRoles cvBaseData = Some roles →
  roles !! i = Some role →
  assessRole (roleCall cvBaseData i) role = (s, why) →
  let cv := tailoredCV localeCompare assessSkill assessRole cvBaseData in
  (∃ polished calls,
     draftCV localeCompare assessSkill assessRole composeCVMarkdown
             suggestCVImprovements applyCVEdits cvBaseData answers
     = (polished, ComposeCV cv :: calls))
  ∧ cv_pastJobRoles cv ≡ₚ rolesToInclude assessRole (roleCall cvBaseData 0) roles
  ∧ includeRole role s ∈ cv_pastJobRoles cv
  ∧ (s < 80 → includeRole role s !! "description" = None)
  ∧ (¬ s < 80 → includeRole role s !! "description" = role !! "description")
  ∧ (∀ k, k ≠ "description" → includeRole role s !! k = role !! k).
Proof.
  intros Hroles Hi Hs cv. split; [apply draftCV_composes|]. split; [|split].
  - subst cv. simpl. rewrite Hroles. simpl. unfold roleCall.
    rewrite Nat.add_0_r. apply sort_perm.
  - pose proof (included_role_in_cv cvBaseData roles i role Hroles Hi) as [H _].
    by rewrite Hs in H.
  - split; [|split].
    + intros Hlow. rewrite includeRole_low by done. apply lookup_delete_eq.
    + intros Hhigh. by rewrite includeRole_high.
    + intros k. apply includeRole_other.
Qed.

(** C1 (as the code has it). The threshold 80 is compared against scores
    of the 1-10 scale, so the branch that omits the description is taken
    for every such score: a past role whose score is an integer in [1,10]
    reaches the Document Composer with its [description] removed and its
    other fields kept. *)
Theorem low_scale_roles_lose_description (cvBaseData : CvBaseData)
    (answers : list string) (roles : list Role) (i : nat) (role : Role)
    (s : Z) (why : string) :
  pastJobRoles cvBaseData = Some roles →
  roles !! i = Some role →
  assessRole (roleCall cvBaseData i) role = (s, why) →
  1 ≤ s ≤ 10 →
  let cv := tailoredCV localeCompare assessSkill assessRole cvBaseData in
  (∃ polished calls,
     draftCV localeCompare assessSkill assessRole composeCVMarkdown
             suggestCVImprovements applyCVEdits cvBaseData answers
     = (polished, ComposeCV cv :: calls))
  ∧ delete "description" role ∈ cv_pastJobRoles cv
  ∧ includeRole role s = delete "description" role
  ∧ includeRole role s !! "description" = None.
Proof.
  intros Hroles Hi Hs Hscale cv. split; [apply draftCV_composes|].
  assert (includeRole role s = delete "description" role) as Heq
    by (apply includeRole_low; lia).
  pose proof (included_role_in_cv cvBaseData roles i role Hroles Hi) as [H _].
  rewrite Hs in H. simpl in H. rewrite Heq in H.
  repeat split; [done..|]. rewrite Heq. apply lookup_delete_eq.
Qed.

End Roles.

(** The profile of [Sample]: both past roles have a description and are
    scored 5, and both reach the Document Composer without it. *)
Lemma sample_roles_lose_description :
  let cv := tailoredCV Sample.localeCompare Sample.assessSkill Sample.assessRole
                       Sample.cvBaseData in
  Forall (λ role, is_Some (role !! "description")) Sample.roles
  ∧ Forall (λ role, (Sample.assessRole 0 role).1 = 5 ∧ 1 ≤ 5 ≤ 10) Sample.roles
  ∧ length (cv_pastJobRoles cv) = 2%nat
  ∧ Forall (λ role, role !! "description" = None) (cv_pastJobRoles cv)
  ∧ (draftCV Sample.localeCompare Sample.assessSkill Sample.assessRole
             Sample.composeCVMarkdown Sample.noImprovements Sample.applyCVEdits
             Sample.cvBaseData []).2
    = [ComposeCV cv; SuggestImprovements "# YOUR NAME"].
Proof.
  simpl. split; [|split; [|split; [|split]]].
  - apply (bool_decide_unpack _). vm_compute. reflexivity.
  - apply (bool_decide_unpack _). vm_compute. reflexivity.
  - vm_compute. reflexivity.
  - apply (bool_decide_unpack _). vm_compute. reflexivity.
  - reflexivity.
Qed.

Lemma role_description_redaction_witness :
  includeRole (default ∅ (Sample.roles !! 1%nat)) 5 !! "description" = None.
Proof.
  refine (proj1 (proj2 (proj2 (proj2
    (role_description_redaction Sample.localeCompare Sample.assessSkill
       Sample.assessRole Sample.composeCVMarkdown Sample.suggestCVImprovements
       Sample.applyCVEdits Sample.cvBaseData [] Sample.roles 1
       (default ∅ (Sample.roles !! 1%nat)) 5 "somewhat relevant" _ _ _)))) _);
    [reflexivity | reflexivity | reflexivity | lia].
Defined.

Lemma low_scale_roles_lose_description_witness :
  delete "description" (default ∅ (Sample.roles !! 0%nat))
  ∈ cv_pastJobRoles (tailoredCV Sample.localeCompare Sample.assessSkill
                                Sample.assessRole Sample.cvBaseData).
Proof.
  refine (proj1 (proj2
    (low_scale_roles_lose_description Sample.localeCompare Sample.assessSkill
       Sample.assessRole Sample.composeCVMarkdown Sample.suggestCVImprovements
       Sample.applyCVEdits Sample.cvBaseData [] Sample.roles 0
       (default ∅ (Sample.roles !! 0%nat)) 5 "somewhat relevant" _ _ _ _)));
    [reflexivity | reflexivity | reflexivity | lia].
Defined.

(** ** The review loop *)

Lemma run_app (st : state) (answers more : list string) :
  run st (answers ++ more)
  = let '(st1, out1) := run st answers in
    let '(st2, out2) := run st1 more in
    (st2, out1 ++ out2).
Proof.
  revert st. induction answers as [|a answers IH]; intros st; simpl.
  - by destruct (run st more).
  - destruct (step st a) as [st1 o1]. rewrite IH.
    destruct (run st1 answers) as [st2 o2]. destruct (run st2 more) as [st3 o3].
    by rewrite (assoc_L (++)).
Qed.

Lemma review_unfold (suggestions : list Suggestion) (answers : list string) :
  reviewSuggestionsInteractively suggestions answers
  = let '(st, out) := run (Reviewing suggestions) answers in
    (st, [PrintSuggestions suggestions; Log commandsHelp] ++ out).
Proof.
  unfold reviewSuggestionsInteractively, prompt. by rewrite list_fmap_id.
Qed.

(** More answers continue the loop from where the earlier ones left it. *)
Lemma review_app suggestions answers more st out :
  reviewSuggestionsInteractively suggestions answers = (st, out) →
  reviewSuggestionsInteractively suggestions (answers ++ more)
  = let '(st', out') := run st more in (st', out ++ out').
Proof.
  rewrite !review_unfold, run_app.
  destruct (run (Reviewing suggestions) answers) as [st1 o1].
  intros [= <- <-]. destruct (run st1 more) as [st2 o2].
  by rewrite (assoc_L (++)).
Qed.

Lemma session_run lst answers lst' :
  session lst answers lst' → ∃ out, run (Reviewing lst) answers = (Reviewing lst', out).
Proof.
  induction 1 as [lst|lst a rest o lst1 answers lst' _ Hstep _ [o' IH]
                 |lst a rest o lst0 idx it text o' lst1 answers lst' _ H1 H2 _ [o'' IH]].
  - by eexists.
  - cbn [run]. rewrite Hstep, IH. by eexists.
  - cbn [run]. rewrite H1, H2, IH. by eexists.
Qed.

Lemma session_review suggestions answers lst' :
  session suggestions answers lst' →
  ∃ out, reviewSuggestionsInteractively suggestions answers = (Reviewing lst', out).
Proof.
  intros [out H]%session_run. rewrite review_unfold, H. by eexists.
Qed.

Lemma command_q lst answer rest :
  isCommand answer "q" rest → command lst answer = finish [].
Proof.
  intros [Hne Hcmd]. unfold command. rewrite decide_False by done. by rewrite Hcmd.
Qed.

Lemma command_c lst answer rest :
  isCommand answer "c" rest → command lst answer = finish lst.
Proof.
  intros [Hne Hcmd]. unfold command. rewrite decide_False by done. by rewrite Hcmd.
Qed.

Lemma command_d_all lst answer :
  isCommand answer "d" "a" → command lst answer = prompt [] [].
Proof.
  intros [Hne Hcmd]. unfold command. rewrite decide_False by done. by rewrite Hcmd.
Qed.

Lemma command_d lst answer rest :
  isCommand answer "d" rest → rest ≠ "a" →
  command lst answer
  = match parseIndexList rest (Z.of_nat (length lst)) with
    | Some idxs =>
        if decide (idxs = []) then prompt [Log "No valid indices."] lst
        else prompt [] (filterIndex (λ i, negb (includesIndex idxs i)) 0 lst)
    | None => (Looping lst, [])
    end.
Proof.
  intros [Hne Hcmd] Hrest. unfold command. rewrite decide_False by done.
  rewrite Hcmd. simpl. by rewrite (decide_False (P := rest = "a")) by done.
Qed.

Lemma command_e lst answer rest :
  isCommand answer "e" rest →
  command lst answer
  = match (λ n, n - 1) <$> JS.parseInt rest with
    | Some idx =>
        if (idx <? 0) || (idx >=? Z.of_nat (length lst))
        then prompt [Log "Out of range."] lst
        else
          let item := default ∅ (lst !! Z.to_nat idx) in
          (Editing lst (Z.to_nat idx) item,
           [LogEditing (idx + 1) (item !! "suggestion")])
    | None => prompt [Log "Out of range."] lst
    end.
Proof.
  intros [Hne Hcmd]. unfold command. rewrite decide_False by done. by rewrite Hcmd.
Qed.

(** At the command prompt [q] ends the review with nothing approved. *)
Lemma quit_at_prompt suggestions answers lst out answer rest :
  reviewSuggestionsInteractively suggestions answers = (Reviewing lst, out) →
  isCommand answer "q" rest →
  reviewSuggestionsInteractively suggestions (answers ++ [answer])
  = (Returned [], out ++ [CloseReadline])
  ∧ approvedList suggestions (answers ++ [answer]) = Some [].
Proof.
  intros Hrev Hq. unfold approvedList.
  rewrite (review_app _ _ [answer] _ _ Hrev). cbn [run step].
  by rewrite (command_q _ _ _ Hq).
Qed.

(** C4. After any sequence of delete and edit commands, whatever they
    removed or rewrote, the command [q] makes
    [reviewSuggestionsInteractively] return the empty list. *)
Theorem quit_returns_nothing (suggestions lst' : list Suggestion)
    (answers : list string) (answer rest : string) :
  session suggestions answers lst' →
  isCommand answer "q" rest →
  approvedList suggestions (answers ++ [answer]) = Some []
  ∧ ∃ out, reviewSuggestionsInteractively suggestions (answers ++ [answer])
           = (Returned [], out).
Proof.
  intros [out Hrev]%session_review Hq.
  destruct (quit_at_prompt _ _ _ _ _ _ Hrev Hq) as [H1 H2]. split; [done|].
  by eexists.
Qed.

(** ** [parseIndexList] *)

Lemma elem_of_setAdd (x y : Z) (set : list Z) : x ∈ JS.setAdd y set ↔ x ∈ set ∨ x = y.
Proof.
  unfold JS.setAdd. case_decide as Hy.
  - split; [auto|]. intros [?| ->]; done.
  - rewrite elem_of_app, list_elem_of_singleton. done.
Qed.

Lemma elem_of_addRange_list (max : Z) (l : list Z) (set : list Z) (x : Z) :
  x ∈ foldl (λ set i, if (1 <=? i) && (i <=? max) then JS.setAdd (i - 1) set else set)
            set l
  ↔ x ∈ set ∨ (x + 1 ∈ l ∧ 1 ≤ x + 1 ≤ max).
Proof.
  revert set. induction l as [|i l IH]; intros set; simpl.
  - rewrite elem_of_nil. tauto.
  - rewrite IH, elem_of_cons. clear IH.
    destruct (Z.leb_spec 1 i), (Z.leb_spec i max); simpl;
      rewrite ?elem_of_setAdd; intuition (subst; try lia; auto).
Qed.

Lemma elem_of_addRange (max start end_ : Z) (set : list Z) (x : Z) :
  x ∈ addRange max start end_ set
  ↔ x ∈ set ∨ (start ≤ x + 1 ≤ end_ ∧ 1 ≤ x + 1 ≤ max).
Proof.
  unfold addRange. rewrite elem_of_addRange_list, elem_of_seqZ.
  intuition lia.
Qed.

Lemma elem_of_forRange (max start end_ : Z) (set set' : list Z) (x : Z) :
  forRange max start end_ set = Some set' →
  x ∈ set' ↔ x ∈ set ∨ (start ≤ x + 1 ≤ end_ ∧ 1 ≤ x + 1 ≤ max).
Proof.
  unfold forRange. destruct (Z.ltb_spec end_ (2 ^ 53)).
  { intros [= <-]. apply elem_of_addRange. }
  case_bool_decide as Heq; simpl; [|done]. subst start.
  destruct (end_ <? 2 ^ 54); simpl; [|done].
  destruct (Z.odd _); [|done]. intros [= <-].
  destruct (Z.leb_spec 1 end_), (Z.leb_spec end_ max); simpl;
    rewrite ?elem_of_setAdd; intuition lia.
Qed.

Lemma elem_of_addPart (max : Z) (set set' : list Z) (part : string) (x : Z) :
  addPart max set part = Some set' →
  x ∈ set' ↔ x ∈ set ∨ (names part (x + 1) ∧ 1 ≤ x + 1 ≤ max).
Proof.
  unfold addPart, names. case_decide as Hpart.
  { intros [= <-]. split; [auto|]. intros [?|[[? _] _]]; done. }
  destruct (JS.includes "-" part).
  - destruct (JS.parseInt <$> JS.splitChar "-" part) as [|[a|] [|[b|] others]] eqn:E.
    all: try (intros [= <-]; split; [auto|];
              intros [?|[(_ & ? & ? & ? & ? & ? & ? & _) _]]; done).
    destruct (JS.roundToDouble a) as [a'|] eqn:Ea, (JS.roundToDouble b) as [b'|] eqn:Eb.
    2-4: intros [= <-]; split; [auto|];
         intros [?|[(_ & ? & ? & ? & ? & ? & [= <- <- <-] & ? & ? & _) _]];
         [done|congruence..].
    intros Hfor. rewrite (elem_of_forRange _ _ _ _ _ _ Hfor). split.
    + intros [?|[? ?]]; [auto|]. right. split; [|done]. split; [done|].
      by exists a, b, others, a', b'.
    + intros [?|[(_ & ? & ? & ? & ? & ? & [= <- <- <-] & Ha & Hb & ?) ?]]; [auto|].
      right. rewrite Ea in Ha. rewrite Eb in Hb.
      injection Ha as <-. injection Hb as <-. done.
  - destruct (JS.parseInt part) as [n|] eqn:E; intros [= <-].
    + destruct (Z.leb_spec 1 n), (Z.leb_spec n max); simpl.
      2-4: split; [auto|]; intros [?|[[_ [= <-]] ?]]; [done|lia].
      rewrite elem_of_setAdd. split.
      * intros [?| ->]; [auto|]. right. split; [split; [done|f_equal; lia]|lia].
      * intros [?|[[_ [= Hn]] ?]]; [auto|]. right. lia.
    + split; [auto|]. intros [?|[[_ ?] _]]; done.
Qed.

Lemma foldl_addPart_None (max : Z) (parts : list string) :
  foldl (λ set part, set ≫= λ added, addPart max added part) None parts = None.
Proof. by induction parts. Qed.

Lemma elem_of_foldl_addPart (max : Z) (parts : list string) (set set' : list Z) (x : Z) :
  foldl (λ set part, set ≫= λ added, addPart max added part) (Some set) parts
  = Some set' →
  x ∈ set' ↔ x ∈ set ∨ ∃ part, part ∈ parts ∧ names part (x + 1) ∧ 1 ≤ x + 1 ≤ max.
Proof.
  revert set. induction parts as [|p parts IH]; intros set; simpl.
  - intros [= <-]. split; [auto|]. intros [?|(? & []%elem_of_nil & _)]. done.
  - destruct (addPart max set p) as [set1|] eqn:E;
      [|by rewrite foldl_addPart_None].
    intros Hfold. rewrite (IH _ Hfold), (elem_of_addPart _ _ _ _ _ E). split.
    + intros [[?|[? ?]]|(part & ? & ?)]; [auto| |].
      * right. exists p. split; [left|done].
      * right. exists part. split; [by right|done].
    + intros [?|(part & [->|?]%elem_of_cons & ?)]; [auto..|].
      right. by exists part.
Qed.

(** What [parseIndexList] returns is the sorted list of what its loop
    over the parts collected. *)
Lemma parseIndexList_Some (inputStr : string) (max : Z) (idxs : list Z) :
  parseIndexList inputStr max = Some idxs →
  ∃ set,
    foldl (λ set part, set ≫= λ added, addPart max added part)
          (Some []) (JS.splitCommas inputStr) = Some set
    ∧ idxs = JS.sort (λ a b, a - b) set.
Proof.
  unfold parseIndexList. intros Hsome.
  destruct (foldl _ _ _) as [set|]; [|done]. injection Hsome as <-. by exists set.
Qed.

(** The indices [parseIndexList] returns are the 0-based positions, within
    the bounds, that an entry of the argument names; nothing else. *)
Lemma elem_of_parseIndexList (inputStr : string) (max : Z) (idxs : list Z) (x : Z) :
  parseIndexList inputStr max = Some idxs →
  x ∈ idxs
  ↔ 0 ≤ x < max ∧ ∃ part, part ∈ JS.splitCommas inputStr ∧ names part (x + 1).
Proof.
  intros (set & Hfold & ->)%parseIndexList_Some.
  rewrite elem_of_sort, (elem_of_foldl_addPart _ _ _ _ _ Hfold), elem_of_nil.
  split.
  - intros [[]|(part & ? & ? & ?)]. split; [lia|]. by exists part.
  - intros [? (part & ? & ?)]. right. exists part. split; [done|]. split; [done|lia].
Qed.

Lemma filterIndex_zip {A} (p : Z → bool) (i : Z) (l : list A) :
  filterIndex p i l
  = snd <$> filter (λ ix, p ix.1 = true) (zip (seqZ i (Z.of_nat (length l))) l).
Proof.
  revert i. induction l as [|x l IH]; intros i; [done|].
  rewrite seqZ_cons by (simpl; lia). cbn [filterIndex zip zip_with].
  replace (Z.pred (Z.of_nat (length (x :: l)))) with (Z.of_nat (length l))
    by (simpl; lia).
  rewrite filter_cons. simpl. rewrite (IH (i + 1)).
  replace (Z.succ i) with (i + 1) by lia.
  destruct (p i); by case_decide.
Qed.

Lemma filterIndex_all {A} (p : Z → bool) (i : Z) (l : list A) :
  (∀ j, i ≤ j < i + Z.of_nat (length l) → p j = true) → filterIndex p i l = l.
Proof.
  revert i. induction l as [|x l IH]; intros i Hp; simpl; [done|].
  rewrite Hp by (simpl; lia). f_equal. apply IH. intros j Hj. apply Hp. simpl. lia.
Qed.

Lemma filterIndex_none {A} (p : Z → bool) (i : Z) (l : list A) :
  (∀ j, i ≤ j < i + Z.of_nat (length l) → p j = false) → filterIndex p i l = [].
Proof.
  revert i. induction l as [|x l IH]; intros i Hp; simpl; [done|].
  rewrite Hp by (simpl; lia). apply IH. intros j Hj. apply Hp. simpl. lia.
Qed.

(** ** Deleting *)

Lemma filterIndex_not_included {A} (idxs : list Z) (l : list A) :
  filterIndex (λ i, negb (includesIndex idxs i)) 0 l
  = snd <$> filter (λ ix, ix.1 ∉ idxs) (zip (seqZ 0 (Z.of_nat (length l))) l).
Proof.
  rewrite filterIndex_zip. f_equal. apply list_filter_iff. intros [i x]. simpl.
  unfold includesIndex. by rewrite negb_true_iff, bool_decide_eq_false.
Qed.

Lemma filterIndex_no_index {A} (l : list A) :
  filterIndex (λ i, negb (includesIndex [] i)) 0 l = l.
Proof. by apply filterIndex_all. Qed.

(** What a [d] command other than [d a] does to the live list when
    [parseIndexList] returns. *)
Lemma delete_step lst answer rest idxs :
  isCommand answer "d" rest → rest ≠ "a" →
  parseIndexList rest (Z.of_nat (length lst)) = Some idxs →
  ∃ out,
    step (Reviewing lst) answer
    = (Reviewing (filterIndex (λ i, negb (includesIndex idxs i)) 0 lst), out)
    ∧ (idxs = [] → Log "No valid indices." ∈ out).
Proof.
  intros Hd Hrest Hidxs. cbn [step]. rewrite (command_d _ _ _ Hd Hrest), Hidxs.
  case_decide as Hnil.
  - rewrite Hnil, filterIndex_no_index. eexists. split; [done|].
    intros _. set_solver.
  - eexists. split; [done|]. done.
Qed.

(** And when it does not. *)
Lemma delete_loops lst answer rest :
  isCommand answer "d" rest → rest ≠ "a" →
  parseIndexList rest (Z.of_nat (length lst)) = None →
  step (Reviewing lst) answer = (Looping lst, []).
Proof.
  intros Hd Hrest Hnone. cbn [step]. by rewrite (command_d _ _ _ Hd Hrest), Hnone.
Qed.

(** ** Ending the review *)

(** At the command prompt, emptying the live list and then [c] ends the
    review with nothing approved. *)
Lemma empty_then_continue suggestions answers lst out d rest c crest :
  reviewSuggestionsInteractively suggestions answers = (Reviewing lst, out) →
  isCommand d "d" rest →
  (rest = "a"
   ∨ ∃ idxs, parseIndexList rest (Z.of_nat (length lst)) = Some idxs
             ∧ ∀ i, 0 ≤ i < Z.of_nat (length lst) → i ∈ idxs) →
  isCommand c "c" crest →
  approvedList suggestions (answers ++ [d; c]) = Some [].
Proof.
  intros Hrev Hd Hall Hc. unfold approvedList.
  rewrite (review_app _ _ [d; c] _ _ Hrev). cbn [run].
  assert (∃ o, step (Reviewing lst) d = (Reviewing [], o)) as [o ->].
  { destruct (decide (rest = "a")) as [->|Hrest].
    - cbn [step]. rewrite (command_d_all _ _ Hd). by eexists.
    - destruct Hall as [?|(idxs & Hidxs & Hall)]; [done|].
      destruct (delete_step lst d rest idxs Hd Hrest Hidxs) as (o & -> & _).
      rewrite filterIndex_none; [by eexists|].
      intros j Hj. unfold includesIndex.
      rewrite negb_false_iff, bool_decide_eq_true. apply Hall. lia. }
  cbn [step]. by rewrite (command_c _ _ _ Hc).
Qed.

Section Polish.

Context (suggestCVImprovements : string → option (list Suggestion)).
Context (applyCVEdits : string → list Suggestion → string).

(** With nothing approved [polishCV] returns the document it was given and
    does not call the Edit Applier. *)
Lemma polishCV_nothing_approved cvMarkdown suggestions answers :
  suggestCVImprovements cvMarkdown = Some suggestions →
  suggestions ≠ [] →
  approvedList suggestions answers = Some [] →
  polishCV suggestCVImprovements applyCVEdits cvMarkdown answers
  = (Some cvMarkdown, [SuggestImprovements cvMarkdown; Review suggestions]).
Proof.
  intros Hs Hne Ha. unfold polishCV. rewrite Hs, Ha.
  rewrite decide_False; [done|]. by destruct suggestions.
Qed.

(** C5. After any sequence of delete and edit commands, deleting all
    suggestions (by [d a], or by a [d] for which [parseIndexList] returns
    every index of the live list) and then
    [c] gives what [q] gives: the review returns the empty list, and
    [polishCV] returns the original document after the calls to the
    Suggestion Engine and the review alone, the Edit Applier not being
    called. *)
Theorem delete_all_then_continue_is_quit (cvMarkdown : string)
    (suggestions lst' : list Suggestion) (answers : list string)
    (d rest c crest q qrest : string) :
  suggestCVImprovements cvMarkdown = Some suggestions →
  suggestions ≠ [] →
  session suggestions answers lst' →
  isCommand d "d" rest →
  (rest = "a"
   ∨ ∃ idxs, parseIndexList rest (Z.of_nat (length lst')) = Some idxs
             ∧ ∀ i, 0 ≤ i < Z.of_nat (length lst') → i ∈ idxs) →
  isCommand c "c" crest →
  isCommand q "q" qrest →
  approvedList suggestions (answers ++ [d; c]) = Some []
  ∧ approvedList suggestions (answers ++ [q]) = Some []
  ∧ polishCV suggestCVImprovements applyCVEdits cvMarkdown (answers ++ [d; c])
    = (Some cvMarkdown, [SuggestImprovements cvMarkdown; Review suggestions])
  ∧ polishCV suggestCVImprovements applyCVEdits cvMarkdown (answers ++ [q])
    = (Some cvMarkdown, [SuggestImprovements cvMarkdown; Review suggestions]).
Proof.
  intros Hs Hne [out Hrev]%session_review Hd Hall Hc Hq.
  pose proof (empty_then_continue _ _ _ _ _ _ _ _ Hrev Hd Hall Hc) as H1.
  destruct (quit_at_prompt _ _ _ _ _ _ Hrev Hq) as [_ H2].
  repeat split; [done..| |]; by apply polishCV_nothing_approved.
Qed.

(** C7. When the Suggestion Engine returns an empty list, [polishCV]
    returns the CV Markdown it was given, whatever the operator would
    answer, having called neither the review loop nor the Edit Applier. *)
Theorem no_suggestions_short_circuit (cvMarkdown : string) (answers : list string) :
  suggestCVImprovements cvMarkdown = Some [] →
  polishCV suggestCVImprovements applyCVEdits cvMarkdown answers
  = (Some cvMarkdown, [SuggestImprovements cvMarkdown]).
Proof. intros Hs. unfold polishCV. by rewrite Hs. Qed.

End Polish.

(** ** Editing *)

Lemma replace_frame (item : Suggestion) (text : string) (k : string) :
  k ≠ "suggestion" →
  (if decide (JS.trim text = "") then item
   else <["suggestion" := JS.trim text]> item) !! k = item !! k.
Proof. intros Hk. case_decide; [done|]. by rewrite lookup_insert_ne. Qed.


(** ** The sample session *)

Lemma sample_isCommand_d : isCommand "d 2,9" "d" "2,9".
Proof. split; [by vm_compute|reflexivity]. Qed.

Lemma sample_isCommand_e : isCommand "e 1" "e" "1".
Proof. split; [by vm_compute|reflexivity]. Qed.

Lemma sample_isCommand_q : isCommand "q" "q" "".
Proof. split; [by vm_compute|reflexivity]. Qed.

Lemma sample_isCommand_c : isCommand " c " "c" "".
Proof. split; [by vm_compute|reflexivity]. Qed.

Lemma sample_isCommand_d_all : isCommand "d a" "d" "a".
Proof. split; [by vm_compute|reflexivity]. Qed.

Lemma sample_session : session Sample.suggestions Sample.answers Sample.reviewed.
Proof.
  unfold Sample.answers.
  eapply session_command; [left; exact sample_isCommand_d|vm_compute; reflexivity|].
  eapply session_edit; [exact sample_isCommand_e|vm_compute; reflexivity| |].
  - vm_compute. reflexivity.
  - apply session_done.
Qed.

Lemma quit_returns_nothing_witness :
  approvedList Sample.suggestions (Sample.answers ++ ["q"]) = Some [].
Proof.
  exact (proj1 (quit_returns_nothing Sample.suggestions Sample.reviewed
                  Sample.answers "q" "" sample_session sample_isCommand_q)).
Defined.

Lemma sample_every_index :
  ∃ idxs, parseIndexList "1-2" (Z.of_nat (length Sample.reviewed)) = Some idxs
          ∧ ∀ i, 0 ≤ i < Z.of_nat (length Sample.reviewed) → i ∈ idxs.
Proof.
  exists [0; 1]. split; [by vm_compute|]. intros i Hi. simpl in Hi.
  assert (i = 0 ∨ i = 1) as Hcases by lia. clear Hi.
  destruct Hcases as [-> | ->]; set_solver.
Qed.

Lemma sample_isCommand_d_range : isCommand "d 1-2" "d" "1-2".
Proof. split; [by vm_compute|reflexivity]. Qed.

Lemma delete_all_then_continue_is_quit_witness :
  polishCV Sample.suggestCVImprovements Sample.applyCVEdits "# YOUR NAME"
           (Sample.answers ++ ["d 1-2"; " c "])
  = (Some "# YOUR NAME",
     [SuggestImprovements "# YOUR NAME"; Review Sample.suggestions]).
Proof.
  refine (proj1 (proj2 (proj2
    (delete_all_then_continue_is_quit Sample.suggestCVImprovements
       Sample.applyCVEdits "# YOUR NAME" Sample.suggestions Sample.reviewed
       Sample.answers "d 1-2" "1-2" " c " "" "q" "" _ _ sample_session
       sample_isCommand_d_range (or_intror sample_every_index)
       sample_isCommand_c sample_isCommand_q))));
    [reflexivity | discriminate].
Defined.

Lemma no_suggestions_short_circuit_witness :
  polishCV Sample.noImprovements Sample.applyCVEdits "# YOUR NAME" ["q"]
  = (Some "# YOUR NAME", [SuggestImprovements "# YOUR NAME"]).
Proof.
  apply (no_suggestions_short_circuit Sample.noImprovements Sample.applyCVEdits
           "# YOUR NAME" ["q"]).
  reflexivity.
Defined.


(** ** The reapply delay *)

Lemma randInt_range (random min max : Z) :
  0 ≤ random < 2 ^ 53 → min ≤ max → min ≤ randInt random min max ≤ max.
Proof.
  intros Hr Hmm. unfold randInt.
  assert (0 ≤ (random * (max - min + 1)) `div` 2 ^ 53 < max - min + 1) as H.
  { split.
    - apply Z.div_pos; [nia|lia].
    - apply Z.div_lt_upper_bound; [lia|nia]. }
  lia.
Qed.

Lemma orDefault_effective (configured : option Z) (fallback bound : Z) :
  effective configured fallback bound → JS.orDefault configured fallback = bound.
Proof.
  intros [[-> Hb]|[[-> | ->] ->]]; simpl; [|done..].
  by rewrite decide_False.
Qed.

(** C9. For integers [min <= max], [randInt(min, max)] is an integer of
    the closed range [min, max]; the reapply delay of [runOnce] is
    [randInt] of the configured [minReapplyDays] and [maxReapplyDays],
    with 30 and 90 in place of a bound that is absent or zero, and so lies
    between the bounds in force. *)
Theorem reapply_delay_in_range (random : Z) :
  0 ≤ random < 2 ^ 53 →
  (∀ min max, min ≤ max → min ≤ randInt random min max ≤ max)
  ∧ (∀ jobCfg lo hi,
       effective (minReapplyDays jobCfg) 30 lo →
       effective (maxReapplyDays jobCfg) 90 hi →
       reapplyDays jobCfg random = randInt random lo hi
       ∧ (lo ≤ hi → lo ≤ reapplyDays jobCfg random ≤ hi)).
Proof.
  intros Hr. split.
  - intros min max. by apply randInt_range.
  - intros jobCfg lo hi Hlo Hhi. unfold reapplyDays.
    rewrite (orDefault_effective _ _ _ Hlo), (orDefault_effective _ _ _ Hhi).
    split; [done|]. by apply randInt_range.
Qed.

Lemma reapply_delay_in_range_witness :
  14 ≤ reapplyDays Sample.jobCfg (2 ^ 52) ≤ 90.
Proof.
  refine (proj2 (proj2 (reapply_delay_in_range (2 ^ 52) _)
                   Sample.jobCfg 14 90 _ _) _).
  - lia.
  - left. split; [reflexivity|lia].
  - right. split; [left; reflexivity|reflexivity].
  - lia.
Defined.

(** ** The Model Gateway *)

(** The service answers with JSON that breaks the schema it was given (a
    score of 80 where the schema allows 1 to 10), and [sendToLLM] returns
    that payload. *)
Lemma gateway_returns_invalid_payload :
  Sample.service
    {| instructions := None; input := [("user", "rate this skill")];
       text_format := Some scoreSchema; temperature := None |}
  = Ok Sample.badScoreText
  ∧ Json.parse Sample.badScoreText = Some Sample.badScore
  ∧ sendToLLM Sample.service Json.parse None [("user", "rate this skill")]
              (Some scoreSchema) None
    = Ok (Structured Sample.badScore)
  ∧ Schema.validates scoreSchema Sample.badScore = false.
Proof. repeat split; vm_compute; reflexivity. Qed.

(** C10 (as the code has it). With a schema, [sendToLLM] asks the service
    for output of that schema and returns what [JSON.parse] makes of the
    service's output text, failing with [JSON.parse]'s error when the text
    is not JSON and with the call's error when the call fails. It never
    returns the text itself. It does not check the parsed payload against
    the schema: a payload that breaks the schema is returned like any
    other, what is returned conforms to the schema exactly when the
    service's payload does, and another schema for which the service
    gives the same answer gives the same result. This holds whatever
    [JSON.parse] is. *)
Theorem gateway_parses_without_validating
    (responses_create : request → result string)
    (JSON_parse : string → option json)
    (instr : option string) (messages : list (string * string))
    (sch : schema) (temp : option Z) :
  let options (given : schema) :=
    {| instructions := orUndefined instr; input := messages;
       text_format := Some given; temperature := temp |} in
  let returned (given : schema) :=
    sendToLLM responses_create JSON_parse instr messages (Some given) temp in
  (∀ e, responses_create (options sch) = Err e → returned sch = Err e)
  ∧ (∀ text, responses_create (options sch) = Ok text →
       (JSON_parse text = None → returned sch = Err SyntaxError)
       ∧ (∀ v, JSON_parse text = Some v →
            returned sch = Ok (Structured v)
            ∧ (Schema.validates sch v = false →
               ∃ v', returned sch = Ok (Structured v')
                     ∧ Schema.validates sch v' = false)
            ∧ ((∃ v', returned sch = Ok (Structured v')
                      ∧ Schema.validates sch v' = true)
               ↔ Schema.validates sch v = true)))
  ∧ (∀ text, returned sch ≠ Ok (Text text))
  ∧ (∀ other, responses_create (options other) = responses_create (options sch) →
              returned other = returned sch).
Proof.
  intros options returned. subst returned. unfold sendToLLM. fold (options sch).
  split; [|split; [|split]].
  - by intros e ->.
  - intros text ->. split.
    + by intros ->.
    + intros v ->. split; [done|]. split.
      * intros Hbad. by exists v.
      * split; [by intros (v' & [= <-] & ?)|]. intros Hgood. by exists v.
  - intros text. destruct (responses_create (options sch)) as [t|e]; [|done].
    by destruct (JSON_parse t).
  - intros other Hsame. fold (options other). by rewrite Hsame.
Qed.

(** ** Sessions cover every delete and edit command *)

Lemma edit_step lst answer rest :
  isCommand answer "e" rest →
  (∃ out, step (Reviewing lst) answer = (Reviewing lst, out))
  ∨ (∃ idx item out, step (Reviewing lst) answer = (Editing lst idx item, out)).
Proof.
  intros He. cbn [step]. rewrite (command_e _ _ _ He).
  destruct (JS.parseInt rest) as [n|]; simpl; [|left; by eexists].
  destruct ((n - 1 <? 0) || (n - 1 >=? Z.of_nat (length lst)));
    [left; by eexists|right; by eexists _, _, _].
Qed.

Lemma replace_step lst idx item text :
  ∃ lst1 out, step (Editing lst idx item) text = (Reviewing lst1, out).
Proof. by eexists _, _. Qed.

(** A [d] command that returns is a session of its own. *)
Lemma session_delete_total lst answer rest :
  isCommand answer "d" rest →
  rest = "a" ∨ is_Some (parseIndexList rest (Z.of_nat (length lst))) →
  ∃ lst1, session lst [answer] lst1.
Proof.
  intros Hd Hreturns.
  assert (∃ lst1 out, step (Reviewing lst) answer = (Reviewing lst1, out))
    as (lst1 & out & Hstep).
  { destruct (decide (rest = "a")) as [->|Hrest].
    - cbn [step]. rewrite (command_d_all _ _ Hd). by eexists _, _.
    - destruct Hreturns as [?|[idxs Hidxs]]; [done|].
      destruct (delete_step lst answer rest idxs Hd Hrest Hidxs) as (out & H & _).
      by eexists _, _. }
  exists lst1. eapply session_command; [by left|exact Hstep|constructor].
Qed.

Lemma session_edit_total lst answer rest text :
  isCommand answer "e" rest →
  ∃ lst1, session lst [answer] lst1 ∨ session lst [answer; text] lst1.
Proof.
  intros He. destruct (edit_step lst answer rest He)
    as [[out Hstep]|(idx & item & out & Hstep)].
  - exists lst. left. eapply session_command; [by right|exact Hstep|constructor].
  - destruct (replace_step lst idx item text) as (lst1 & out' & Htext).
    exists lst1. right.
    eapply session_edit; [exact He|exact Hstep|exact Htext|constructor].
Qed.

Lemma session_app lst answers lst1 more lst2 :
  session lst answers lst1 → session lst1 more lst2 → session lst (answers ++ more) lst2.
Proof.
  induction 1; intros Hmore; simpl; [done| |].
  - eapply session_command; eauto.
  - eapply session_edit; eauto.
Qed.

(** ** Scenarios of the specification *)

(** Skills scored 7, 3 and 9 come out in the order 9, 7, 3. *)
Example skills_scored_7_3_9 :
  item <$> topTen [ {| item := "skill-scored-7"; score := 7; rationale := "" |};
                    {| item := "skill-scored-3"; score := 3; rationale := "" |};
                    {| item := "skill-scored-9"; score := 9; rationale := "" |} ]
  = ["skill-scored-9"; "skill-scored-7"; "skill-scored-3"].
Proof. reflexivity. Qed.

(** Equal scores keep the order of the input. *)
Example skills_tied :
  item <$> topTen [ {| item := "first"; score := 5; rationale := "" |};
                    {| item := "second"; score := 8; rationale := "" |};
                    {| item := "third"; score := 5; rationale := "" |};
                    {| item := "fourth"; score := 8; rationale := "" |} ]
  = ["second"; "fourth"; "first"; "third"].
Proof. reflexivity. Qed.

(** Doubles from 2^53 on: odd numbers are not doubles, and a number
    halfway between two doubles goes to the one with the even
    significand. *)
Example roundToDouble_samples :
  JS.roundToDouble 9007199254740991 = Some 9007199254740991
  ∧ JS.roundToDouble 9007199254740992 = Some 9007199254740992
  ∧ JS.roundToDouble 9007199254740993 = Some 9007199254740992
  ∧ JS.roundToDouble 9007199254740994 = Some 9007199254740994
  ∧ JS.roundToDouble 9007199254740995 = Some 9007199254740996
  ∧ JS.roundToDouble (- 9007199254740993) = Some (- 9007199254740992)
  ∧ JS.roundToDouble (2 ^ 1024 - 2 ^ 970 - 1) = Some (2 ^ 1024 - 2 ^ 971)
  ∧ JS.roundToDouble (2 ^ 1024 - 2 ^ 970) = None
  ∧ JS.roundToDouble (10 ^ 400) = None.
Proof. repeat split; by vm_compute. Qed.

(** A range whose end is a double of 2^53 or more is not run through,
    with one exception. *)
Example large_ranges :
  parseIndexList "2-9007199254740993" 3 = None
  ∧ parseIndexList "9007199254740992-9007199254740992" 3 = None
  ∧ parseIndexList "9007199254740994-9007199254740994" 3 = Some []
  ∧ parseIndexList "9007199254740994-9007199254740996" 3 = None
  ∧ parseIndexList "4-2,7" 5 = Some [1; 2; 3].
Proof. repeat split; by vm_compute. Qed.

(** A malformed [d] argument yields no index. *)
Example malformed_indices :
  parseIndexList "x,-2,0,7" 5 = Some [] ∧ parseIndexList "" 5 = Some []
  ∧ parseIndexList "5-3,9,4" 5 = Some [2; 3; 4].
Proof. repeat split; vm_compute; reflexivity. Qed.

(** The sample session, then [c]: the two surviving suggestions are
    approved, the first with its new text. *)
Example sample_session_continue :
  approvedList Sample.suggestions (Sample.answers ++ ["c"]) = Some Sample.reviewed.
Proof. vm_compute. reflexivity. Qed.

(** A [q] typed as the replacement text of an edit is text. *)
Example quit_as_replacement_text :
  fst (reviewSuggestionsInteractively Sample.reviewed ["e 2"; "q"; "c"])
  = Returned [ Sample.suggestion "typo" "Summary" "Fix typos";
               Sample.suggestion "other" "Heading" "q" ].
Proof. vm_compute. reflexivity. Qed.

(** Text that is not JSON makes the gateway fail when a schema is given
    and is returned as it is when none is. *)
Example gateway_not_json :
  sendToLLM (λ _, Ok "I cannot help with that") Json.parse None []
            (Some scoreSchema) None
  = Err SyntaxError
  ∧ sendToLLM (λ _, Ok "I cannot help with that") Json.parse None [] None None
    = Ok (Text "I cannot help with that").
Proof. split; vm_compute; reflexivity. Qed.

(** * Further properties *)

(** ** The index list is a set in ascending order *)

Lemma NoDup_setAdd (x : Z) (set : list Z) : NoDup set → NoDup (JS.setAdd x set).
Proof.
  intros Hset. unfold JS.setAdd. case_decide as Hx; [done|].
  apply NoDup_app. split; [done|]. split; [|apply NoDup_singleton].
  intros y Hy ->%list_elem_of_singleton. done.
Qed.

Lemma NoDup_addRange (max start end_ : Z) (set : list Z) :
  NoDup set → NoDup (addRange max start end_ set).
Proof.
  unfold addRange. generalize (seqZ start (end_ - start + 1)). intros l.
  revert set. induction l as [|i l IH]; intros set Hset; simpl; [done|].
  apply IH. destruct ((1 <=? i) && (i <=? max)); [by apply NoDup_setAdd|done].
Qed.

Lemma NoDup_forRange (max start end_ : Z) (set set' : list Z) :
  forRange max start end_ set = Some set' → NoDup set → NoDup set'.
Proof.
  unfold forRange. intros Hfor Hset.
  destruct (end_ <? 2 ^ 53).
  { injection Hfor as <-. by apply NoDup_addRange. }
  destruct (_ && _); [|done]. injection Hfor as <-.
  destruct (_ && _); [by apply NoDup_setAdd|done].
Qed.

Lemma NoDup_addPart (max : Z) (set set' : list Z) (part : string) :
  addPart max set part = Some set' → NoDup set → NoDup set'.
Proof.
  unfold addPart. intros Hadd Hset. case_decide; [by injection Hadd as <-|].
  destruct (JS.includes "-" part).
  - destruct (JS.parseInt <$> JS.splitChar "-" part) as [|[a|] [|[b|] others]];
      try (by injection Hadd as <-).
    destruct (JS.roundToDouble a), (JS.roundToDouble b);
      try (by injection Hadd as <-).
    by eapply NoDup_forRange.
  - destruct (JS.parseInt part) as [n|]; injection Hadd as <-; [|done].
    destruct ((1 <=? n) && (n <=? max)); [by apply NoDup_setAdd|done].
Qed.

Lemma NoDup_foldl_addPart (max : Z) (parts : list string) (set set' : list Z) :
  foldl (λ set part, set ≫= λ added, addPart max added part) (Some set) parts
  = Some set' →
  NoDup set → NoDup set'.
Proof.
  revert set. induction parts as [|p parts IH]; intros set; simpl.
  { by intros [= <-]. }
  destruct (addPart max set p) as [set1|] eqn:E; [|by rewrite foldl_addPart_None].
  intros Hfold Hset. apply (IH _ Hfold). by eapply NoDup_addPart.
Qed.

Lemma NoDup_parseIndexList (inputStr : string) (max : Z) (idxs : list Z) :
  parseIndexList inputStr max = Some idxs → NoDup idxs.
Proof.
  intros (set & Hfold & ->)%parseIndexList_Some. rewrite sort_perm.
  eapply NoDup_foldl_addPart; [done|apply NoDup_nil_2].
Qed.

Lemma StronglySorted_le_lt (l : list Z) :
  StronglySorted Z.le l → NoDup l → StronglySorted Z.lt l.
Proof.
  induction 1 as [|x l Hs IH Hx]; intros Hnd; [constructor|].
  apply NoDup_cons in Hnd as [Hnot Hnd]. constructor; [by apply IH|].
  apply Forall_forall. intros y Hy.
  assert (x ≤ y) by (eapply Forall_forall in Hx; eauto).
  assert (x ≠ y) by (intros ->; done). lia.
Qed.

Lemma parseIndexList_sorted (inputStr : string) (max : Z) (idxs : list Z) :
  parseIndexList inputStr max = Some idxs → StronglySorted Z.lt idxs.
Proof.
  intros Hidxs.
  apply StronglySorted_le_lt; [|by eapply NoDup_parseIndexList].
  apply parseIndexList_Some in Hidxs as (set & _ & ->).
  eapply StronglySorted_weaken; [|apply sort_sorted]; simpl; intros; lia.
Qed.

Lemma parseIndexList_in_bounds (inputStr : string) (max : Z) (idxs : list Z) :
  parseIndexList inputStr max = Some idxs → Forall (λ i, 0 ≤ i < max) idxs.
Proof.
  intros Hidxs. apply Forall_forall. intros i Hi.
  by apply (elem_of_parseIndexList _ _ _ _ Hidxs) in Hi as [? _].
Qed.

(** ** Rounding to a double *)

Lemma roundToDouble_small (v : Z) :
  - 2 ^ 53 < v < 2 ^ 53 → JS.roundToDouble v = Some v.
Proof.
  intros Hv. unfold JS.roundToDouble.
  destruct (Z.ltb_spec (Z.abs v) (2 ^ 53)); [done|lia].
Qed.

(** The shape of a number of 2^53 or more: its significand [q], the unit
    [p] of its binade and what is left over. *)
Lemma binade (m : Z) :
  2 ^ 53 ≤ m →
  ∃ e, 1 ≤ e ∧ Z.log2 m - 52 = e
       ∧ 2 ^ e = 2 * 2 ^ (e - 1) ∧ 1 ≤ 2 ^ (e - 1)
       ∧ 2 ^ 52 * 2 ^ e ≤ m < 2 ^ 53 * 2 ^ e.
Proof.
  intros Hm. exists (Z.log2 m - 52).
  assert (53 ≤ Z.log2 m) as Hlog.
  { apply (Z.log2_le_pow2 m 53); lia. }
  destruct (Z.log2_spec m) as [Hlo Hhi]; [lia|].
  split; [lia|]. split; [done|].
  replace (Z.log2 m) with (52 + (Z.log2 m - 52)) in Hlo, Hhi at 1 by lia.
  rewrite <-Z.add_succ_l in Hhi.
  rewrite Z.pow_add_r in Hlo, Hhi by lia.
  split; [|split; [|done]].
  - replace (Z.log2 m - 52) with (1 + (Z.log2 m - 52 - 1)) at 1 by lia.
    rewrite Z.pow_add_r by lia. done.
  - assert (0 < 2 ^ (Z.log2 m - 52 - 1)) by (apply Z.pow_pos_nonneg; lia). lia.
Qed.

Lemma roundToDouble_at (e q r : Z) :
  1 ≤ e → 2 ^ 52 ≤ q < 2 ^ 53 → 0 ≤ r < 2 ^ e →
  JS.roundToDouble (q * 2 ^ e + r)
  = let q' :=
      if r <? 2 ^ (e - 1) then q
      else if 2 ^ (e - 1) <? r then q + 1
      else if Z.even q then q else q + 1 in
    if q' * 2 ^ e <? 2 ^ 1024 then Some (q' * 2 ^ e) else None.
Proof.
  intros He Hq Hr. set (m := q * 2 ^ e + r).
  assert (0 < 2 ^ e) as Hp by (apply Z.pow_pos_nonneg; lia).
  assert (2 ≤ 2 ^ e) as Hp2.
  { replace e with (1 + (e - 1)) by lia. rewrite Z.pow_add_r by lia.
    assert (0 < 2 ^ (e - 1)) by (apply Z.pow_pos_nonneg; lia). lia. }
  assert (2 ^ 53 ≤ m) as Hm by (unfold m; nia).
  assert (Z.log2 m = 52 + e) as Hlog.
  { apply Z.log2_unique; [lia|].
    rewrite <-Z.add_succ_l, !Z.pow_add_r by lia. unfold m. split; nia. }
  unfold JS.roundToDouble. rewrite (Z.abs_eq m) by lia.
  destruct (Z.ltb_spec m (2 ^ 53)); [lia|].
  rewrite Hlog. replace (52 + e - 52) with e by lia.
  assert (m `div` 2 ^ e = q) as ->.
  { symmetry. apply (Z.div_unique m (2 ^ e) q r); [lia|unfold m; lia]. }
  assert (m `mod` 2 ^ e = r) as ->.
  { symmetry. apply (Z.mod_unique m (2 ^ e) q r); [lia|unfold m; lia]. }
  assert (Z.sgn m = 1) as -> by (apply Z.sgn_pos; lia).
  cbv zeta. destruct (_ <? 2 ^ 1024); [|done]. f_equal. lia.
Qed.

(** A double of 2^53 or more is a significand of 53 bits times the unit
    of its binade. *)
Lemma double_shape (m : Z) :
  2 ^ 53 ≤ m → JS.roundToDouble m = Some m →
  ∃ e q, 1 ≤ e ∧ 2 ^ 52 ≤ q < 2 ^ 53 ∧ m = q * 2 ^ e ∧ m < 2 ^ 1024.
Proof.
  intros Hm Hfix. destruct (binade m Hm) as (e & He & _ & Hhalf & Hh1 & Hlo & Hhi).
  assert (0 < 2 ^ e) as Hp by lia.
  pose proof (Z.div_mod m (2 ^ e) ltac:(lia)) as Hdm.
  pose proof (Z.mod_pos_bound m (2 ^ e) Hp) as Hr.
  set (q := m `div` 2 ^ e) in *. set (r := m `mod` 2 ^ e) in *.
  assert (2 ^ 52 ≤ q < 2 ^ 53) as Hq by nia.
  replace m with (q * 2 ^ e + r) in Hfix at 1 by lia.
  rewrite roundToDouble_at in Hfix by done. cbv zeta in Hfix.
  exists e, q. split; [done|]. split; [done|].
  destruct (_ <? 2 ^ 1024) eqn:Hfin; [|done]. injection Hfix as Hfix.
  apply Z.ltb_lt in Hfin. rewrite Hfix in Hfin. split; [|done].
  destruct (r <? 2 ^ (e - 1)); [lia|].
  destruct (2 ^ (e - 1) <? r); [lia|]. destruct (Z.even q); lia.
Qed.

(** Adding 1 to a double of 2^53 or more gives the same double again,
    except between 2^53 and 2^54 at an odd significand, where the sum is
    halfway to the next double and goes there. *)
Lemma roundToDouble_succ (m : Z) :
  2 ^ 53 ≤ m → JS.roundToDouble m = Some m →
  JS.roundToDouble (m + 1)
  = Some (if (m <? 2 ^ 54) && Z.odd (m `div` 2) then m + 2 else m).
Proof.
  intros Hm Hfix.
  destruct (double_shape m Hm Hfix) as (e & q & He & Hq & -> & Hfin).
  assert (e = 1 ∨ 2 ≤ e) as [->|He2] by lia.
  - rewrite (roundToDouble_at 1 q 1) by (change (2 ^ 1) with 2; lia).
    change (2 ^ (1 - 1)) with 1. change (2 ^ 1) with 2 in *. cbv zeta.
    rewrite Z.ltb_irrefl. rewrite Z.div_mul by lia.
    destruct (Z.ltb_spec (q * 2) (2 ^ 54)); [|lia]. simpl.
    rewrite <-Z.negb_even. destruct (Z.even q); simpl.
    + destruct (Z.ltb_spec (q * 2) (2 ^ 1024)); [done|lia].
    + destruct (Z.ltb_spec ((q + 1) * 2) (2 ^ 1024)); [f_equal; lia|lia].
  - assert (2 ^ e = 2 * 2 ^ (e - 1)) as Hhalf.
    { replace e with (1 + (e - 1)) at 1 by lia. by rewrite Z.pow_add_r by lia. }
    assert (2 ≤ 2 ^ (e - 1)) as Hh2.
    { replace (e - 1) with (1 + (e - 2)) by lia. rewrite Z.pow_add_r by lia.
      assert (0 < 2 ^ (e - 2)) by (apply Z.pow_pos_nonneg; lia). lia. }
    rewrite (roundToDouble_at e q 1) by lia. cbv zeta.
    destruct (Z.ltb_spec 1 (2 ^ (e - 1))); [|lia].
    destruct (Z.ltb_spec (q * 2 ^ e) (2 ^ 1024)); [|lia].
    destruct (Z.ltb_spec (q * 2 ^ e) (2 ^ 54)); [nia|]. done.
Qed.

Lemma double_even (m : Z) : 2 ^ 53 ≤ m → JS.roundToDouble m = Some m → Z.even m = true.
Proof.
  intros Hm Hfix.
  destruct (double_shape m Hm Hfix) as (e & q & He & Hq & -> & Hfin).
  replace e with (1 + (e - 1)) by lia. rewrite Z.pow_add_r by lia.
  rewrite Z.mul_assoc, Z.mul_shuffle0. change (2 ^ 1) with 2.
  rewrite Z.even_mul. simpl. by rewrite orb_true_r.
Qed.

Lemma roundToDouble_exact (v : Z) :
  - 2 ^ 53 < v ≤ 2 ^ 53 → JS.roundToDouble v = Some v.
Proof.
  intros Hv. destruct (decide (v = 2 ^ 53)) as [->|Hne]; [by vm_compute|].
  apply roundToDouble_small. lia.
Qed.

Lemma double_from_even (m : Z) :
  2 ^ 53 ≤ m ≤ 2 ^ 54 → Z.even m = true → isDouble m.
Proof.
  intros Hm [q ->]%Z.even_spec. unfold isDouble.
  destruct (decide (2 * q = 2 ^ 54)) as [->|Hne]; [by vm_compute|].
  replace (2 * q) with (q * 2 ^ 1 + 0) by (change (2 ^ 1) with 2; lia).
  rewrite roundToDouble_at by (change (2 ^ 1) with 2; lia).
  change (2 ^ (1 - 1)) with 1. change (2 ^ 1) with 2. simpl.
  destruct (Z.ltb_spec (q * 2) (2 ^ 1024)); [f_equal; lia|lia].
Qed.

(** What rounding gives is a double. *)
Lemma roundToDouble_isDouble (v d : Z) :
  0 ≤ v → JS.roundToDouble v = Some d → 0 ≤ d ∧ isDouble d.
Proof.
  intros Hv Hd. destruct (decide (v < 2 ^ 53)) as [Hsmall|Hbig].
  { rewrite roundToDouble_small in Hd by lia. injection Hd as <-.
    split; [done|]. apply roundToDouble_small. lia. }
  destruct (binade v ltac:(lia)) as (e & He & _ & Hhalf & Hh1 & Hlo & Hhi).
  assert (0 < 2 ^ e) as Hp by lia.
  pose proof (Z.div_mod v (2 ^ e) ltac:(lia)) as Hdm.
  pose proof (Z.mod_pos_bound v (2 ^ e) Hp) as Hr.
  set (q := v `div` 2 ^ e) in *. set (r := v `mod` 2 ^ e) in *.
  assert (2 ^ 52 ≤ q < 2 ^ 53) as Hq by nia.
  replace v with (q * 2 ^ e + r) in Hd by lia.
  rewrite roundToDouble_at in Hd by done. cbv zeta in Hd.
  destruct (_ <? 2 ^ 1024) eqn:Hfin; [|done]. injection Hd as <-.
  apply Z.ltb_lt in Hfin.
  assert (∀ q', 2 ^ 52 ≤ q' ≤ 2 ^ 53 → q' * 2 ^ e < 2 ^ 1024 →
                0 ≤ q' * 2 ^ e ∧ isDouble (q' * 2 ^ e)) as Hshape.
  { intros q' Hq' Hfin'. split; [nia|]. unfold isDouble.
    destruct (decide (q' = 2 ^ 53)) as [->|Hne].
    - replace (2 ^ 53 * 2 ^ e) with (2 ^ 52 * 2 ^ (e + 1) + 0) in *
        by (rewrite Z.pow_add_r by lia; change (2 ^ 1) with 2; lia).
      rewrite roundToDouble_at.
      + replace (e + 1 - 1) with e by lia. cbv zeta.
        destruct (Z.ltb_spec 0 (2 ^ e)); [|lia].
        destruct (Z.ltb_spec (2 ^ 52 * 2 ^ (e + 1)) (2 ^ 1024)); [|lia].
        f_equal. lia.
      + lia.
      + lia.
      + assert (0 < 2 ^ (e + 1)) by (apply Z.pow_pos_nonneg; lia). lia.
    - replace (q' * 2 ^ e) with (q' * 2 ^ e + 0) at 1 by lia.
      rewrite roundToDouble_at by lia. cbv zeta.
      destruct (Z.ltb_spec 0 (2 ^ (e - 1))); [|lia].
      by destruct (Z.ltb_spec (q' * 2 ^ e) (2 ^ 1024)); [|lia]. }
  destruct (r <? 2 ^ (e - 1)); [apply Hshape; [lia|done]|].
  destruct (2 ^ (e - 1) <? r); [apply Hshape; [lia|done]|].
  destruct (Z.even q); apply Hshape; (lia || done).
Qed.

Lemma roundToDouble_opp (v : Z) :
  JS.roundToDouble (- v) = Z.opp <$> JS.roundToDouble v.
Proof.
  unfold JS.roundToDouble. rewrite Z.abs_opp, Z.sgn_opp.
  destruct (Z.abs v <? 2 ^ 53); [done|]. cbv zeta.
  destruct (_ <? 2 ^ 1024); [|done]. simpl. f_equal. lia.
Qed.

(** Rounding does not take a number of 2^53 or more in magnitude below
    2^53. *)
Lemma roundToDouble_big (v t : Z) :
  2 ^ 53 ≤ Z.abs v → JS.roundToDouble v = Some t → 2 ^ 53 ≤ Z.abs t.
Proof.
  assert (∀ v t, 2 ^ 53 ≤ v → JS.roundToDouble v = Some t → 2 ^ 53 ≤ t) as Hpos.
  { clear v t. intros v t Hv Ht.
    destruct (roundToDouble_isDouble v t ltac:(lia) Ht) as [Ht0 Hdouble].
    destruct (decide (2 ^ 53 ≤ t)) as [|Hsmall]; [done|].
    destruct (binade v Hv) as (e & He & _ & Hhalf & Hh1 & Hlo & Hhi).
    assert (0 < 2 ^ e) as Hp by lia.
    pose proof (Z.div_mod v (2 ^ e) ltac:(lia)) as Hdm.
    pose proof (Z.mod_pos_bound v (2 ^ e) Hp) as Hmod.
    set (q := v `div` 2 ^ e) in *. set (r := v `mod` 2 ^ e) in *.
    assert (2 ^ 52 ≤ q < 2 ^ 53) as Hq by nia.
    replace v with (q * 2 ^ e + r) in Ht by lia.
    rewrite roundToDouble_at in Ht by done. cbv zeta in Ht.
    destruct (_ <? 2 ^ 1024); [|done]. injection Ht as <-.
    destruct (r <? 2 ^ (e - 1)); [nia|].
    destruct (2 ^ (e - 1) <? r); [nia|]. destruct (Z.even q); nia. }
  intros Hv Ht. destruct (decide (0 ≤ v)) as [Hnonneg|Hneg].
  - rewrite Z.abs_eq in Hv by done. pose proof (Hpos v t Hv Ht). lia.
  - replace v with (- - v) in Ht by lia. rewrite roundToDouble_opp in Ht.
    destruct (JS.roundToDouble (- v)) as [t'|] eqn:Ht'; [|done].
    injection Ht as <-. pose proof (Hpos (- v) t' ltac:(lia) Ht'). lia.
Qed.

(** The test of a single number against the length of an array comes out
    the same on the double that [parseInt] gives as on the number
    written, and a number that passes is its own double. *)
Lemma single_number_test (n max : Z) :
  0 ≤ n → max < 2 ^ 53 →
  match JS.roundToDouble n with
  | Some n' => (1 <=? n') && (n' <=? max) = (1 <=? n) && (n <=? max)
               ∧ ((1 <=? n) && (n <=? max) = true → n' = n)
  | None => (1 <=? n) && (n <=? max) = false
  end.
Proof.
  intros Hn Hmax. destruct (decide (n < 2 ^ 53)) as [Hsmall|Hbig].
  { by rewrite roundToDouble_small by lia. }
  destruct (Z.leb_spec n max); [lia|]. rewrite andb_false_r.
  destruct (JS.roundToDouble n) as [n'|] eqn:Hround; [|done].
  assert (2 ^ 53 ≤ Z.abs n') by (apply (roundToDouble_big n); [lia|done]).
  destruct (roundToDouble_isDouble n n' Hn Hround) as [Hn' _].
  destruct (Z.leb_spec n' max); [lia|]. by rewrite andb_false_r.
Qed.

(** ** When the index list is returned *)

Lemma forRange_small (max start end_ : Z) (set : list Z) :
  end_ < 2 ^ 53 → forRange max start end_ set = Some (addRange max start end_ set).
Proof.
  intros Hend. unfold forRange. by destruct (Z.ltb_spec end_ (2 ^ 53)); [|lia].
Qed.

Lemma addPart_returns (max : Z) (set : list Z) (part : string) :
  (∀ a b others,
     JS.parseInt <$> JS.splitChar "-" part = Some a :: Some b :: others →
     - 2 ^ 53 < a < 2 ^ 53 ∧ - 2 ^ 53 < b < 2 ^ 53) →
  is_Some (addPart max set part).
Proof.
  intros Hsmall. unfold addPart. case_decide; [done|].
  destruct (JS.includes "-" part); [|by destruct (JS.parseInt part)].
  destruct (JS.parseInt <$> JS.splitChar "-" part) as [|[a|] [|[b|] others]];
    try done.
  destruct (Hsmall a b others eq_refl) as [Ha Hb].
  rewrite !roundToDouble_small, forRange_small by lia. done.
Qed.

Lemma foldl_addPart_returns (max : Z) (parts : list string) (set : list Z) :
  (∀ part a b others, part ∈ parts →
     JS.parseInt <$> JS.splitChar "-" part = Some a :: Some b :: others →
     - 2 ^ 53 < a < 2 ^ 53 ∧ - 2 ^ 53 < b < 2 ^ 53) →
  is_Some (foldl (λ set part, set ≫= λ added, addPart max added part)
                 (Some set) parts).
Proof.
  revert set. induction parts as [|p parts IH]; intros set Hsmall; simpl; [done|].
  destruct (addPart_returns max set p) as [set1 ->].
  { intros a b others. apply Hsmall. by left. }
  apply IH. intros part a b others Hin. apply Hsmall. by right.
Qed.

(** [parseIndexList] returns when no range of its argument reaches
    2^53. *)
Lemma parseIndexList_returns (inputStr : string) (max : Z) :
  smallRanges inputStr → is_Some (parseIndexList inputStr max).
Proof.
  intros Hsmall. unfold parseIndexList.
  destruct (foldl_addPart_returns max (JS.splitCommas inputStr) [] Hsmall)
    as [set ->].
  done.
Qed.

(** X1. [parseIndexList] returns when no range of its argument reaches
    2^53, and whenever it returns, what it returns are 0-based indices
    below [max], each once, in strictly ascending order. *)
Theorem parseIndexList_ascending (inputStr : string) (max : Z) :
  (smallRanges inputStr → is_Some (parseIndexList inputStr max))
  ∧ ∀ idxs, parseIndexList inputStr max = Some idxs →
            StronglySorted Z.lt idxs ∧ Forall (λ i, 0 ≤ i < max) idxs.
Proof.
  split; [apply parseIndexList_returns|]. intros idxs Hidxs.
  split; [by eapply parseIndexList_sorted|by eapply parseIndexList_in_bounds].
Qed.

(** X2. The indices depend only on which numbers the entries of the
    argument name, not on the order of the entries or on repetitions: two
    arguments whose entries name the same numbers, and for which
    [parseIndexList] returns, give the same indices. *)
Theorem parseIndexList_same_numbers (s1 s2 : string) (max : Z) (idxs1 idxs2 : list Z) :
  parseIndexList s1 max = Some idxs1 →
  parseIndexList s2 max = Some idxs2 →
  (∀ k, (∃ part, part ∈ JS.splitCommas s1 ∧ names part k)
        ↔ (∃ part, part ∈ JS.splitCommas s2 ∧ names part k)) →
  idxs1 = idxs2.
Proof.
  intros H1 H2 Hsame.
  apply (StronglySorted_unique_strong Z.lt).
  - intros x y _ _ ? ?. lia.
  - by eapply parseIndexList_sorted.
  - by eapply parseIndexList_sorted.
  - apply NoDup_Permutation; [by eapply NoDup_parseIndexList..|].
    intros i.
    rewrite (elem_of_parseIndexList _ _ _ _ H1), (elem_of_parseIndexList _ _ _ _ H2).
    by rewrite (Hsame (i + 1)).
Qed.

Lemma parseIndexList_same_numbers_witness :
  parseIndexList "1,3" 5 = Some [0; 2] ∧ parseIndexList "3,1,3" 5 = Some [0; 2].
Proof.
  assert (parseIndexList "1,3" 5 = Some [0; 2]) as H1 by (by vm_compute).
  split; [exact H1|].
  destruct (parseIndexList "3,1,3" 5) as [idxs2|] eqn:H2; [|by vm_compute in H2].
  f_equal. symmetry.
  apply (parseIndexList_same_numbers "1,3" "3,1,3" 5 [0; 2] idxs2 H1 H2).
  intros k. change (JS.splitCommas "1,3") with ["1"; "3"].
  change (JS.splitCommas "3,1,3") with ["3"; "1"; "3"].
  split; intros (part & Hin & Hnames); exists part; (split; [|done]);
    revert Hin; rewrite !elem_of_cons, !elem_of_nil; tauto.
Defined.

(** ** What a deletion removes *)

Lemma filterIndex_sublist {A} (p : Z → bool) (i : Z) (l : list A) :
  filterIndex p i l `sublist_of` l.
Proof.
  revert i. induction l as [|x l IH]; intros i; simpl; [done|].
  destruct (p i); [by apply sublist_skip|by apply sublist_cons].
Qed.

Lemma filterIndex_length {A} (p : Z → bool) (i : Z) (l : list A) :
  length (filterIndex p i l)
  = length (filter (λ j, p j = true) (seqZ i (Z.of_nat (length l)))).
Proof.
  revert i. induction l as [|x l IH]; intros i; [done|].
  rewrite seqZ_cons by (simpl; lia). cbn [filterIndex].
  replace (Z.pred (Z.of_nat (length (x :: l)))) with (Z.of_nat (length l))
    by (simpl; lia).
  replace (Z.succ i) with (i + 1) by lia.
  rewrite filter_cons. destruct (p i) eqn:E.
  - rewrite decide_True by done. simpl. by rewrite IH.
  - rewrite decide_False by done. apply IH.
Qed.

Lemma length_not_included (idxs : list Z) (n : Z) :
  NoDup idxs → Forall (λ i, 0 ≤ i < n) idxs →
  (length (filter (λ j, negb (includesIndex idxs j) = true) (seqZ 0 n))
   + length idxs)%nat
  = Z.to_nat n.
Proof.
  intros Hnd Hin.
  rewrite <-(length_seqZ 0 n).
  rewrite <-(Permutation_length
               (filter_app_complement (λ j, negb (includesIndex idxs j) = true)
                  (seqZ 0 n))).
  rewrite length_app. f_equal. symmetry. apply Permutation_length.
  apply NoDup_Permutation; [apply NoDup_filter, NoDup_seqZ|done|].
  intros i. rewrite list_elem_of_filter, elem_of_seqZ. unfold includesIndex.
  rewrite negb_true_iff, bool_decide_eq_false. split.
  - intros [Hi _]. by destruct (decide (i ∈ idxs)).
  - intros Hi. split; [tauto|]. eapply Forall_forall in Hin; [|done]. lia.
Qed.

(** X3. A [d] command other than [d a] that comes back to the prompt
    has had [parseIndexList] return, and removes exactly as many
    suggestions as [parseIndexList] returns indices, and what is left is a
    sublist of the live list: the surviving suggestions are unchanged and
    keep their order. *)
Theorem delete_removes_sublist (lst lst' : list Suggestion)
    (answer rest : string) (out : list output) :
  isCommand answer "d" rest → rest ≠ "a" →
  step (Reviewing lst) answer = (Reviewing lst', out) →
  ∃ idxs,
    parseIndexList rest (Z.of_nat (length lst)) = Some idxs
    ∧ lst' `sublist_of` lst
    ∧ (length lst' + length idxs)%nat = length lst.
Proof.
  intros Hd Hrest Hstep.
  destruct (parseIndexList rest (Z.of_nat (length lst))) as [idxs|] eqn:Hidxs;
    [|by rewrite (delete_loops _ _ _ Hd Hrest Hidxs) in Hstep].
  exists idxs. split; [done|].
  destruct (delete_step lst answer rest idxs Hd Hrest Hidxs) as (out' & Hstep' & _).
  rewrite Hstep in Hstep'. injection Hstep' as -> _. split.
  - apply filterIndex_sublist.
  - rewrite filterIndex_length, length_not_included.
    + lia.
    + by eapply NoDup_parseIndexList.
    + by eapply parseIndexList_in_bounds.
Qed.

Lemma delete_removes_sublist_witness :
  ∃ idxs,
    parseIndexList "2,9" 3 = Some idxs
    ∧ take 1 Sample.suggestions ++ drop 2 Sample.suggestions
      `sublist_of` Sample.suggestions
    ∧ (length (take 1 Sample.suggestions ++ drop 2 Sample.suggestions)
       + length idxs)%nat = 3%nat.
Proof.
  refine (delete_removes_sublist Sample.suggestions _ "d 2,9" "2,9" _
            sample_isCommand_d _ _).
  - discriminate.
  - vm_compute. reflexivity.
Defined.

(** ** The approved list derives from the suggestions *)

Lemma derived_refl (l : list Suggestion) : derived l l.
Proof. exists l. split; [done|]. apply Forall2_same_length_lookup_2; [done|].
  intros i a b Ha Hb k _. by simplify_eq.
Qed.

Lemma derived_nil (original : list Suggestion) : derived original [].
Proof. exists []. split; [apply sublist_nil_l|constructor]. Qed.

Lemma derived_filterIndex original (p : Z → bool) (i : Z) (l : list Suggestion) :
  derived original l → derived original (filterIndex p i l).
Proof.
  intros (kept & Hsub & Hall).
  cut (∃ kept', kept' `sublist_of` kept
                ∧ Forall2 sameButText (filterIndex p i l) kept').
  { intros (kept' & Hsub' & Hall'). exists kept'. split; [by etrans|done]. }
  clear Hsub. revert i. induction Hall as [|x y l k Hxy _ IH]; intros i; simpl.
  - exists []. split; [done|constructor].
  - destruct (IH (i + 1)) as (kept' & Hsub' & Hall'). destruct (p i).
    + exists (y :: kept'). split; [by apply sublist_skip|by constructor].
    + exists kept'. split; [by apply sublist_cons|done].
Qed.

Lemma derived_insert original (l : list Suggestion) (idx : nat) (item item' : Suggestion) :
  derived original l → l !! idx = Some item → sameButText item' item →
  derived original (<[idx := item']> l).
Proof.
  intros (kept & Hsub & Hall) Hitem Hsame. exists kept. split; [done|].
  destruct (Forall2_lookup_l _ _ _ _ _ Hall Hitem) as (y & Hy & Hitem_y).
  rewrite <-(list_insert_id kept idx y Hy). apply Forall2_insert; [done|].
  intros k Hk. rewrite (Hsame k Hk). by apply Hitem_y.
Qed.

Lemma command_derived original (lst : list Suggestion) (answer : string) :
  derived original lst → stateDerived original (command lst answer).1.
Proof.
  intros Hd. unfold command. case_decide; [done|].
  destruct (commandOf (JS.trim answer)) as [cmd rest].
  repeat case_decide; simpl; try done; try apply derived_nil.
  - destruct (parseIndexList rest (Z.of_nat (length lst))) as [idxs|]; [|done].
    case_decide; simpl; [done|]. by apply derived_filterIndex.
  - destruct (JS.parseInt rest) as [n|]; simpl; [|done].
    destruct (Z.ltb_spec (n - 1) 0); simpl; [done|].
    destruct (Z.geb_spec (n - 1) (Z.of_nat (length lst))); simpl; [done|].
    split; [done|].
    destruct (lookup_lt_is_Some_2 lst (Z.to_nat (n - 1))) as [item ->]; [lia|done].
Qed.

Lemma step_derived original (st : state) (answer : string) :
  stateDerived original st → stateDerived original (step st answer).1.
Proof.
  destruct st as [lst|lst idx item|approved|lst]; simpl;
    [apply command_derived| |done..].
  intros [Hd Hitem]. eapply derived_insert; [done..|].
  intros k Hk. by apply replace_frame.
Qed.

Lemma run_derived original (st : state) (answers : list string) :
  stateDerived original st → stateDerived original (run st answers).1.
Proof.
  revert st. induction answers as [|a answers IH]; intros st Hst; simpl; [done|].
  pose proof (step_derived original st a Hst) as Hstep.
  destruct (step st a) as [st1 o1]. specialize (IH st1 Hstep).
  by destruct (run st1 answers).
Qed.

Lemma approved_derived_from_suggestions_aux (suggestions approved : list Suggestion)
    (answers : list string) :
  approvedList suggestions answers = Some approved → derived suggestions approved.
Proof.
  unfold approvedList. rewrite review_unfold.
  pose proof (run_derived suggestions (Reviewing suggestions) answers
                (derived_refl suggestions)) as Hrun.
  by destruct (run (Reviewing suggestions) answers) as [[lst|lst idx item|lst|lst] out];
    simpl; intros [= ->].
Qed.

(** X4. Whatever the operator answers, the list the review returns is
    derived from the suggestions it was given: some elements left out, the
    others in their original order and with at most their [suggestion]
    text changed. The review never adds, duplicates or reorders a
    suggestion and never touches a [type] or a [location]. *)
Theorem approved_derived_from_suggestions (suggestions approved : list Suggestion)
    (answers : list string) :
  approvedList suggestions answers = Some approved →
  derived suggestions approved
  ∧ (length approved ≤ length suggestions)%nat.
Proof.
  unfold approvedList. rewrite review_unfold.
  pose proof (run_derived suggestions (Reviewing suggestions) answers
                (derived_refl suggestions)) as Hrun.
  destruct (run (Reviewing suggestions) answers) as [[lst|lst idx item|lst|lst] out];
    simpl; intros [= ->].
  split; [done|]. destruct Hrun as (kept & Hsub & Hall).
  rewrite (Forall2_length _ _ _ Hall). by apply sublist_length.
Qed.

Lemma approved_derived_from_suggestions_witness :
  derived Sample.suggestions Sample.reviewed.
Proof.
  refine (proj1 (approved_derived_from_suggestions Sample.suggestions
                   Sample.reviewed (Sample.answers ++ ["c"]) _)).
  vm_compute. reflexivity.
Defined.

(** ** Continuing with the approved edits *)

Lemma session_derived suggestions answers lst' :
  session suggestions answers lst' → derived suggestions lst'.
Proof.
  intros [out Hrun]%session_run.
  pose proof (run_derived suggestions (Reviewing suggestions) answers
                (derived_refl suggestions)) as H.
  by rewrite Hrun in H.
Qed.

Lemma derived_nonempty original lst : derived original lst → lst ≠ [] → original ≠ [].
Proof.
  intros (kept & Hsub & Hall) Hne ->. apply sublist_nil_r in Hsub as ->.
  by apply Forall2_nil_inv_r in Hall.
Qed.

(** No [ApplyEdits] is among calls that are all of another kind. *)
Local Ltac no_apply_edits H :=
  repeat (apply elem_of_cons in H as [H|H]; [discriminate H|]);
  by apply elem_of_nil in H.

Section PolishMore.

Context (suggestCVImprovements : string → option (list Suggestion)).
Context (applyCVEdits : string → list Suggestion → string).

(** X5. After any sequence of delete and edit commands that leaves at
    least one suggestion, [c] returns the live list as it then stands, and
    [polishCV] hands exactly that list, with the original document, to the
    Edit Applier and returns the Applier's document. *)
Theorem continue_applies_live_list (cvMarkdown : string)
    (suggestions lst' : list Suggestion) (answers : list string) (c crest : string) :
  suggestCVImprovements cvMarkdown = Some suggestions →
  session suggestions answers lst' →
  lst' ≠ [] →
  isCommand c "c" crest →
  approvedList suggestions (answers ++ [c]) = Some lst'
  ∧ polishCV suggestCVImprovements applyCVEdits cvMarkdown (answers ++ [c])
    = (Some (applyCVEdits cvMarkdown lst'),
       [SuggestImprovements cvMarkdown; Review suggestions;
        ApplyEdits cvMarkdown lst']).
Proof.
  intros Hs Hsession Hne Hc.
  assert (approvedList suggestions (answers ++ [c]) = Some lst') as Happroved.
  { destruct (session_review _ _ _ Hsession) as [out Hrev]. unfold approvedList.
    rewrite (review_app _ _ [c] _ _ Hrev). cbn [run step].
    by rewrite (command_c _ _ _ Hc). }
  split; [done|]. unfold polishCV. rewrite Hs, Happroved.
  pose proof (derived_nonempty _ _ (session_derived _ _ _ Hsession) Hne).
  rewrite !decide_False; [done| |]; by intros ?%length_zero_iff_nil.
Qed.

(** X6. [polishCV] calls the Edit Applier only with the document it was
    given and a non-empty list derived from the Suggestion Engine's
    suggestions, and then returns the Applier's document; when it does not
    call the Applier it returns the document unchanged, or is still waiting
    for the operator. *)
Theorem polishCV_applies_only_approved (cvMarkdown : string) (answers : list string) :
  let result := (polishCV suggestCVImprovements applyCVEdits cvMarkdown answers).1 in
  let calls := (polishCV suggestCVImprovements applyCVEdits cvMarkdown answers).2 in
  (∀ document approved, ApplyEdits document approved ∈ calls →
     document = cvMarkdown ∧ approved ≠ []
     ∧ result = Some (applyCVEdits cvMarkdown approved)
     ∧ ∃ suggestions, suggestCVImprovements cvMarkdown = Some suggestions
                      ∧ derived suggestions approved)
  ∧ ((∀ document approved, ApplyEdits document approved ∉ calls) →
     result = Some cvMarkdown ∨ result = None).
Proof.
  unfold polishCV.
  destruct (suggestCVImprovements cvMarkdown) as [suggestions|] eqn:Hs; simpl.
  2: { split; [|by left]. intros d a Hin. no_apply_edits Hin. }
  case_decide as Hlen; simpl.
  { split; [|by left]. intros d a Hin. no_apply_edits Hin. }
  destruct (approvedList suggestions answers) as [approved|] eqn:Ha; simpl.
  2: { split; [|by right]. intros d a Hin. no_apply_edits Hin. }
  case_decide as Hlen'; simpl.
  { split; [|by left]. intros d a Hin. no_apply_edits Hin. }
  split.
  - intros d a Hin.
    do 2 (apply elem_of_cons in Hin as [Hin|Hin]; [discriminate Hin|]).
    apply list_elem_of_singleton in Hin. injection Hin as -> ->.
    repeat split; [by intros ->|].
    exists suggestions. split; [done|].
    by apply (approved_derived_from_suggestions_aux suggestions approved answers).
  - intros Hnone. destruct (Hnone cvMarkdown approved).
    rewrite !elem_of_cons. auto.
Qed.

End PolishMore.

Lemma continue_applies_live_list_witness :
  approvedList Sample.suggestions (Sample.answers ++ [" c "]) = Some Sample.reviewed.
Proof.
  refine (proj1 (continue_applies_live_list Sample.suggestCVImprovements
                   Sample.applyCVEdits "# YOUR NAME" Sample.suggestions
                   Sample.reviewed Sample.answers " c " "" _ sample_session _
                   sample_isCommand_c));
    [reflexivity | discriminate].
Defined.

(** ** What the operator sees *)

Lemma step_shows_list (st : state) (answer : string) lst out :
  (∀ approved, st ≠ Returned approved) →
  step st answer = (Reviewing lst, out) →
  ∃ before, out = before ++ [PrintSuggestions lst; Log commandsHelp].
Proof.
  intros Hst. destruct st as [l|l idx item|approved|l]; simpl;
    [|intros [= <- <-]; by exists []|by destruct (Hst approved)|done].
  unfold command, prompt, finish. case_decide; [intros [= <- <-]; by exists []|].
  destruct (commandOf (JS.trim answer)) as [cmd rest].
  destruct (parseIndexList rest (Z.of_nat (length l))) as [idxs|];
  repeat case_decide; try done;
    try (intros [= <- <-]; first [by exists []|by eexists [_]]).
  all: destruct (JS.parseInt rest) as [n|]; simpl;
    [|intros [= <- <-]; by eexists [_]].
  all: destruct ((n - 1 <? 0) || (n - 1 >=? Z.of_nat (length l)));
    [intros [= <- <-]; by eexists [_]|done].
Qed.

Lemma step_Returned_stays approved answer : step (Returned approved) answer = (Returned approved, []).
Proof. done. Qed.

Lemma run_Returned approved answers : run (Returned approved) answers = (Returned approved, []).
Proof. induction answers as [|a answers IH]; simpl; [done|]. by rewrite IH. Qed.

Lemma run_Looping lst answers : run (Looping lst) answers = (Looping lst, []).
Proof. induction answers as [|a answers IH]; simpl; [done|]. by rewrite IH. Qed.

Lemma run_shows_list (st : state) (answers : list string) lst out :
  run st answers = (Reviewing lst, out) →
  (answers = [] ∧ st = Reviewing lst)
  ∨ ∃ before, out = before ++ [PrintSuggestions lst; Log commandsHelp].
Proof.
  revert st out. induction answers as [|a answers IH]; intros st out; simpl.
  { intros [= -> <-]. by left. }
  destruct (step st a) as [st1 o1] eqn:Hstep.
  destruct (run st1 answers) as [st2 o2] eqn:Hrun. intros [= -> <-]. right.
  destruct (IH _ _ Hrun) as [[-> ->]|[before ->]].
  - simpl in Hrun. injection Hrun as <-. rewrite (right_id_L [] (++)).
    eapply step_shows_list; [|exact Hstep].
    intros approved ->. by rewrite step_Returned_stays in Hstep.
  - exists (o1 ++ before). by rewrite (assoc_L (++)).
Qed.

(** X7. Whenever the review waits for a command, the last thing it
    printed is the live list followed by the line of commands: the list on
    the screen is the one the next [d] or [e] indices are checked
    against. *)
Theorem prompt_shows_live_list (suggestions lst : list Suggestion)
    (answers : list string) (out : list output) :
  reviewSuggestionsInteractively suggestions answers = (Reviewing lst, out) →
  ∃ before, out = before ++ [PrintSuggestions lst; Log commandsHelp].
Proof.
  rewrite review_unfold.
  destruct (run (Reviewing suggestions) answers) as [st o] eqn:Hrun.
  intros [= -> <-]. destruct (run_shows_list _ _ _ _ Hrun) as [[-> [= ->]]|[before ->]].
  - simpl in Hrun. injection Hrun as <-. by exists [].
  - by exists ([PrintSuggestions suggestions; Log commandsHelp] ++ before).
Qed.

Lemma prompt_shows_live_list_witness :
  ∃ before,
    (reviewSuggestionsInteractively Sample.suggestions Sample.answers).2
    = before ++ [PrintSuggestions Sample.reviewed; Log commandsHelp].
Proof.
  destruct (prompt_shows_live_list Sample.suggestions Sample.reviewed Sample.answers
              (reviewSuggestionsInteractively Sample.suggestions Sample.answers).2)
    as [before H]; [vm_compute; reflexivity|].
  exists before. exact H.
Defined.

(** ** Numbers as the operator reads and types them *)

Lemma digitsValue_of_uint_acc (d : Decimal.uint) (acc : positive) :
  JS.digitsValue (Z.pos acc) (NilEmpty.string_of_uint d)
  = Z.pos (Pos.of_uint_acc d acc).
Proof.
  revert acc. induction d; intros acc; simpl; [done|..];
    rewrite <-IHd; f_equal; lia.
Qed.

Lemma digitsValue_of_uint (d : Decimal.uint) :
  JS.digitsValue 0 (NilEmpty.string_of_uint d) = Z.of_N (Pos.of_uint d).
Proof.
  induction d; simpl; [done|done|..]; apply (digitsValue_of_uint_acc d).
Qed.

Lemma allDigits_string_of_uint (d : Decimal.uint) :
  allDigits (NilEmpty.string_of_uint d) = true.
Proof. induction d; simpl; done. Qed.

Lemma string_of_uint_nonempty (d : Decimal.uint) :
  d ≠ Decimal.Nil → NilEmpty.string_of_uint d ≠ "".
Proof. by destruct d. Qed.

(** A non-negative number prints as a non-empty string of digits whose
    value is the number. *)
Lemma numberToString_digits (n : Z) :
  0 ≤ n →
  allDigits (numberToString n) = true ∧ numberToString n ≠ ""
  ∧ JS.digitsValue 0 (numberToString n) = n.
Proof.
  intros Hn. unfold numberToString. destruct n as [|p|p]; [done| |lia].
  simpl. pose proof (DecimalPos.Unsigned.to_uint_nonnil p) as Hnil.
  assert (NilZero.string_of_uint (Pos.to_uint p)
          = NilEmpty.string_of_uint (Pos.to_uint p)) as ->
    by (by destruct (Pos.to_uint p)).
  split; [apply allDigits_string_of_uint|].
  split; [by apply string_of_uint_nonempty|].
  by rewrite digitsValue_of_uint, DecimalPos.Unsigned.of_to.
Qed.

Lemma allDigits_head (s : string) :
  allDigits s = true → s ≠ "" →
  ∃ c s', s = String c s' ∧ is_Some (Ascii.is_nat c) ∧ allDigits s' = true.
Proof.
  destruct s as [|c s']; [done|]. simpl.
  intros [Hc Hs]%andb_true_iff _. exists c, s'.
  split; [done|]. split; [by apply bool_decide_eq_true in Hc|done].
Qed.

Lemma is_nat_plain (c : ascii) :
  is_Some (Ascii.is_nat c) →
  Ascii.is_space c = false ∧ c ≠ ","%char ∧ c ≠ "-"%char ∧ c ≠ "+"%char.
Proof.
  intros [n Hn]. repeat split; try (intros ->; done).
  destruct c as [[] [] [] [] [] [] [] []]; done.
Qed.

(** [parseInt] reads a string of digits as its value. *)
Lemma parseInt_digits (s : string) :
  allDigits s = true → s ≠ "" → JS.parseInt s = Some (JS.digitsValue 0 s).
Proof.
  intros Hs Hne. destruct (allDigits_head s Hs Hne) as (c & s' & -> & Hc & _).
  destruct (is_nat_plain c Hc) as (Hsp & _ & Hminus & Hplus).
  unfold JS.parseInt. cbn [JS.trimStart]. rewrite Hsp.
  assert (JS.startsWithDigit (String c s') = true) as Hdigit
    by (simpl; by apply bool_decide_eq_true).
  destruct c as [[] [] [] [] [] [] [] []]; try done;
    rewrite Hdigit; f_equal; lia.
Qed.

Lemma parseInt_numberToString (n : Z) : 0 ≤ n → JS.parseInt (numberToString n) = Some n.
Proof.
  intros Hn. destruct (numberToString_digits n Hn) as (Hd & Hne & Hv).
  by rewrite parseInt_digits, Hv.
Qed.

Lemma allDigits_plain (s : string) :
  allDigits s = true →
  JS.splitCommas s = [s] ∧ JS.splitSpaces s = [s] ∧ JS.includes "-" s = false
  ∧ JS.startsWithSpace s = false.
Proof.
  induction s as [|c s IH]; [done|]. simpl.
  intros [Hc%bool_decide_eq_true Hs]%andb_true_iff.
  destruct (IH Hs) as (-> & -> & -> & _).
  destruct (is_nat_plain c Hc) as (-> & Hcomma & Hminus & _). simpl.
  by rewrite !decide_False by done.
Qed.

Lemma parseIndexList_number (k max : Z) :
  1 ≤ k ≤ max → parseIndexList (numberToString k) max = Some [k - 1].
Proof.
  intros Hk. destruct (numberToString_digits k) as (Hd & Hne & _); [lia|].
  destruct (allDigits_plain _ Hd) as (Hcommas & _ & Hminus & _).
  unfold parseIndexList. rewrite Hcommas. simpl. unfold addPart.
  rewrite decide_False by done. rewrite Hminus, parseInt_numberToString by lia.
  destruct (Z.leb_spec 1 k), (Z.leb_spec k max); try lia. done.
Qed.

Lemma filterIndex_delete {A} (k i : Z) (l : list A) :
  i ≤ k →
  filterIndex (λ j, negb (includesIndex [k] j)) i l = delete (Z.to_nat (k - i)) l.
Proof.
  revert i. induction l as [|x l IH]; intros i Hi; simpl; [done|].
  unfold includesIndex at 1. destruct (decide (i = k)) as [->|Hne].
  - rewrite bool_decide_eq_true_2 by (by left). simpl.
    replace (Z.to_nat (k - k)) with 0%nat by lia. simpl.
    apply filterIndex_all. intros j Hj. unfold includesIndex.
    rewrite negb_true_iff, bool_decide_eq_false.
    intros ->%list_elem_of_singleton. lia.
  - rewrite bool_decide_eq_false_2 by (by intros ->%list_elem_of_singleton).
    simpl. rewrite IH by lia.
    replace (Z.to_nat (k - i)) with (S (Z.to_nat (k - (i + 1)))) by lia. done.
Qed.

(** ** Strings without white space at their ends *)

Lemma rev_app_rev_app (s t u : string) :
  String.rev_app (String.rev_app s t) u = String.rev_app t (s +:+ u).
Proof.
  revert t u. induction s as [|a s IH]; intros t u; [done|].
  simpl. by rewrite IH.
Qed.

Lemma append_empty_r (s : string) : s +:+ "" = s.
Proof.
  induction s as [|a s IH]; [done|].
  change (String a (s +:+ "") = String a s). by rewrite IH.
Qed.

Lemma rev_involutive (s : string) : String.rev (String.rev s) = s.
Proof. unfold String.rev. rewrite rev_app_rev_app. exact (append_empty_r s). Qed.

Lemma trimStart_id (s : string) : JS.startsWithSpace s = false → JS.trimStart s = s.
Proof. destruct s as [|c s]; [done|]. simpl. by intros ->. Qed.

Lemma trim_id (s : string) :
  JS.startsWithSpace s = false → JS.startsWithSpace (String.rev s) = false →
  JS.trim s = s.
Proof.
  intros H1 H2. unfold JS.trim. rewrite (trimStart_id s H1), (trimStart_id _ H2).
  apply rev_involutive.
Qed.

Lemma rev_app_digits (ds t : string) :
  allDigits ds = true → JS.startsWithSpace t = false →
  JS.startsWithSpace (String.rev_app ds t) = false.
Proof.
  revert t. induction ds as [|a ds IH]; intros t; [done|]. simpl.
  intros [Ha%bool_decide_eq_true Hds]%andb_true_iff Ht. apply IH; [done|].
  simpl. by destruct (is_nat_plain a Ha) as [-> _].
Qed.

Lemma splitSpaces_cons (c : ascii) (s : string) :
  JS.splitSpaces (String c s)
  = if Ascii.is_space c
    then (if JS.startsWithSpace s then JS.splitSpaces s else "" :: JS.splitSpaces s)
    else JS.cons_head c (JS.splitSpaces s).
Proof. done. Qed.

(** A one-letter command, a space and a number make the command with that
    number as its argument. *)
Lemma isCommand_letter_number (c : ascii) (ds : string) :
  Ascii.is_space c = false → allDigits ds = true → ds ≠ "" →
  isCommand (String c (String " " ds)) (String c "") ds.
Proof.
  intros Hc Hds Hne.
  destruct (allDigits_head ds Hds Hne) as (a & ds' & -> & Ha & Hds').
  assert (JS.trim (String c (String " " (String a ds')))
          = String c (String " " (String a ds'))) as Htrim.
  { apply trim_id; [done|]. unfold String.rev. simpl.
    apply rev_app_digits; [done|]. simpl. by destruct (is_nat_plain a Ha) as [-> _]. }
  split; rewrite Htrim; [done|].
  destruct (allDigits_plain _ Hds) as (_ & Hspaces & _ & Hstart).
  unfold commandOf, JS.splitSpacesLimit.
  rewrite (splitSpaces_cons c), Hc, (splitSpaces_cons " ").
  cbn [Ascii.is_space]. rewrite Hstart, Hspaces. done.
Qed.

(** X8. The number [printSuggestions] prints in front of a suggestion is
    the number that selects it: the command [d] with that number deletes
    exactly that suggestion, the later ones moving up, and the command [e]
    with that number opens exactly that suggestion for editing. *)
Theorem shown_number_selects (lst : list Suggestion) (i : nat) (s : Suggestion) :
  lst !! i = Some s →
  let number := numberToString (Z.of_nat i + 1) in
  printSuggestions lst !! S i = Some (suggestionLine i s)
  ∧ (∃ rest, suggestionLine i s = number +:+ rest)
  ∧ isCommand ("d " +:+ number) "d" number
  ∧ isCommand ("e " +:+ number) "e" number
  ∧ (∀ answer, isCommand answer "d" number →
       ∃ out, step (Reviewing lst) answer = (Reviewing (delete i lst), out))
  ∧ (∀ answer, isCommand answer "e" number →
       step (Reviewing lst) answer
       = (Editing lst i s, [LogEditing (Z.of_nat i + 1) (s !! "suggestion")])).
Proof.
  intros Hi number.
  pose proof (lookup_lt_Some _ _ _ Hi) as Hlt.
  destruct (numberToString_digits (Z.of_nat i + 1)) as (Hd & Hne & _); [lia|].
  fold number in Hd, Hne.
  split; [|split; [|split; [|split; [|split]]]].
  - unfold printSuggestions. simpl. by rewrite list_lookup_imap, Hi.
  - by eexists.
  - by apply (isCommand_letter_number "d").
  - by apply (isCommand_letter_number "e").
  - intros answer Hcmd.
    assert (number ≠ "a") as Hnot_all by (intros Heq; by rewrite Heq in Hd).
    destruct (delete_step lst answer number [Z.of_nat i] Hcmd Hnot_all)
      as (out & -> & _).
    { unfold number. rewrite parseIndexList_number by lia. do 2 f_equal. lia. }
    exists out. do 2 f_equal.
    rewrite filterIndex_delete by lia. f_equal. lia.
  - intros answer Hcmd. cbn [step]. rewrite (command_e _ _ _ Hcmd).
    unfold number. rewrite parseInt_numberToString by lia. simpl.
    replace (Z.of_nat i + 1 - 1) with (Z.of_nat i) by lia.
    destruct (Z.ltb_spec (Z.of_nat i) 0); [lia|].
    destruct (Z.geb_spec (Z.of_nat i) (Z.of_nat (length lst))); [lia|]. simpl.
    by rewrite Nat2Z.id, Hi.
Qed.

Lemma shown_number_selects_witness :
  ∃ out, step (Reviewing Sample.suggestions) "d 2"
         = (Reviewing (delete 1%nat Sample.suggestions), out).
Proof.
  destruct (shown_number_selects Sample.suggestions 1
              (Sample.suggestion "tone" "Skills" "Prefer active verbs") eq_refl)
    as (_ & _ & Hd & _ & Hdelete & _).
  exact (Hdelete "d 2" Hd).
Defined.

(** ** The tailored CV *)

Section TailoredCV.

Context (localeCompare : string → string → Z).
Context (assessSkill : nat → string → Z * string).
Context (assessRole : nat → Role → Z * string).

Lemma withRelevance_items (n : nat) (items : list string) :
  item <$> withRelevance assessSkill n items = items.
Proof.
  revert n. induction items as [|x items IH]; intros n; simpl; [done|].
  destruct (assessSkill n x). simpl. by rewrite IH.
Qed.

Lemma topTen_of_profile (n : nat) (items : list string) :
  item <$> topTen (withRelevance assessSkill n items) ⊆+ items
  ∧ (length (item <$> topTen (withRelevance assessSkill n items)) ≤ 10)%nat
  ∧ ((length items ≤ 10)%nat →
     item <$> topTen (withRelevance assessSkill n items) ≡ₚ items).
Proof.
  unfold topTen. split; [|split].
  - rewrite <-(withRelevance_items n items) at 2. apply fmap_submseteq.
    etrans; [apply sublist_submseteq, sublist_take|]. by rewrite sort_perm.
  - rewrite length_fmap, length_take. lia.
  - intros Hlen. rewrite take_ge.
    + by rewrite sort_perm, withRelevance_items.
    + by rewrite sort_length, <-(length_fmap item), withRelevance_items.
Qed.

(** X9. The CV handed to the Document Composer carries the profile's
    personal details and qualifications unchanged; its skills (and
    likewise its achievements) are at most ten of the profile's, none
    invented and none repeated more often than in the profile, and all of
    them when the profile has no more than ten; an absent list gives an
    empty one. *)
Theorem tailoredCV_from_profile (cvBaseData : CvBaseData) :
  let cv := tailoredCV localeCompare assessSkill assessRole cvBaseData in
  let theSkills := default [] (skills cvBaseData) in
  let theAchievements := default [] (achievements cvBaseData) in
  cv_personalDetails cv = personalDetails cvBaseData
  ∧ cv_qualifications cv = qualifications cvBaseData
  ∧ cv_skills cv ⊆+ theSkills
  ∧ (length (cv_skills cv) ≤ 10)%nat
  ∧ ((length theSkills ≤ 10)%nat → cv_skills cv ≡ₚ theSkills)
  ∧ cv_achievements cv ⊆+ theAchievements
  ∧ (length (cv_achievements cv) ≤ 10)%nat
  ∧ ((length theAchievements ≤ 10)%nat → cv_achievements cv ≡ₚ theAchievements)
  ∧ length (cv_pastJobRoles cv) = length (default [] (pastJobRoles cvBaseData)).
Proof.
  simpl. split; [done|]. split; [done|].
  destruct (topTen_of_profile 0 (default [] (skills cvBaseData))) as (? & ? & ?).
  destruct (topTen_of_profile (length (default [] (skills cvBaseData)))
              (default [] (achievements cvBaseData))) as (? & ? & ?).
  repeat split; try done.
  by rewrite sort_length, rolesToInclude_length.
Qed.

Hypothesis localeCompare_total : ∀ a b, localeCompare a b ≤ 0 ∨ localeCompare b a ≤ 0.
Hypothesis localeCompare_trans :
  ∀ a b c, localeCompare a b ≤ 0 → localeCompare b c ≤ 0 → localeCompare a c ≤ 0.

(** X10. When the collation is a total preorder, the past roles of the
    CV are in descending order of start date: no role starts later than a
    role listed before it (a missing start date counts as the empty
    string). *)
Theorem pastJobRoles_by_start_date (cvBaseData : CvBaseData) :
  StronglySorted
    (λ earlierListed laterListed,
       localeCompare (default "" (laterListed !! "from"))
                     (default "" (earlierListed !! "from")) ≤ 0)
    (cv_pastJobRoles (tailoredCV localeCompare assessSkill assessRole cvBaseData)).
Proof.
  simpl. apply (sort_sorted (byStartDateDesc localeCompare)).
  - intros a b. unfold byStartDateDesc. apply localeCompare_total.
  - intros a b c. unfold byStartDateDesc. intros Hab Hbc.
    by eapply localeCompare_trans.
Qed.

End TailoredCV.

Lemma sample_localeCompare_le (a b : string) :
  Sample.localeCompare a b ≤ 0 ↔ String.le a b.
Proof.
  unfold Sample.localeCompare, String.le, String.leb.
  destruct (String.compare a b); simpl; split; (done || lia).
Qed.

Lemma pastJobRoles_by_start_date_witness :
  StronglySorted
    (λ earlierListed laterListed,
       Sample.localeCompare (default "" (laterListed !! "from"))
                            (default "" (earlierListed !! "from")) ≤ 0)
    (cv_pastJobRoles (tailoredCV Sample.localeCompare Sample.assessSkill
                                 Sample.assessRole Sample.cvBaseData)).
Proof.
  apply pastJobRoles_by_start_date.
  - intros a b. rewrite !sample_localeCompare_le. apply (total String.le).
  - intros a b c. rewrite !sample_localeCompare_le. apply (transitivity (R := String.le)).
Defined.

(** ** Every delay of the range can be drawn *)

Lemma randInt_mono (random1 random2 min max : Z) :
  min ≤ max → random1 ≤ random2 → randInt random1 min max ≤ randInt random2 min max.
Proof.
  intros Hmm Hr. unfold randInt.
  assert ((random1 * (max - min + 1)) `div` 2 ^ 53
          ≤ (random2 * (max - min + 1)) `div` 2 ^ 53); [|lia].
  apply Z.div_le_mono; [lia|nia].
Qed.

Lemma randInt_hits (min max d : Z) :
  min ≤ d ≤ max → max - min + 1 ≤ 2 ^ 53 →
  let n := max - min + 1 in
  let random := ((d - min) * 2 ^ 53 + n - 1) `div` n in
  0 ≤ random < 2 ^ 53 ∧ randInt random min max = d.
Proof.
  intros Hd Hn n random.
  assert (0 < n) as Hpos by (unfold n; lia).
  assert (random * n ≤ (d - min) * 2 ^ 53 + n - 1) as Hup.
  { unfold random. rewrite Z.mul_comm. apply Z.mul_div_le. lia. }
  assert ((d - min) * 2 ^ 53 + n - 1 < (random + 1) * n) as Hlow.
  { unfold random.
    pose proof (Z.mul_succ_div_gt ((d - min) * 2 ^ 53 + n - 1) n Hpos). lia. }
  assert (0 ≤ random) as H0.
  { unfold random. apply Z.div_pos; [|lia]. nia. }
  assert (random < 2 ^ 53) as Hlt.
  { assert (d - min ≤ n - 1) by (unfold n; lia).
    assert (random * n < 2 ^ 53 * n) by nia.
    nia. }
  split; [lia|]. unfold randInt. fold n.
  assert ((random * n) `div` 2 ^ 53 = d - min) as ->; [|lia].
  symmetry. apply (Z.div_unique_pos _ _ _ (random * n - (d - min) * 2 ^ 53)); lia.
Qed.

(** X11. [randInt] grows with the random number, and every integer of
    [min, max] is the result for some random number, provided the range
    holds no more than 2^53 integers: both ends of the configured range of
    days can be drawn. *)
Theorem randInt_covers_range (min max : Z) :
  min ≤ max → max - min + 1 ≤ 2 ^ 53 →
  (∀ random1 random2, random1 ≤ random2 →
     randInt random1 min max ≤ randInt random2 min max)
  ∧ randInt 0 min max = min
  ∧ randInt (2 ^ 53 - 1) min max = max
  ∧ (∀ d, min ≤ d ≤ max →
       ∃ random, 0 ≤ random < 2 ^ 53 ∧ randInt random min max = d).
Proof.
  intros Hmm Hn. split; [|split; [|split]].
  - intros r1 r2. by apply randInt_mono.
  - unfold randInt. rewrite Z.mul_0_l, Z.div_0_l by lia. lia.
  - destruct (randInt_hits min max max) as [Hr Hmax]; [lia|done|].
    simpl in Hr, Hmax. apply Z.le_antisymm.
    + apply randInt_range; lia.
    + rewrite <-Hmax at 1. apply randInt_mono; lia.
  - intros d Hd. destruct (randInt_hits min max d Hd Hn) as [Hr Heq].
    by eexists.
Qed.

Lemma randInt_covers_range_witness :
  randInt 0 30 90 = 30 ∧ randInt (2 ^ 53 - 1) 30 90 = 90.
Proof.
  destruct (randInt_covers_range 30 90) as (_ & Hmin & Hmax & _); [lia..|].
  split; [exact Hmin|exact Hmax].
Defined.

(** ** One attempt *)

Lemma randInt_range_any (random min max : Z) :
  0 ≤ random < 2 ^ 53 →
  Z.min min (max + 1) ≤ randInt random min max ≤ Z.max min max.
Proof.
  intros Hr. destruct (decide (min ≤ max)) as [Hle|Hgt].
  { pose proof (randInt_range random min max Hr Hle). lia. }
  unfold randInt.
  assert (max - min + 1 ≤ (random * (max - min + 1)) `div` 2 ^ 53 ≤ 0) as H.
  { split.
    - apply Z.div_le_lower_bound; [lia|nia].
    - apply Z.div_le_upper_bound; [lia|nia]. }
  lia.
Qed.

(** While the days are few enough for the products to be exact, the date
    is the exact sum when a Date can hold it. *)
Lemma dateAfterDays_exact (now days : Z) :
  Z.abs now ≤ 8640000000000000 → Z.abs days ≤ 100000000 →
  dateAfterDays now days
  = if Z.abs (now + days * 86400000) <=? 8640000000000000
    then Some (now + days * 86400000) else None.
Proof.
  intros Hnow Hdays. unfold dateAfterDays, timesDouble. simpl.
  rewrite (roundToDouble_small (days * 24)) by lia. simpl.
  rewrite (roundToDouble_small (days * 24 * 60)) by lia. simpl.
  rewrite (roundToDouble_small (days * 24 * 60 * 60)) by lia. simpl.
  rewrite (roundToDouble_small (days * 24 * 60 * 60 * 1000)) by lia. simpl.
  replace (days * 24 * 60 * 60 * 1000) with (days * 86400000) by lia.
  destruct (Z.leb_spec (Z.abs (now + days * 86400000)) 8640000000000000) as [Hin|Hout].
  - rewrite roundToDouble_small by lia. simpl.
    by destruct (Z.leb_spec (Z.abs (now + days * 86400000)) 8640000000000000);
      [|lia].
  - destruct (JS.roundToDouble (now + days * 86400000)) as [t|] eqn:Ht; [|done].
    simpl. destruct (Z.leb_spec (Z.abs t) 8640000000000000) as [Hsmall|]; [|done].
    destruct (decide (Z.abs (now + days * 86400000) < 2 ^ 53)) as [Hexact|Hbig].
    + rewrite roundToDouble_small in Ht by lia. injection Ht as <-. lia.
    + assert (2 ^ 53 ≤ Z.abs t)
        by (apply (roundToDouble_big (now + days * 86400000)); [lia|done]).
      lia.
Qed.

Section RunOnceProperties.

Context (localeCompare : string → string → Z).
Context (assessSkill : nat → string → Z * string).
Context (assessRole : nat → Role → Z * string).
Context (composeCVMarkdown : CV → string).
Context (suggestCVImprovements : string → option (list Suggestion)).
Context (applyCVEdits : string → list Suggestion → string).
Context (fetchJobDescription : string → string).
Context (applicationStillOpen : string → bool).
Context (draftCoveringLetter : CvBaseData → string → string → string).

(** X12. An attempt that resolves never reports that the job was got.
    When applications are closed it ends after the two queries about the
    job, without drafting anything, and schedules nothing ([nextRun] is
    null). When they are open it drafts the CV, then the letter, prints
    both, and picks a whole number of days between the bounds in force
    for [minReapplyDays] and [maxReapplyDays] (from the upper bound plus
    one to the lower when they are the wrong way round); its [nextRun] is
    now plus these days when a Date can hold that time, which is at most
    8.64e15 ms from the epoch, and otherwise the attempt throws a
    RangeError after printing. *)
Theorem runOnce_outcome (job notes : string) (cvBaseData : CvBaseData)
    (jobCfg : JobCfg) (answers : list string) (now random lo hi : Z)
    (outcome : result Attempt) (actions : list action) :
  0 ≤ random < 2 ^ 53 →
  effective (minReapplyDays jobCfg) 30 lo →
  effective (maxReapplyDays jobCfg) 90 hi →
  runOnce localeCompare assessSkill assessRole composeCVMarkdown
          suggestCVImprovements applyCVEdits fetchJobDescription
          applicationStillOpen draftCoveringLetter
          job notes cvBaseData jobCfg answers now random
  = (Some outcome, actions) →
  let before :=
    [ReadNotes; ReadCvBase; FetchJobDescription job; ApplicationStillOpen job] in
  (∀ res, outcome = Ok res →
          gotJob res = false ∧ jobDescription res = fetchJobDescription job)
  ∧ (applicationStillOpen job = false →
     outcome = Ok {| gotJob := false; nextRun := None;
                     jobDescription := fetchJobDescription job |}
     ∧ actions = before)
  ∧ (applicationStillOpen job = true →
     ∃ days calls cv,
       Z.min lo (hi + 1) ≤ days ≤ Z.max lo hi
       ∧ (lo ≤ hi → lo ≤ days ≤ hi)
       ∧ outcome
         = match dateAfterDays now days with
           | Some next => Ok {| gotJob := false; nextRun := Some next;
                                jobDescription := fetchJobDescription job |}
           | None => Err RangeError
           end
       ∧ (Z.abs now ≤ 8640000000000000 → Z.abs days ≤ 100000000 →
          dateAfterDays now days
          = if Z.abs (now + days * 86400000) <=? 8640000000000000
            then Some (now + days * 86400000) else None)
       ∧ draftCV localeCompare assessSkill assessRole composeCVMarkdown
                 suggestCVImprovements applyCVEdits cvBaseData answers
         = (Some cv, calls)
       ∧ actions
         = before ++ [DraftCV calls;
                      DraftCoveringLetter (fetchJobDescription job);
                      PrintLetterAndCV
                        (draftCoveringLetter cvBaseData notes
                           (fetchJobDescription job)) cv]).
Proof.
  intros Hr Hlo Hhi. unfold runOnce.
  destruct (applicationStillOpen job); simpl.
  - destruct (draftCV _ _ _ _ _ _ _ _) as [[cv|] calls] eqn:Hdraft; [|done].
    intros Hrun.
    assert (outcome
            = match dateAfterDays now (reapplyDays jobCfg random) with
              | Some next => Ok {| gotJob := false; nextRun := Some next;
                                   jobDescription := fetchJobDescription job |}
              | None => Err RangeError
              end
            ∧ actions
              = [ReadNotes; ReadCvBase; FetchJobDescription job;
                 ApplicationStillOpen job; DraftCV calls;
                 DraftCoveringLetter (fetchJobDescription job);
                 PrintLetterAndCV
                   (draftCoveringLetter cvBaseData notes (fetchJobDescription job))
                   cv]) as [Hout Hact].
    { destruct (dateAfterDays now (reapplyDays jobCfg random));
        by injection Hrun as <- <-. }
    split; [|split; [done|]].
    + intros res Hres. rewrite Hres in Hout.
      destruct (dateAfterDays now (reapplyDays jobCfg random)); [|done].
      by injection Hout as ->.
    + intros _. exists (reapplyDays jobCfg random), calls, cv.
      assert (Z.min lo (hi + 1) ≤ reapplyDays jobCfg random ≤ Z.max lo hi) as Hdays.
      { unfold reapplyDays.
        rewrite (orDefault_effective _ _ _ Hlo), (orDefault_effective _ _ _ Hhi).
        by apply randInt_range_any. }
      split; [done|]. split; [lia|]. split; [done|].
      split; [apply dateAfterDays_exact|]. done.
  - intros [= <- <-]. split; [by intros res [= <-]|]. split; [done|]. by intros [=].
Qed.

End RunOnceProperties.

Lemma runOnce_outcome_witness :
  ∃ outcome actions,
    runOnce Sample.localeCompare Sample.assessSkill Sample.assessRole
            Sample.composeCVMarkdown Sample.noImprovements Sample.applyCVEdits
            Sample.fetchJobDescription Sample.applicationStillOpen
            Sample.draftCoveringLetter
            "Head of Data" "notes" Sample.cvBaseData Sample.jobCfg [] 0 (2 ^ 52)
    = (Some outcome, actions)
    ∧ ∀ res, outcome = Ok res → gotJob res = false.
Proof.
  eexists _, _. split; [reflexivity|]. intros res Hres.
  refine (proj1 (proj1 (runOnce_outcome Sample.localeCompare Sample.assessSkill
                   Sample.assessRole Sample.composeCVMarkdown Sample.noImprovements
                   Sample.applyCVEdits Sample.fetchJobDescription
                   Sample.applicationStillOpen Sample.draftCoveringLetter
                   "Head of Data" "notes" Sample.cvBaseData Sample.jobCfg [] 0
                   (2 ^ 52) 14 90 _ _ _ _ _ eq_refl) res Hres)).
  - lia.
  - left. split; [reflexivity|lia].
  - right. split; [left; reflexivity|reflexivity].
Defined.

(** ** The attempts of a run *)

Section LoopProperties.

Context (runOnceResult : Z → result Attempt) (clock : Z → Z).
Context (argv : Argv) (maxA : Z).

Local Abbreviation loop := (loop runOnceResult clock argv maxA).

Lemma loop_shape (fuel : nat) (a : Z) :
  attemptsOf (loop fuel a) = seqZ (a + 1) (Z.of_nat (length (attemptsOf (loop fuel a))))
  ∧ Z.of_nat (length (attemptsOf (loop fuel a))) ≤ Z.max 1 (maxA - a)
  ∧ Forall (λ ms, 1000 ≤ ms) (sleepsOf (loop fuel a))
  ∧ (length (sleepsOf (loop fuel a)) ≤ length (attemptsOf (loop fuel a)))%nat.
Proof.
  revert a. induction fuel as [|fuel IH]; intros a.
  { simpl. repeat split; [lia|constructor|lia]. }
  simpl.
  destruct (runOnceResult (a + 1)) as [res|e]; simpl.
  2: { repeat split; [lia|constructor|lia]. }
  destruct (gotJob res); simpl.
  { repeat split; [lia|constructor|lia]. }
  destruct (Z.geb_spec (a + 1) maxA); simpl.
  { repeat split; [lia|constructor|lia]. }
  destruct (argv_once argv); simpl.
  { repeat split; [lia|constructor|lia]. }
  destruct (argv_daemon argv); simpl.
  2: { repeat split; [lia|constructor|lia]. }
  destruct (IH (a + 1)) as (Hseq & Hlen & Hsleep & Hcount).
  split; [|split; [|split]].
  - rewrite (seqZ_cons (a + 1)) by lia. f_equal.
    rewrite Hseq at 1. f_equal; lia.
  - lia.
  - constructor; [lia|done].
  - lia.
Qed.

Lemma loop_ends (fuel : nat) (a : Z) :
  Z.max 1 (maxA - a) ≤ Z.of_nat fuel →
  ∃ before final, loop fuel a = before ++ [final] ∧ isFinal final.
Proof.
  revert a. induction fuel as [|fuel IH]; intros a Hfuel; [lia|]. simpl.
  destruct (runOnceResult (a + 1)) as [res|e]; simpl.
  2: { exists [Attempted (a + 1)], (Exited 1). split; [done|]. right. by right. }
  destruct (gotJob res); simpl.
  { exists [Attempted (a + 1)], (Exited 0). split; [done|]. right. by left. }
  destruct (Z.geb_spec (a + 1) maxA); simpl.
  { exists [Attempted (a + 1)], (Exited 0). split; [done|]. right. by left. }
  destruct (argv_once argv); simpl.
  { exists [Attempted (a + 1)], (Exited 0). split; [done|]. right. by left. }
  destruct (argv_daemon argv); simpl.
  2: { exists [Attempted (a + 1)], (Exited 0). split; [done|]. right. by left. }
  destruct (IH (a + 1)) as (before & final & -> & Hfinal); [lia|].
  by eexists (_ :: _ :: before), final.
Qed.

Lemma loop_fuel_enough (fuel1 fuel2 : nat) (a : Z) :
  Z.max 1 (maxA - a) ≤ Z.of_nat fuel1 → Z.max 1 (maxA - a) ≤ Z.of_nat fuel2 →
  loop fuel1 a = loop fuel2 a.
Proof.
  revert fuel2 a. induction fuel1 as [|fuel1 IH]; intros [|fuel2] a H1 H2; try lia.
  simpl. destruct (runOnceResult (a + 1)) as [res|e]; [|done].
  destruct (gotJob res); [done|].
  destruct (Z.geb_spec (a + 1) maxA); simpl; [done|].
  destruct (argv_once argv); simpl; [done|].
  destruct (argv_daemon argv); simpl; [|done].
  do 2 f_equal. apply IH; lia.
Qed.

End LoopProperties.

Section MainProperties.

Context (runOnceResult : Z → result Attempt) (clock : Z → Z).

(** X13. Whatever the attempts return, a run numbers its attempts 1, 2,
    3, ... without a gap, makes no more of them than [maxAttempts] (3 when
    the configuration has none) and at least room for one, and sets a
    timer no more often than it attempts. The delay it hands to
    [setTimeout] is never below 1000 ms; the timer runs that long when the
    delay is at most 2^31 - 1 ms, and 1 ms when it is more. *)
Theorem main_attempts_bounded (apiKey : option string) (argv : Argv)
    (jobCfg : JobCfg) (cfgJob : option string) (fuel : nat) :
  let trace := main runOnceResult clock apiKey argv jobCfg cfgJob fuel in
  attemptsOf trace = seqZ 1 (Z.of_nat (length (attemptsOf trace)))
  ∧ Z.of_nat (length (attemptsOf trace)) ≤ Z.max 1 (default 3 (maxAttempts jobCfg))
  ∧ Forall (λ delay,
              1000 ≤ delay
              ∧ timerDuration delay = if delay <=? 2147483647 then delay else 1)
           (sleepsOf trace)
  ∧ (length (sleepsOf trace) ≤ length (attemptsOf trace))%nat.
Proof.
  assert (∀ delays, Forall (λ ms, 1000 ≤ ms) delays →
            Forall (λ delay,
                      1000 ≤ delay
                      ∧ timerDuration delay
                        = if delay <=? 2147483647 then delay else 1) delays)
    as Htimer.
  { intros delays Hdelays. eapply Forall_impl; [exact Hdelays|].
    intros delay Hdelay. simpl in Hdelay. split; [done|].
    unfold timerDuration. destruct (Z.leb_spec 1 delay); [done|lia]. }
  unfold main. destruct (orString apiKey None); simpl.
  2: { repeat split; [lia|constructor|lia]. }
  destruct (orString (argv_job argv) cfgJob) as [[|c job]|]; simpl.
  1, 3: repeat split; [lia|constructor|lia].
  destruct (argv_daemon argv || daemon jobCfg).
  - pose proof (loop_shape runOnceResult clock argv
                  (default 3 (maxAttempts jobCfg)) fuel 0) as H.
    rewrite Z.sub_0_r in H. destruct H as (H1 & H2 & H3 & H4).
    repeat split; [done..|by apply Htimer|done].
  - destruct (runOnceResult 1); simpl; repeat split; try lia; constructor.
Qed.

(** The delays of the sample run, the 30 days of the sample attempts, and
    the 45 days the loop falls back on are beyond what a timer holds. *)
Example long_delays_run_a_millisecond :
  timerDuration 2592000000 = 1 ∧ timerDuration (45 * 24 * 3600 * 1000) = 1
  ∧ timerDuration 2147483647 = 2147483647 ∧ timerDuration 1000 = 1000.
Proof. repeat split. Qed.

(** X14. A run ends: called back as often as [maxAttempts] allows, the
    loop reaches [process.exit] (or [main] returns with nothing pending),
    and this event is the last of the run, however much longer the process
    were left to run. *)
Theorem main_ends (apiKey : option string) (argv : Argv) (jobCfg : JobCfg)
    (cfgJob : option string) (fuel : nat) :
  Z.max 1 (default 3 (maxAttempts jobCfg)) ≤ Z.of_nat fuel →
  (∃ before final,
     main runOnceResult clock apiKey argv jobCfg cfgJob fuel = before ++ [final]
     ∧ isFinal final)
  ∧ (∀ more, main runOnceResult clock apiKey argv jobCfg cfgJob (fuel + more)
             = main runOnceResult clock apiKey argv jobCfg cfgJob fuel).
Proof.
  intros Hfuel. unfold main. destruct (orString apiKey None); simpl.
  2: { split; [|done]. exists [], (Exited 1). split; [done|]. right. by right. }
  destruct (orString (argv_job argv) cfgJob) as [[|c job]|]; simpl.
  1, 3: split; [|done]; exists [], (Exited 1); split; [done|]; right; by right.
  destruct (argv_daemon argv || daemon jobCfg).
  - split.
    + apply loop_ends. by rewrite Z.sub_0_r.
    + intros more. apply loop_fuel_enough; rewrite Z.sub_0_r; lia.
  - split; [|done]. destruct (runOnceResult 1).
    + exists [Attempted 1], Ended. split; [done|]. by left.
    + exists [Attempted 1], (Exited 1). split; [done|]. right. by right.
Qed.

(** X15. Without [--daemon] on the command line, or with [--once], a run
    makes exactly one attempt and never waits, also when
    [job.config.json] sets [daemon]; and with no API key or no job it
    makes no attempt and exits with code 1. *)
Theorem main_single_attempt (apiKey : option string) (argv : Argv)
    (jobCfg : JobCfg) (cfgJob : option string) (fuel : nat) :
  let trace := main runOnceResult clock apiKey argv jobCfg cfgJob (S fuel) in
  ((orString apiKey None = None
    ∨ orString (argv_job argv) cfgJob = None
    ∨ orString (argv_job argv) cfgJob = Some "") →
   trace = [Exited 1])
  ∧ (∀ key c job,
       orString apiKey None = Some key →
       orString (argv_job argv) cfgJob = Some (String c job) →
       argv_daemon argv = false ∨ argv_once argv = true →
       attemptsOf trace = [1] ∧ sleepsOf trace = []).
Proof.
  unfold main. split.
  - intros [->|[->| ->]]; [done|by destruct (orString apiKey None)..].
  - intros key c job -> -> Hflags. simpl.
    destruct (argv_daemon argv || daemon jobCfg); [|by destruct (runOnceResult 1)].
    simpl. destruct (runOnceResult (0 + 1)) as [res|e]; simpl; [|done].
    destruct (gotJob res); simpl; [done|].
    destruct Hflags as [-> | ->]; simpl; by rewrite !orb_true_r.
Qed.

(** X16. With [--daemon] and without [--once], while no attempt gets the
    job or fails, a run makes exactly [maxAttempts] attempts (one when
    [maxAttempts] is below one), waits once between two attempts, and
    then exits with code 0. *)
Theorem main_daemon_retries (apiKey cfgJob : option string) (key job : string)
    (c : ascii) (argv : Argv) (jobCfg : JobCfg) (fuel : nat) :
  let limit := Z.max 1 (default 3 (maxAttempts jobCfg)) in
  orString apiKey None = Some key →
  orString (argv_job argv) cfgJob = Some (String c job) →
  argv_daemon argv = true → argv_once argv = false →
  (∀ k, 1 ≤ k ≤ limit → ∃ res, runOnceResult k = Ok res ∧ gotJob res = false) →
  limit ≤ Z.of_nat fuel →
  let trace := main runOnceResult clock apiKey argv jobCfg cfgJob fuel in
  attemptsOf trace = seqZ 1 limit
  ∧ Z.of_nat (length (sleepsOf trace)) = limit - 1
  ∧ last trace = Some (Exited 0).
Proof.
  intros limit Hkey Hjob Hdaemon Honce Hres Hfuel. unfold main.
  rewrite Hkey, Hjob. simpl. rewrite Hdaemon. simpl.
  set (maxA := default 3 (maxAttempts jobCfg)) in *.
  assert (∀ a, 0 ≤ a → a + 1 ≤ limit → Z.max 1 (maxA - a) ≤ Z.of_nat fuel →
            attemptsOf (loop runOnceResult clock argv maxA fuel a)
            = seqZ (a + 1) (limit - a)
            ∧ Z.of_nat (length (sleepsOf (loop runOnceResult clock argv maxA fuel a)))
              = limit - a - 1
            ∧ last (loop runOnceResult clock argv maxA fuel a) = Some (Exited 0))
    as Hloop.
  { clear Hfuel. induction fuel as [|fuel IH]; intros a Ha Hlim Hfuel; [lia|]. simpl.
    destruct (Hres (a + 1)) as (res & -> & ->); [lia|]. simpl.
    rewrite Honce, Hdaemon. simpl. rewrite orb_false_r.
    destruct (Z.geb_spec (a + 1) maxA) as [Hge|Hlt]; simpl.
    - assert (limit - a = 1) as -> by (unfold limit in *; lia). done.
    - destruct (IH (a + 1)) as (Hseq & Hsleep & Hlast); [lia|unfold limit; lia|lia|].
      split; [|split].
      + rewrite (seqZ_cons (a + 1)) by (unfold limit; lia). f_equal.
        rewrite Hseq. f_equal; lia.
      + lia.
      + rewrite <-Hlast. by destruct (loop runOnceResult clock argv maxA fuel (a + 1)). }
  destruct (Hloop 0) as (H1 & H2 & H3); [lia|unfold limit; lia|by rewrite Z.sub_0_r|].
  rewrite Z.sub_0_r in H1, H2. split; [done|]. split; [lia|done].
Qed.

End MainProperties.

Lemma main_ends_witness :
  ∃ before final,
    main Sample.runOnceResult Sample.clock (Some "sk-sample") Sample.argvDaemon
         Sample.jobCfg None 3
    = before ++ [final] ∧ isFinal final.
Proof.
  refine (proj1 (main_ends Sample.runOnceResult Sample.clock (Some "sk-sample")
                   Sample.argvDaemon Sample.jobCfg None 3 _)).
  simpl. lia.
Defined.

Lemma main_daemon_retries_witness :
  attemptsOf (main Sample.runOnceResult Sample.clock (Some "sk-sample")
                   Sample.argvDaemon Sample.jobCfg None 3)
  = [1; 2; 3].
Proof.
  refine (proj1 (main_daemon_retries Sample.runOnceResult Sample.clock
                   (Some "sk-sample") None "sk-sample" "ead of Data" "H"
                   Sample.argvDaemon Sample.jobCfg 3 _ _ _ _ _ _));
    try reflexivity; first [intros k _; by eexists | simpl; lia].
Defined.

(** The sample run: three attempts, a wait of thirty days after the first
    two, then exit. *)
Example sample_run :
  main Sample.runOnceResult Sample.clock (Some "sk-sample") Sample.argvDaemon
       Sample.jobCfg None 5
  = [Attempted 1; SetTimeout 2592000000; Attempted 2; SetTimeout 2592000000;
     Attempted 3; Exited 0].
Proof. reflexivity. Qed.

(** ** Deleting a range *)

Lemma splitChar_digits (s : string) : allDigits s = true → JS.splitChar "-" s = [s].
Proof.
  induction s as [|c s IH]; [done|]. simpl.
  intros [Hc%bool_decide_eq_true Hs]%andb_true_iff.
  destruct (is_nat_plain c Hc) as (_ & _ & Hminus & _).
  by rewrite decide_False, IH.
Qed.

Lemma range_plain (ds1 ds2 : string) :
  allDigits ds1 = true → allDigits ds2 = true →
  JS.splitCommas (ds1 +:+ String "-" ds2) = [ds1 +:+ String "-" ds2]
  ∧ JS.includes "-" (ds1 +:+ String "-" ds2) = true
  ∧ JS.splitChar "-" (ds1 +:+ String "-" ds2) = [ds1; ds2].
Proof.
  intros H1 H2. induction ds1 as [|c ds1 IH].
  - change ("" +:+ String "-" ds2) with (String "-" ds2). simpl.
    destruct (allDigits_plain ds2 H2) as (-> & _). by rewrite splitChar_digits.
  - simpl in H1. apply andb_true_iff in H1 as [Hc%bool_decide_eq_true H1].
    destruct (IH H1) as (IHa & IHb & IHc).
    destruct (is_nat_plain c Hc) as (Hsp & Hcomma & Hminus & _).
    change (String c ds1 +:+ String "-" ds2)
      with (String c (ds1 +:+ String "-" ds2)).
    simpl. rewrite IHa, IHb, IHc, Hsp. simpl.
    by rewrite !decide_False by done.
Qed.

Lemma append_nonempty_r (s t : string) : t ≠ "" → s +:+ t ≠ "".
Proof. destruct s; [done|]. by intros _. Qed.

Lemma filterIndex_range {A} (p : Z → bool) (lo hi i : Z) (l : list A) :
  lo ≤ hi →
  (∀ j, i ≤ j < i + Z.of_nat (length l) → p j = false ↔ lo ≤ j < hi) →
  filterIndex p i l = take (Z.to_nat (lo - i)) l ++ drop (Z.to_nat (hi - i)) l.
Proof.
  intros Hle. revert i. induction l as [|x l IH]; intros i Hp.
  { by rewrite take_nil, drop_nil. }
  simpl. rewrite (IH (i + 1)) by (intros j Hj; apply Hp; simpl; lia).
  pose proof (Hp i ltac:(simpl; lia)) as Hi. destruct (p i).
  - assert (¬ (lo ≤ i < hi)) as Hout by (intros H; by apply Hi in H).
    destruct (decide (i < lo)) as [Hlt|Hge].
    + replace (Z.to_nat (lo - i)) with (S (Z.to_nat (lo - (i + 1)))) by lia.
      replace (Z.to_nat (hi - i)) with (S (Z.to_nat (hi - (i + 1)))) by lia.
      done.
    + replace (Z.to_nat (lo - i)) with 0%nat by lia.
      replace (Z.to_nat (hi - i)) with 0%nat by lia.
      replace (Z.to_nat (lo - (i + 1))) with 0%nat by lia.
      replace (Z.to_nat (hi - (i + 1))) with 0%nat by lia. done.
  - assert (lo ≤ i < hi) as Hin by (by apply Hi).
    replace (Z.to_nat (lo - i)) with 0%nat by lia.
    replace (Z.to_nat (lo - (i + 1))) with 0%nat by lia.
    replace (Z.to_nat (hi - i)) with (S (Z.to_nat (hi - (i + 1)))) by lia.
    done.
Qed.

(** ** The range loop on doubles *)

(** Below 2^53 the loop takes one turn for each [i] of the range and
    ends. *)
Lemma forLoop_small (max end_ : Z) (n : nat) :
  end_ < 2 ^ 53 →
  ∀ (start : Z) (set : list Z) (fuel : nat),
    0 ≤ start → Z.to_nat (end_ - start + 1) = n → (n < fuel)%nat →
    forLoop fuel max start end_ set = Some (addRange max start end_ set).
Proof.
  intros Hend. induction n as [|n IH]; intros start set fuel Hstart Hn Hfuel;
    (destruct fuel as [|fuel]; [lia|]); simpl; unfold addRange.
  - destruct (Z.leb_spec start end_); [lia|].
    by rewrite seqZ_nil by lia.
  - destruct (Z.leb_spec start end_); [|lia].
    rewrite roundToDouble_exact by lia.
    rewrite seqZ_cons by lia. simpl.
    rewrite (IH (start + 1)) by lia. unfold addRange. do 3 f_equal; lia.
Qed.

(** A loop at an [i] that [i += 1] leaves where it is never ends. *)
Lemma forLoop_stuck (max i end_ : Z) (fuel : nat) (set : list Z) :
  JS.roundToDouble (i + 1) = Some i → i ≤ end_ →
  forLoop fuel max i end_ set = None.
Proof.
  intros Hstuck Hi. revert set. induction fuel as [|fuel IH]; intros set; [done|].
  simpl. destruct (Z.leb_spec i end_); [|lia]. by rewrite Hstuck.
Qed.

(** A loop that starts below 2^53 and has to go to 2^53 or beyond comes
    to 2^53 and stays there. *)
Lemma forLoop_to_stuck (max i end_ : Z) (fuel : nat) (set : list Z) :
  0 ≤ i ≤ 2 ^ 53 → 2 ^ 53 ≤ end_ → forLoop fuel max i end_ set = None.
Proof.
  intros Hi Hend. revert i set Hi.
  induction fuel as [|fuel IH]; intros i set Hi; [done|].
  simpl. destruct (Z.leb_spec i end_); [|lia].
  destruct (decide (i = 2 ^ 53)) as [->|Hne].
  - replace (JS.roundToDouble (2 ^ 53 + 1)) with (Some (2 ^ 53)) by (by vm_compute).
    by apply IH.
  - rewrite roundToDouble_exact by lia. apply IH. lia.
Qed.

(** The loop on doubles is what [forRange] says: it ends with the set
    [forRange] gives, after a number of turns that no further fuel
    changes, or it never ends. *)
Lemma forRange_forLoop (max start end_ : Z) (set : list Z) :
  0 ≤ start ≤ end_ → isDouble start → isDouble end_ →
  match forRange max start end_ set with
  | Some set' =>
      ∃ turns : nat,
        ∀ fuel, (turns ≤ fuel)%nat → forLoop fuel max start end_ set = Some set'
  | None => ∀ fuel, forLoop fuel max start end_ set = None
  end.
Proof.
  intros Hrange Hstart Hend. unfold forRange.
  destruct (Z.ltb_spec end_ (2 ^ 53)) as [Hsmall|Hbig].
  { exists (S (Z.to_nat (end_ - start + 1))). intros fuel Hfuel.
    apply (forLoop_small max end_ (Z.to_nat (end_ - start + 1)) Hsmall);
      [lia|done|lia]. }
  destruct (decide (start < 2 ^ 53)) as [Hlow|Hhigh].
  { rewrite bool_decide_eq_false_2 by lia. simpl.
    intros fuel. apply forLoop_to_stuck; lia. }
  pose proof (roundToDouble_succ start ltac:(lia) Hstart) as Hsucc.
  pose proof (double_even start ltac:(lia) Hstart) as Heven.
  destruct ((start <? 2 ^ 54) && Z.odd (start `div` 2)) eqn:Hodd.
  2: { assert (∀ fuel, forLoop fuel max start end_ set = None) as Hnone.
       { intros fuel. apply forLoop_stuck; [done|lia]. }
       case_bool_decide as Heq; simpl; [|done]. subst end_.
       apply andb_false_iff in Hodd.
       destruct (start <? 2 ^ 54), (Z.odd (start `div` 2)); simpl; try done;
         by destruct Hodd. }
  apply andb_true_iff in Hodd as [Hlt%Z.ltb_lt Hq].
  case_bool_decide as Heq; simpl.
  - subst end_. destruct (Z.ltb_spec start (2 ^ 54)); [|lia]. rewrite Hq. simpl.
    exists 2%nat. intros [|[|fuel]] Hfuel; [lia..|]. simpl.
    destruct (Z.leb_spec start start); [|lia]. rewrite Hsucc.
    by destruct (Z.leb_spec (start + 2) start); [lia|].
  - pose proof (double_even end_ Hbig Hend) as Heven_end.
    apply Z.even_spec in Heven as [q Hstart2].
    apply Z.even_spec in Heven_end as [q' Hend2].
    assert (isDouble (start + 2)) as Hnext.
    { apply double_from_even; [lia|]. rewrite Hstart2.
      replace (2 * q + 2) with (2 * (q + 1)) by lia.
      by rewrite Z.even_mul. }
    pose proof (roundToDouble_succ (start + 2) ltac:(lia) Hnext) as Hsucc2.
    replace ((start + 2) `div` 2) with (start `div` 2 + 1) in Hsucc2.
    2: { rewrite Hstart2. replace (2 * q + 2) with ((q + 1) * 2) by lia.
         replace (2 * q) with (q * 2) by lia. by rewrite !Z.div_mul by lia. }
    rewrite Z.odd_add, Hq, andb_false_r in Hsucc2. simpl in Hsucc2.
    intros [|fuel]; [done|]. simpl.
    destruct (Z.leb_spec start end_); [|lia]. rewrite Hsucc.
    apply forLoop_stuck; [done|lia].
Qed.

(** X22. The range loop of [parseIndexList], run turn by turn on the
    doubles that [parseInt] gives for two numbers written without a sign,
    does what [forRange] says: it ends with the set [forRange] gives, or
    never ends. It ends whenever the larger number is below 2^53, and
    never when it is 2^54 or more. *)
Theorem range_loop_on_doubles (max a b a' b' : Z) (set : list Z) :
  0 ≤ a → 0 ≤ b →
  JS.roundToDouble a = Some a' → JS.roundToDouble b = Some b' →
  let start := Z.min a' b' in
  let end_ := Z.max a' b' in
  match forRange max start end_ set with
  | Some set' =>
      ∃ turns : nat,
        ∀ fuel, (turns ≤ fuel)%nat → forLoop fuel max start end_ set = Some set'
  | None => ∀ fuel, forLoop fuel max start end_ set = None
  end
  ∧ (end_ < 2 ^ 53 → forRange max start end_ set = Some (addRange max start end_ set))
  ∧ (2 ^ 54 ≤ end_ → forRange max start end_ set = None).
Proof.
  intros Ha Hb Hra Hrb start end_.
  destruct (roundToDouble_isDouble a a' Ha Hra) as [Ha' Hda].
  destruct (roundToDouble_isDouble b b' Hb Hrb) as [Hb' Hdb].
  split; [|split].
  - apply forRange_forLoop.
    + unfold start, end_. lia.
    + unfold start. by destruct (Z.min_spec a' b') as [[_ ->]|[_ ->]].
    + unfold end_. by destruct (Z.max_spec a' b') as [[_ ->]|[_ ->]].
  - apply forRange_small.
  - intros Hend. unfold forRange.
    destruct (Z.ltb_spec end_ (2 ^ 53)); [lia|].
    destruct (Z.ltb_spec end_ (2 ^ 54)); [lia|]. by rewrite andb_false_r.
Qed.

Lemma range_loop_on_doubles_witness :
  forRange 3 2 9007199254740992 [] = None
  ∧ forLoop 100 3 2 9007199254740992 [] = None.
Proof.
  destruct (range_loop_on_doubles 3 2 9007199254740993 2 9007199254740992 [])
    as (Hloop & _ & _); [lia|lia|by vm_compute..|].
  change (Z.min 2 9007199254740992) with 2 in Hloop.
  change (Z.max 2 9007199254740992) with 9007199254740992 in Hloop.
  assert (forRange 3 2 9007199254740992 [] = None) as Hnone by (by vm_compute).
  rewrite Hnone in Hloop. split; [done|apply Hloop].
Defined.

(** ** Written entries *)

Lemma plain_app (s t : string) : plain (s +:+ t) = plain s && plain t.
Proof.
  induction s as [|c s IH]; [done|].
  change (String c s +:+ t) with (String c (s +:+ t)). simpl.
  by rewrite IH, !andb_assoc.
Qed.

Lemma noSpace_app (s t : string) : noSpace (s +:+ t) = noSpace s && noSpace t.
Proof.
  induction s as [|c s IH]; [done|].
  change (String c s +:+ t) with (String c (s +:+ t)). simpl.
  by rewrite IH, !andb_assoc.
Qed.

Lemma plain_noSpace (s : string) : plain s = true → noSpace s = true.
Proof.
  induction s as [|c s IH]; [done|]. simpl.
  intros [[-> _]%andb_true_iff Hs]%andb_true_iff. by apply IH.
Qed.

Lemma allDigits_is_plain (s : string) : allDigits s = true → plain s = true.
Proof.
  induction s as [|c s IH]; [done|]. simpl.
  intros [Hc%bool_decide_eq_true Hs]%andb_true_iff.
  destruct (is_nat_plain c Hc) as (-> & Hcomma & _). simpl.
  rewrite bool_decide_eq_true_2 by done. by apply IH.
Qed.

Lemma noSpace_splitSpaces (s : string) :
  noSpace s = true → JS.splitSpaces s = [s] ∧ JS.startsWithSpace s = false.
Proof.
  induction s as [|c s IH]; [done|]. simpl.
  intros [Hc%negb_true_iff Hs]%andb_true_iff.
  destruct (IH Hs) as [-> _]. by rewrite Hc.
Qed.

Lemma plain_splitCommas (s : string) : plain s = true → JS.splitCommas s = [s].
Proof.
  induction s as [|c s IH]; [done|]. simpl.
  intros [[Hc%negb_true_iff Hcomma%bool_decide_eq_true]%andb_true_iff Hs]%andb_true_iff.
  by rewrite decide_False, Hc, (IH Hs).
Qed.

Lemma splitCommas_plain_comma (piece t : string) :
  plain piece = true →
  JS.splitCommas (piece +:+ String "," t) = piece :: JS.trim_head (JS.splitCommas t).
Proof.
  induction piece as [|c piece IH]; [done|].
  change (String c piece +:+ String "," t) with (String c (piece +:+ String "," t)).
  simpl.
  intros [[Hc%negb_true_iff Hcomma%bool_decide_eq_true]%andb_true_iff Hs]%andb_true_iff.
  by rewrite decide_False, Hc, (IH Hs).
Qed.

(** Splitting at the commas gives back the pieces that were joined. *)
Lemma splitCommas_joinCommas (pieces : list string) :
  Forall (λ piece, plain piece = true) pieces → pieces ≠ [] →
  JS.splitCommas (joinCommas pieces) = pieces.
Proof.
  induction pieces as [|piece pieces IH]; [done|].
  intros [Hp Hps]%Forall_cons _. destruct pieces as [|next pieces].
  { by apply plain_splitCommas. }
  change (joinCommas (piece :: next :: pieces))
    with (piece +:+ String "," (joinCommas (next :: pieces))).
  rewrite splitCommas_plain_comma, IH by done. simpl. do 2 f_equal.
  apply trimStart_id. apply Forall_cons in Hps as [Hnext _].
  by apply noSpace_splitSpaces, plain_noSpace.
Qed.

Lemma noSpace_joinCommas (pieces : list string) :
  Forall (λ piece, noSpace piece = true) pieces → noSpace (joinCommas pieces) = true.
Proof.
  induction pieces as [|piece pieces IH]; [done|].
  intros [Hp Hps]%Forall_cons. destruct pieces as [|next pieces]; [done|].
  change (joinCommas (piece :: next :: pieces))
    with (piece +:+ String "," (joinCommas (next :: pieces))).
  rewrite noSpace_app, Hp. simpl. by apply IH.
Qed.

Lemma rev_app_noSpace (s t : string) :
  noSpace s = true → JS.startsWithSpace t = false →
  JS.startsWithSpace (String.rev_app s t) = false.
Proof.
  revert t. induction s as [|a s IH]; intros t; [done|]. simpl.
  intros [Ha%negb_true_iff Hs]%andb_true_iff Ht. by apply IH.
Qed.

(** A one-letter command, a space and an argument without white space
    make the command with that argument. *)
Lemma isCommand_letter_arg (c : ascii) (arg : string) :
  Ascii.is_space c = false → noSpace arg = true → arg ≠ "" →
  isCommand (String c (String " " arg)) (String c "") arg.
Proof.
  intros Hc Harg Hne.
  destruct (noSpace_splitSpaces arg Harg) as [Hspaces Hstart].
  destruct arg as [|a arg']; [done|].
  assert (JS.trim (String c (String " " (String a arg')))
          = String c (String " " (String a arg'))) as Htrim.
  { apply trim_id; [done|]. unfold String.rev. simpl in *.
    apply andb_true_iff in Harg as [Ha Harg'].
    apply rev_app_noSpace; [done|]. simpl. by apply negb_true_iff. }
  split; rewrite Htrim; [done|].
  unfold commandOf, JS.splitSpacesLimit.
  rewrite (splitSpaces_cons c), Hc, (splitSpaces_cons " ").
  cbn [Ascii.is_space]. rewrite Hstart, Hspaces. done.
Qed.

Lemma entryText_digits (e : entry) :
  wellFormed e →
  plain (entryText e) = true
  ∧ ∃ c s, entryText e = String c s ∧ is_Some (Ascii.is_nat c).
Proof.
  destruct e as [n|a b]; simpl.
  - intros Hn. destruct (numberToString_digits n) as (Hd & Hne & _); [lia|].
    split; [by apply allDigits_is_plain|].
    destruct (allDigits_head _ Hd Hne) as (c & s & -> & Hc & _). by exists c, s.
  - intros [Ha Hb].
    destruct (numberToString_digits a) as (Hda & Hnea & _); [lia|].
    destruct (numberToString_digits b) as (Hdb & _ & _); [lia|].
    change (numberToString a +:+ "-" +:+ numberToString b)
      with (numberToString a +:+ String "-" (numberToString b)).
    split.
    + rewrite plain_app. simpl. by rewrite !allDigits_is_plain.
    + destruct (allDigits_head _ Hda Hnea) as (c & s & -> & Hc & _).
      by eexists c, _.
Qed.

Lemma entriesText_plain_pieces (es : list entry) :
  Forall wellFormed es → Forall (λ piece, plain piece = true) (entryText <$> es).
Proof.
  intros Hwf. apply Forall_fmap. eapply Forall_impl; [done|].
  intros e He. by apply entryText_digits.
Qed.

Lemma splitCommas_entriesText (es : list entry) :
  es ≠ [] → Forall wellFormed es →
  JS.splitCommas (entriesText es) = entryText <$> es.
Proof.
  intros Hne Hwf. apply splitCommas_joinCommas.
  - by apply entriesText_plain_pieces.
  - by destruct es.
Qed.

(** The argument that lists entries is an argument of the command [d],
    and is not [a]. *)
Lemma isCommand_entriesText (es : list entry) :
  es ≠ [] → Forall wellFormed es →
  isCommand ("d " +:+ entriesText es) "d" (entriesText es) ∧ entriesText es ≠ "a".
Proof.
  intros Hne Hwf.
  assert (∃ c s, entriesText es = String c s ∧ is_Some (Ascii.is_nat c))
    as (c & s & Hhead & Hc).
  { destruct es as [|e es]; [done|]. apply Forall_cons in Hwf as [He _].
    destruct (entryText_digits e He) as (_ & c & s & Hhead & Hc).
    unfold entriesText. destruct es as [|e' es]; simpl.
    - by exists c, s.
    - rewrite Hhead. by eexists c, _. }
  split.
  - apply (isCommand_letter_arg "d"); [done| |by rewrite Hhead].
    apply noSpace_joinCommas, Forall_fmap.
    eapply Forall_impl; [done|]. intros e He.
    by apply plain_noSpace, entryText_digits.
  - rewrite Hhead. intros [= -> _]. by destruct Hc.
Qed.

(** A written entry names the numbers it covers. *)
Lemma names_entryText (e : entry) (k : Z) :
  wellFormed e → names (entryText e) k ↔ covers e k = true.
Proof.
  destruct e as [n|a b]; simpl.
  - intros Hn. destruct (numberToString_digits n) as (Hd & Hne & _); [lia|].
    destruct (allDigits_plain _ Hd) as (_ & _ & Hminus & _).
    unfold names. rewrite Hminus, parseInt_numberToString, Z.eqb_eq by lia.
    split; [by intros [_ [= ->]]|by intros ->].
  - intros [Ha Hb].
    destruct (numberToString_digits a) as (Hda & Hnea & _); [lia|].
    destruct (numberToString_digits b) as (Hdb & Hneb & _); [lia|].
    destruct (range_plain _ _ Hda Hdb) as (_ & Hincl & Hsplit).
    change (numberToString a +:+ "-" +:+ numberToString b)
      with (numberToString a +:+ String "-" (numberToString b)).
    unfold names. rewrite Hincl, Hsplit. simpl.
    rewrite !parseInt_numberToString, andb_true_iff, !Z.leb_le by lia. split.
    + intros (_ & ? & ? & ? & a' & b' & [= <- <- <-] & Hra & Hrb & ?).
      rewrite roundToDouble_small in Hra, Hrb by lia.
      injection Hra as <-. injection Hrb as <-. done.
    + intros Hin. split; [by apply append_nonempty_r|].
      exists a, b, [], a, b. by rewrite !roundToDouble_small by lia.
Qed.

Lemma smallRanges_entriesText (es : list entry) :
  es ≠ [] → Forall wellFormed es → smallRanges (entriesText es).
Proof.
  intros Hne Hwf part a b others.
  rewrite splitCommas_entriesText by done.
  intros (e & -> & He)%list_elem_of_fmap.
  eapply Forall_forall in Hwf; [|done]. destruct e as [n|a0 b0]; simpl in *.
  - destruct (numberToString_digits n) as (Hd & _); [lia|].
    by rewrite splitChar_digits.
  - destruct Hwf as [Ha Hb].
    destruct (numberToString_digits a0) as (Hda & _); [lia|].
    destruct (numberToString_digits b0) as (Hdb & _); [lia|].
    destruct (range_plain _ _ Hda Hdb) as (_ & _ & Hsplit).
    change (numberToString a0 +:+ "-" +:+ numberToString b0)
      with (numberToString a0 +:+ String "-" (numberToString b0)).
    rewrite Hsplit. simpl. rewrite !parseInt_numberToString by lia.
    intros [= <- <- <-]. lia.
Qed.

Lemma selected_spec (es : list entry) (k : Z) :
  selected es k = true ↔ ∃ e, e ∈ es ∧ covers e k = true.
Proof.
  unfold selected. rewrite existsb_exists.
  split; intros (e & He & Hk); exists e; by apply list_elem_of_In in He || apply list_elem_of_In.
Qed.

(** The indices [parseIndexList] makes of written entries are the
    positions within the bounds that an entry covers. *)
Lemma elem_of_entries (es : list entry) (max : Z) (idxs : list Z) (i : Z) :
  es ≠ [] → Forall wellFormed es →
  parseIndexList (entriesText es) max = Some idxs →
  i ∈ idxs ↔ 0 ≤ i < max ∧ selected es (i + 1) = true.
Proof.
  intros Hne Hwf Hidxs.
  rewrite (elem_of_parseIndexList _ _ _ _ Hidxs), splitCommas_entriesText by done.
  rewrite selected_spec. split; intros [Hi Hex]; (split; [done|]).
  - destruct Hex as (part & (e & -> & He)%list_elem_of_fmap & Hnames).
    exists e. split; [done|]. apply names_entryText; [|done].
    by eapply Forall_forall in Hwf.
  - destruct Hex as (e & He & Hk). exists (entryText e).
    split; [by apply list_elem_of_fmap_2|]. apply names_entryText; [|done].
    by eapply Forall_forall in Hwf.
Qed.

Lemma filterIndex_ext {A} (p q : Z → bool) (i : Z) (l : list A) :
  (∀ j, i ≤ j < i + Z.of_nat (length l) → p j = q j) →
  filterIndex p i l = filterIndex q i l.
Proof.
  revert i. induction l as [|x l IH]; intros i Hpq; simpl; [done|].
  rewrite (Hpq i) by (simpl; lia).
  by rewrite (IH (i + 1)) by (intros j Hj; apply Hpq; simpl; lia).
Qed.

(** What the command [d] with written entries does: it returns, and the
    suggestions left are those whose number no entry covers. *)
Lemma delete_entries (lst : list Suggestion) (es : list entry) :
  es ≠ [] → Forall wellFormed es →
  ∃ idxs out,
    parseIndexList (entriesText es) (Z.of_nat (length lst)) = Some idxs
    ∧ (∀ i, i ∈ idxs ↔ 0 ≤ i < Z.of_nat (length lst) ∧ selected es (i + 1) = true)
    ∧ step (Reviewing lst) ("d " +:+ entriesText es)
      = (Reviewing (filterIndex (λ i, negb (selected es (i + 1))) 0 lst), out)
    ∧ (idxs = [] → Log "No valid indices." ∈ out).
Proof.
  intros Hne Hwf.
  destruct (isCommand_entriesText es Hne Hwf) as [Hcmd Hnot_all].
  destruct (parseIndexList_returns (entriesText es) (Z.of_nat (length lst)))
    as [idxs Hidxs]; [by apply smallRanges_entriesText|].
  destruct (delete_step lst _ _ idxs Hcmd Hnot_all Hidxs) as (out & Hstep & Hlog).
  exists idxs, out. split; [done|].
  split; [intros i; by apply elem_of_entries|]. split; [|done].
  rewrite Hstep. do 2 f_equal. apply filterIndex_ext. intros j Hj.
  f_equal. unfold includesIndex.
  destruct (selected es (j + 1)) eqn:Hsel.
  - apply bool_decide_eq_true_2.
    apply (elem_of_entries es _ idxs j Hne Hwf Hidxs). split; [lia|done].
  - apply bool_decide_eq_false_2.
    intros [_ Hj']%(elem_of_entries es _ idxs j Hne Hwf Hidxs). congruence.
Qed.

(** X17. The command [d a-b], with [a] and [b] written as numbers from 1
    up to, but not including, 2^53, in either order, deletes the
    suggestions numbered from the smaller to the larger of the two, both
    included, and nothing else; the part of the range beyond the end of
    the list is ignored. *)
Theorem delete_range (lst : list Suggestion) (a b : Z) (answer : string) :
  1 ≤ a < 2 ^ 53 → 1 ≤ b < 2 ^ 53 →
  isCommand answer "d" (numberToString a +:+ "-" +:+ numberToString b) →
  ∃ out,
    step (Reviewing lst) answer
    = (Reviewing (take (Z.to_nat (Z.min a b - 1)) lst ++ drop (Z.to_nat (Z.max a b)) lst),
       out).
Proof.
  intros Ha Hb Hcmd.
  assert (Forall wellFormed [Range a b]) as Hwf.
  { apply Forall_singleton. simpl. lia. }
  destruct (isCommand_entriesText [Range a b] ltac:(done) Hwf) as [_ Hnot_all].
  destruct (parseIndexList_returns (entriesText [Range a b]) (Z.of_nat (length lst)))
    as [idxs Hidxs]; [by apply smallRanges_entriesText|].
  destruct (delete_step lst answer _ idxs Hcmd Hnot_all Hidxs) as (out & -> & _).
  exists out. do 2 f_equal.
  rewrite (filterIndex_range _ (Z.min a b - 1) (Z.max a b)).
  - do 2 f_equal; lia.
  - lia.
  - intros j Hj. unfold includesIndex.
    rewrite negb_false_iff, bool_decide_eq_true.
    rewrite (elem_of_entries [Range a b] _ idxs j ltac:(done) Hwf Hidxs).
    simpl. rewrite orb_false_r, andb_true_iff, !Z.leb_le. lia.
Qed.

Lemma delete_range_witness :
  ∃ out, step (Reviewing Sample.suggestions) "d 3-2"
         = (Reviewing (take 1 Sample.suggestions ++ drop 3 Sample.suggestions), out).
Proof.
  refine (delete_range Sample.suggestions 3 2 "d 3-2" _ _ _); [lia | lia |].
  split; [by vm_compute|reflexivity].
Defined.

(** ** Numbers outside the list *)

(** X23. A [d] command for which [parseIndexList] returns deletes exactly
    the suggestions whose number, from 1 to the length of the live list,
    an entry of its argument names: entries outside these bounds are
    ignored and the entries within them are honoured. When no index is
    left the list stays as it is and [No valid indices.] is reported.
    With entries written as numbers and ranges below 2^53 the command
    returns, and the suggestions left are those that no entry covers. *)
Theorem delete_ignores_out_of_bounds (lst : list Suggestion) :
  let max := Z.of_nat (length lst) in
  (∀ answer rest idxs,
     isCommand answer "d" rest → rest ≠ "a" →
     parseIndexList rest max = Some idxs →
     ∃ lst' out,
       step (Reviewing lst) answer = (Reviewing lst', out)
       ∧ (idxs = [] → lst' = lst ∧ Log "No valid indices." ∈ out)
       ∧ ((∀ part k, part ∈ JS.splitCommas rest → names part k → ¬ 1 ≤ k ≤ max) →
          lst' = lst)
       ∧ (∀ i, i ∈ idxs
               ↔ 1 ≤ i + 1 ≤ max
                 ∧ ∃ part, part ∈ JS.splitCommas rest ∧ names part (i + 1))
       ∧ lst' = (snd <$> filter (λ ix, ix.1 ∉ idxs) (zip (seqZ 0 max) lst)))
  ∧ (∀ es, es ≠ [] → Forall wellFormed es →
       ∃ lst' out,
         step (Reviewing lst) ("d " +:+ entriesText es) = (Reviewing lst', out)
         ∧ lst' = (snd <$> filter (λ ix, selected es (ix.1 + 1) = false)
                                  (zip (seqZ 0 max) lst))
         ∧ ((∀ k, 1 ≤ k ≤ max → selected es k = false) →
            lst' = lst ∧ Log "No valid indices." ∈ out)).
Proof.
  intros max. split.
  - intros answer rest idxs Hd Hrest Hidxs.
    destruct (delete_step lst answer rest idxs Hd Hrest Hidxs)
      as (out & Hstep & Hlog).
    assert (∀ i, i ∈ idxs
                 ↔ 1 ≤ i + 1 ≤ max
                   ∧ ∃ part, part ∈ JS.splitCommas rest ∧ names part (i + 1))
      as Hmem.
    { intros i. rewrite (elem_of_parseIndexList _ _ _ _ Hidxs).
      split; intros [? ?]; (split; [lia|done]). }
    assert (idxs = [] →
            filterIndex (λ i, negb (includesIndex idxs i)) 0 lst = lst) as Hnil.
    { intros ->. apply filterIndex_no_index. }
    eexists _, out. split; [exact Hstep|]. split; [|split; [|split]].
    + intros Hnone. split; [by apply Hnil|by apply Hlog].
    + intros Hout. apply Hnil. destruct idxs as [|i idxs']; [done|].
      destruct (proj1 (Hmem i)) as [Hi (part & Hpart & Hnames)]; [by left|].
      destruct (Hout part (i + 1) Hpart Hnames Hi).
    + exact Hmem.
    + apply filterIndex_not_included.
  - intros es Hne Hwf.
    destruct (delete_entries lst es Hne Hwf) as (idxs & out & _ & Hmem & Hstep & Hlog).
    eexists _, out. split; [exact Hstep|]. split.
    + rewrite filterIndex_zip. f_equal. apply list_filter_iff. intros [i x]. simpl.
      by rewrite negb_true_iff.
    + intros Hout. assert (idxs = []) as Hnil.
      { destruct idxs as [|i idxs']; [done|].
        destruct (proj1 (Hmem i)) as [Hi Hsel]; [by left|].
        rewrite Hout in Hsel by (unfold max; lia). done. }
      split; [|by apply Hlog]. apply filterIndex_all. intros j Hj.
      rewrite Hout by (unfold max; lia). done.
Qed.

(** The sample list has three suggestions: [d 2,9,4-7] deletes the second
    and ignores the rest. *)
Lemma delete_ignores_out_of_bounds_witness :
  ∃ out,
    step (Reviewing Sample.suggestions) "d 2,9,4-7"
    = (Reviewing (take 1 Sample.suggestions ++ drop 2 Sample.suggestions), out).
Proof.
  destruct (delete_ignores_out_of_bounds Sample.suggestions) as [_ Hentries].
  destruct (Hentries [Single 2; Single 9; Range 4 7]) as (lst' & out & Hstep & -> & _).
  - done.
  - repeat constructor; simpl; lia.
  - by exists out.
Defined.

(** C6 (where the code fails it). The live list has three suggestions and
    the operator answers [d 1,9007199254740992-9007199254740992]. The
    second entry is a range outside the list, at 2^53, where [i += 1]
    leaves [i] as it is: the loop of [parseIndexList] never ends, whatever
    the number of turns, so the command does not return, suggestion 1 is
    not deleted and the review reads no further answer and approves
    nothing. *)
Theorem delete_hangs_on_large_range :
  isCommand "d 1,9007199254740992-9007199254740992" "d"
            "1,9007199254740992-9007199254740992"
  ∧ JS.splitCommas "1,9007199254740992-9007199254740992"
    = ["1"; "9007199254740992-9007199254740992"]
  ∧ addPart 3 [] "1" = Some [0]
  ∧ JS.roundToDouble (9007199254740992 + 1) = Some 9007199254740992
  ∧ (∀ fuel, forLoop fuel 3 9007199254740992 9007199254740992 [0] = None)
  ∧ parseIndexList "1,9007199254740992-9007199254740992" 3 = None
  ∧ step (Reviewing Sample.suggestions) "d 1,9007199254740992-9007199254740992"
    = (Looping Sample.suggestions, [])
  ∧ ∀ answers,
      approvedList Sample.suggestions
        ("d 1,9007199254740992-9007199254740992" :: answers) = None.
Proof.
  split; [split; [by vm_compute|reflexivity]|].
  split; [by vm_compute|]. split; [by vm_compute|].
  split; [by vm_compute|]. split.
  { intros fuel. apply forLoop_stuck; [by vm_compute|lia]. }
  split; [by vm_compute|].
  assert (step (Reviewing Sample.suggestions) "d 1,9007199254740992-9007199254740992"
          = (Looping Sample.suggestions, [])) as Hstep by (by vm_compute).
  split; [done|]. intros answers. unfold approvedList.
  rewrite review_unfold. cbn [run]. rewrite Hstep, run_Looping. done.
Qed.

(** ** The review returns on [c] and [q] only *)

Lemma command_returns lst answer approved out :
  command lst answer = (Returned approved, out) →
  ∃ rest, (isCommand answer "q" rest ∧ approved = [])
          ∨ (isCommand answer "c" rest ∧ approved = lst).
Proof.
  unfold command, isCommand, prompt, finish. intros Hret.
  case_decide as Hline; [done|].
  destruct (commandOf (JS.trim answer)) as [cmd rest]. exists rest.
  repeat case_decide; try done; subst.
  - injection Hret as <-. by left.
  - injection Hret as <-. by right.
  - destruct (parseIndexList rest (Z.of_nat (length lst))) as [idxs|]; [|done].
    by case_decide.
  - destruct (JS.parseInt rest) as [n|]; simpl in Hret; [|done].
    by destruct ((n - 1 <? 0) || (n - 1 >=? Z.of_nat (length lst))).
Qed.

Lemma run_returns (st : state) (answers : list string) approved out :
  (∀ l, st ≠ Returned l) →
  run st answers = (Returned approved, out) →
  ∃ before answer after lst out1 out2,
    answers = before ++ answer :: after
    ∧ run st before = (Reviewing lst, out1)
    ∧ step (Reviewing lst) answer = (Returned approved, out2).
Proof.
  revert st out. induction answers as [|a answers IH]; intros st out Hst; simpl.
  { intros [= -> _]. by destruct (Hst approved). }
  destruct (step st a) as [st1 o1] eqn:Hstep.
  destruct (run st1 answers) as [st2 o2] eqn:Hrun. intros [= -> <-].
  destruct st1 as [l1|l1 idx item|l1|l1].
  - destruct (IH (Reviewing l1) _ ltac:(done) Hrun)
      as (before & answer & after & lst & p1 & p2 & -> & Hb & Hs).
    exists (a :: before), answer, after, lst, (o1 ++ p1), p2.
    split; [done|]. split; [|done]. simpl. by rewrite Hstep, Hb.
  - destruct (IH (Editing l1 idx item) _ ltac:(done) Hrun)
      as (before & answer & after & lst & p1 & p2 & -> & Hb & Hs).
    exists (a :: before), answer, after, lst, (o1 ++ p1), p2.
    split; [done|]. split; [|done]. simpl. by rewrite Hstep, Hb.
  - rewrite run_Returned in Hrun. injection Hrun as <- <-.
    destruct st as [l|l idx item|l|l]; [|done|by destruct (Hst l)|done].
    by exists [], a, answers, l, [], o1.
  - by rewrite run_Looping in Hrun.
Qed.

(** X18. The review returns only at a [c] or a [q] given at the command
    prompt: the list it returns is the live list at that [c], or the empty
    list at that [q], and the answers after it are not read. *)
Theorem review_returns_on_c_or_q (suggestions approved : list Suggestion)
    (answers : list string) :
  approvedList suggestions answers = Some approved →
  ∃ before answer after lst out rest,
    answers = before ++ answer :: after
    ∧ reviewSuggestionsInteractively suggestions before = (Reviewing lst, out)
    ∧ ((isCommand answer "q" rest ∧ approved = [])
       ∨ (isCommand answer "c" rest ∧ approved = lst))
    ∧ approvedList suggestions (before ++ [answer]) = Some approved.
Proof.
  unfold approvedList. rewrite review_unfold.
  destruct (run (Reviewing suggestions) answers) as [st o] eqn:Hrun. simpl.
  destruct st as [l|l idx item|l|l]; intros [= ->].
  destruct (run_returns (Reviewing suggestions) _ _ _ ltac:(done) Hrun)
    as (before & answer & after & lst & o1 & o2 & -> & Hbefore & Hstep).
  destruct (command_returns _ _ _ _ Hstep) as [rest Hcases].
  exists before, answer, after, lst, ([PrintSuggestions suggestions; Log commandsHelp] ++ o1), rest.
  split; [done|]. split; [by rewrite review_unfold, Hbefore|]. split; [done|].
  rewrite review_unfold, run_app, Hbefore. cbn [run]. by rewrite Hstep.
Qed.

Lemma review_returns_on_c_or_q_witness :
  ∃ before answer after lst out rest,
    Sample.answers ++ ["c"; "d a"] = before ++ answer :: after
    ∧ reviewSuggestionsInteractively Sample.suggestions before = (Reviewing lst, out)
    ∧ ((isCommand answer "q" rest ∧ Sample.reviewed = [])
       ∨ (isCommand answer "c" rest ∧ Sample.reviewed = lst))
    ∧ approvedList Sample.suggestions (before ++ [answer]) = Some Sample.reviewed.
Proof.
  apply (review_returns_on_c_or_q Sample.suggestions Sample.reviewed
           (Sample.answers ++ ["c"; "d a"])).
  vm_compute. reflexivity.
Defined.

(** ** An empty list stays empty *)

Lemma derived_of_nil lst : derived [] lst → lst = [].
Proof.
  intros (kept & Hsub & Hall). apply sublist_nil_r in Hsub as ->.
  by apply Forall2_nil_inv_r in Hall.
Qed.

(** X19. Once the live list is empty, nothing brings a suggestion back:
    whatever the operator answers afterwards, the review can only return
    the empty list. *)
Theorem empty_list_stays_empty (suggestions approved : list Suggestion)
    (before more : list string) (out : list output) :
  reviewSuggestionsInteractively suggestions before = (Reviewing [], out) →
  approvedList suggestions (before ++ more) = Some approved →
  approved = [].
Proof.
  intros Hbefore. unfold approvedList. rewrite (review_app _ _ more _ _ Hbefore).
  pose proof (run_derived [] (Reviewing []) more (derived_refl [])) as Hrun.
  destruct (run (Reviewing []) more) as [[l|l idx item|l|l] o]; simpl; intros [= ->].
  by apply derived_of_nil.
Qed.

Lemma empty_list_stays_empty_witness :
  ∃ approved,
    approvedList Sample.suggestions (["d a"] ++ ["e 1"; "d 1-3"; "c"]) = Some approved
    ∧ approved = [].
Proof.
  exists []. split; [vm_compute; reflexivity|].
  refine (empty_list_stays_empty Sample.suggestions [] ["d a"]
            ["e 1"; "d 1-3"; "c"] _ _ _); vm_compute; reflexivity.
Defined.

(** ** A failure or a success ends the run *)

Section MainFailure.

Context (runOnceResult : Z → result Attempt) (clock : Z → Z).

Lemma loop_after_attempt (argv : Argv) (maxA : Z) (fuel : nat) (a k : Z)
    (before after : list event) :
  loop runOnceResult clock argv maxA fuel a = before ++ Attempted k :: after →
  (∀ e, runOnceResult k = Err e → after = [Exited 1])
  ∧ (∀ res, runOnceResult k = Ok res → gotJob res = true → after = [Exited 0]).
Proof.
  revert a before. induction fuel as [|fuel IH]; intros a before; simpl.
  { by destruct before. }
  destruct before as [|e0 before]; simpl.
  - intros [= <- <-]. split.
    + by intros e ->.
    + by intros res -> ->.
  - intros [= <- Hrest]. destruct (runOnceResult (a + 1)) as [res|e].
    2: { by destruct before as [|? [|? ?]]. }
    destruct (gotJob res).
    { by destruct before as [|? [|? ?]]. }
    destruct ((a + 1 >=? maxA) || argv_once argv || negb (argv_daemon argv)).
    { by destruct before as [|? [|? ?]]. }
    destruct before as [|e1 before]; [done|].
    injection Hrest as _ Hrest. by apply (IH (a + 1) before).
Qed.

(** X20. An attempt that throws is the last: the run does nothing more
    and exits with code 1. An attempt that reports the job as got is the
    last too: in a daemon run ([--daemon], or [daemon] in the
    configuration) only the exit with code 0 follows it, and otherwise
    only the end of [main]. *)
Theorem main_stops_after_failure (apiKey : option string) (argv : Argv)
    (jobCfg : JobCfg) (cfgJob : option string) (fuel : nat) (k : Z)
    (before after : list event) :
  main runOnceResult clock apiKey argv jobCfg cfgJob fuel
  = before ++ Attempted k :: after →
  (∀ e, runOnceResult k = Err e → after = [Exited 1])
  ∧ (∀ res, runOnceResult k = Ok res → gotJob res = true →
            after = if argv_daemon argv || daemon jobCfg
                    then [Exited 0] else [Ended]).
Proof.
  unfold main. destruct (orString apiKey None).
  2: { by destruct before as [|? [|? ?]]. }
  destruct (orString (argv_job argv) cfgJob) as [[|c job]|].
  1, 3: by destruct before as [|? [|? ?]].
  destruct (argv_daemon argv || daemon jobCfg).
  - intros [H1 H2]%loop_after_attempt. split; [done|]. intros res Hres Hgot.
    by eapply H2.
  - destruct before as [|e0 before]; simpl.
    + intros [= <- <-]. split; [by intros e ->|]. by intros res -> _.
    + intros [= _ Hrest]. destruct (runOnceResult 1); by destruct before as [|? [|? ?]].
Qed.

End MainFailure.

Lemma main_stops_after_failure_witness :
  ∃ after,
    main Sample.runOnceFailing Sample.clock (Some "sk-sample") Sample.argvDaemon
         Sample.jobCfg None 5
    = [Attempted 1; SetTimeout 2592000000] ++ Attempted 2 :: after
    ∧ after = [Exited 1].
Proof.
  exists [Exited 1]. split; [reflexivity|].
  refine (proj1 (main_stops_after_failure Sample.runOnceFailing Sample.clock
                   (Some "sk-sample") Sample.argvDaemon Sample.jobCfg None 5 2
                   [Attempted 1; SetTimeout 2592000000] [Exited 1] _)
            (TransportError "timeout") _); reflexivity.
Defined.

(** ** Edits one after another *)

Lemma fst_run_app (st : state) (answers more : list string) :
  (run st (answers ++ more)).1 = (run (run st answers).1 more).1.
Proof.
  rewrite run_app. destruct (run st answers) as [st1 o1]. simpl.
  by destruct (run st1 more).
Qed.

Lemma edit_run (lst : list Suggestion) (i : nat) (s : Suggestion) (answer text : string) :
  lst !! i = Some s →
  isCommand answer "e" (numberToString (Z.of_nat i + 1)) →
  (run (Reviewing lst) [answer; text]).1 = Reviewing (<[i := retexted s text]> lst).
Proof.
  intros Hi Hcmd. pose proof (lookup_lt_Some _ _ _ Hi) as Hlt.
  cbn [run step]. rewrite (command_e _ _ _ Hcmd).
  rewrite parseInt_numberToString by lia. simpl.
  replace (Z.of_nat i + 1 - 1) with (Z.of_nat i) by lia.
  destruct (Z.ltb_spec (Z.of_nat i) 0); [lia|].
  destruct (Z.geb_spec (Z.of_nat i) (Z.of_nat (length lst))); [lia|]. simpl.
  by rewrite Nat2Z.id, Hi.
Qed.

(** X21. Edits of two different suggestions give the same list in either
    order; of two edits of one suggestion the later non-empty text is the
    one kept, and an empty later text leaves the earlier edit in place. *)
Theorem edits_compose (lst : list Suggestion) (i j : nat) (si sj : Suggestion)
    (ei ej t1 t2 : string) :
  lst !! i = Some si → lst !! j = Some sj →
  isCommand ei "e" (numberToString (Z.of_nat i + 1)) →
  isCommand ej "e" (numberToString (Z.of_nat j + 1)) →
  (i ≠ j →
   (run (Reviewing lst) [ei; t1; ej; t2]).1 = (run (Reviewing lst) [ej; t2; ei; t1]).1)
  ∧ (JS.trim t2 ≠ "" →
     (run (Reviewing lst) [ei; t1; ei; t2]).1 = (run (Reviewing lst) [ei; t2]).1)
  ∧ (JS.trim t2 = "" →
     (run (Reviewing lst) [ei; t1; ei; t2]).1 = (run (Reviewing lst) [ei; t1]).1).
Proof.
  intros Hi Hj Hei Hej.
  pose proof (lookup_lt_Some _ _ _ Hi) as Hilt.
  pose proof (lookup_lt_Some _ _ _ Hj) as Hjlt.
  split; [|split].
  - intros Hne.
    rewrite (fst_run_app _ [ei; t1] [ej; t2]), (fst_run_app _ [ej; t2] [ei; t1]).
    rewrite (edit_run lst i si), (edit_run lst j sj) by done.
    rewrite (edit_run _ j sj), (edit_run _ i si);
      try done; try (by rewrite list_lookup_insert_ne).
    by rewrite list_insert_insert_ne.
  - intros Ht2. rewrite (fst_run_app _ [ei; t1] [ei; t2]).
    rewrite (edit_run lst i si ei t1), (edit_run lst i si ei t2) by done.
    rewrite (edit_run _ i (retexted si t1));
      try done; try (by rewrite list_lookup_insert_eq by done).
    rewrite list_insert_insert_eq. f_equal. f_equal.
    unfold retexted. rewrite !(decide_False (P := JS.trim t2 = "")) by done.
    case_decide; [done|]. by rewrite insert_insert_eq.
  - intros Ht2. rewrite (fst_run_app _ [ei; t1] [ei; t2]).
    rewrite (edit_run lst i si ei t1) by done.
    rewrite (edit_run _ i (retexted si t1));
      try done; try (by rewrite list_lookup_insert_eq by done).
    rewrite list_insert_insert_eq. f_equal. f_equal.
    unfold retexted at 1. by rewrite decide_True.
Qed.

Lemma edits_compose_witness :
  (run (Reviewing Sample.suggestions) ["e 1"; "one"; "e 3"; "three"]).1
  = (run (Reviewing Sample.suggestions) ["e 3"; "three"; "e 1"; "one"]).1.
Proof.
  refine (proj1 (edits_compose Sample.suggestions 0 2 _ _ "e 1" "e 3" "one" "three"
                   eq_refl eq_refl _ _) _).
  - split; [by vm_compute|reflexivity].
  - split; [by vm_compute|reflexivity].
  - lia.
Defined.
